(** * advanced-vector: [RawMemory<T>] and [Vector<T>] of [vector.h]

    A shallow embedding of the two class templates and of the properties
    their description states.

    Modelling choices.
    - Raw storage is a heap of blocks; a block is a list of slots, a slot
      is [None] (uninitialised memory) or [Some v] (a live object of value
      [v]).  A [T*] is [Null] or a block with an offset.
    - [Vector] objects live in a store indexed by their address, so that
      [this != &rhs] is a comparison of addresses and two names of one
      object alias.  [RawMemory] locals are passed by value; their
      destructor is run explicitly where the scope ends, also when the
      scope is left by an exception ([unwinding]).
    - Every run ends in [Ok], in [Throw] (a C++ exception propagates) or
      in [Fault]: undefined behaviour, or an object lifetime broken (a
      raw slot read or destroyed, a live slot constructed over, a block
      released through a pointer [operator new] never returned).
    - The element type is a parameter with its traits ([Element]).  Copy
      construction, copy assignment, value initialisation and
      construction from arguments may throw; moving an object does not,
      and leaves [moved_from v] in the source.
    - [size_t] values and pointer differences are natural numbers, so
      that [size_ * 2] does not wrap; [operator new] always succeeds.
    - [int] is 32 bits wide: [int offset = pos - begin()] in [Emplace]
      and [Erase] is the difference reduced to the range of [int], and
      it wraps from 2^31 elements on.  Adding a negative offset to the
      start of a buffer would form a pointer before the array, which is
      undefined.
    - A trace records each allocation, construction, assignment and
      destruction performed, in order. *)

From stdpp Require Import base option list gmap.


(** ** Element type *)

Class Element (T : Type) := {
  (** the value left in an object that has been moved from *)
  moved_from : T → T;
  (** [T()]: the value-initialised object, [None] when it throws *)
  value_init : option T;
  (** whether [T(const T&)] throws on a source of this value *)
  copy_throws : T → bool;
  (** whether [operator=(const T&)] throws on a source of this value *)
  assign_throws : T → bool;
  (** [std::is_nothrow_move_constructible_v<T>] *)
  is_nothrow_move_constructible : bool;
  (** [std::is_copy_constructible_v<T>] *)
  is_copy_constructible : bool;
}.

(** ** Pointers, objects, events *)

Inductive ptr := Null | Ptr (b i : nat).

Global Instance ptr_eq_dec : EqDecision ptr.
Proof. solve_decision. Defined.

(** [p + n]; [nullptr + 0] is [nullptr], and the code offsets a null
    pointer by nothing else. *)
Definition ptr_add (p : ptr) (n : nat) : ptr :=
  match p with Null => Null | Ptr b i => Ptr b (i + n) end.

Definition ptr_sub (p : ptr) (n : nat) : ptr :=
  match p with Null => Null | Ptr b i => Ptr b (i - n) end.

(** [p - q], defined inside one block (or on two null pointers) when
    [q] is not after [p]. *)
Definition ptr_diff (p q : ptr) : option nat :=
  match p, q with
  | Null, Null => Some 0
  | Ptr b i, Ptr c j => if decide (b = c ∧ j ≤ i) then Some (i - j) else None
  | _, _ => None
  end.

Infix "+ₚ" := ptr_add (at level 50, left associativity).
Infix "-ₚ" := ptr_sub (at level 50, left associativity).

(** [int]: the value a conversion to [int] gives, and the [size_t] an
    [int] converts to *)
Definition INT_MAX : Z := 2 ^ 31 - 1.

Definition int_of_Z (z : Z) : Z := ((z + 2 ^ 31) `mod` 2 ^ 32 - 2 ^ 31)%Z.

Definition size_t_of_int (z : Z) : nat := Z.to_nat (z `mod` 2 ^ 64).

Record raw_memory := RawMem { buffer_ : ptr; capacity_ : nat }.
Record vector := Vec { data_ : raw_memory; size_ : nat }.

Global Instance raw_memory_eq_dec : EqDecision raw_memory.
Proof. solve_decision. Defined.
Global Instance vector_eq_dec : EqDecision vector.
Proof. solve_decision. Defined.

Inductive event :=
  | EvNew (b n : nat)                 (* operator new: block b, n slots *)
  | EvDelete (b : nat)                (* operator delete of block b *)
  | EvConstruct (dst : ptr)           (* new (dst) T(args...) *)
  | EvConstructTmp                    (* T tmp_obj(args...) *)
  | EvValueInit (dst : ptr)           (* new (dst) T() *)
  | EvCopyCtor (src dst : ptr)        (* copy construction at dst from the object at src *)
  | EvMoveCtor (src dst : ptr)        (* move construction at dst from the object at src *)
  | EvCopyAssign (src dst : ptr)      (* copy assignment to dst from src *)
  | EvMoveAssign (src dst : ptr)      (* move assignment to dst from src *)
  | EvMoveAssignTmp (dst : ptr)       (* move assignment to dst from tmp_obj *)
  | EvDestroy (p : ptr)               (* p->~T() *)
  | EvDestroyTmp.                     (* tmp_obj leaves its scope *)

Global Instance event_eq_dec : EqDecision event.
Proof. solve_decision. Defined.

(** ** State and outcomes *)

Record state (T : Type) := St {
  heap : gmap nat (list (option T));
  objs : gmap nat vector;
  trace : list event;
}.
Global Arguments St {T} _ _ _.
Global Arguments heap {T} _.
Global Arguments objs {T} _.
Global Arguments trace {T} _.

Inductive outcome (T R : Type) :=
  | Ok (r : R) (s : state T)
  | Throw (s : state T)
  | Fault.
Global Arguments Ok {T R} _ _.
Global Arguments Throw {T R} _.
Global Arguments Fault {T R}.

Definition M (T R : Type) : Type := state T → outcome T R.

Global Instance M_ret {T} : MRet (M T) := λ R r st, Ok r st.
Global Instance M_bind {T} : MBind (M T) := λ A B f m st,
  match m st with
  | Ok a st' => f a st'
  | Throw st' => Throw st'
  | Fault => Fault
  end.

Section monad.
Context {T : Type}.

Definition throw {R} : M T R := λ st, Throw st.
Definition fault {R} : M T R := λ _, Fault.

(** [try { body } catch (...) { handler }] *)
Definition catch {R} (body handler : M T R) : M T R := λ st,
  match body st with
  | Throw st' => handler st'
  | o => o
  end.

(** Stack unwinding through a scope that owns a local: when [body]
    throws, the local's destructor runs and the exception goes on. *)
Definition unwinding {R} (dtor : M T unit) (body : M T R) : M T R :=
  catch body (dtor ;; throw).

(** [assert(c)]; a failed assertion has no defined continuation. *)
Definition assert (c : bool) : M T unit :=
  if c then mret () else fault.

(** [p + offset] for an [int] offset, [p] the start of a buffer: a
    negative offset leaves the array. *)
Definition ptr_add_int (p : ptr) (offset : Z) : M T ptr :=
  if decide (0 ≤ offset)%Z then mret (p +ₚ Z.to_nat offset) else fault.

Definition emit (e : event) : M T unit := λ st,
  Ok () (St (heap st) (objs st) (trace st ++ [e])).

(** *** Slots *)

Definition slot (st : state T) (p : ptr) : option (option T) :=
  match p with
  | Null => None
  | Ptr b i => heap st !! b ≫= (.!! i)
  end.

Definition load (p : ptr) : M T T := λ st,
  match slot st p with
  | Some (Some v) => Ok v st
  | _ => Fault
  end.

Definition expect_raw (p : ptr) : M T unit := λ st,
  match slot st p with
  | Some None => Ok () st
  | _ => Fault
  end.

Definition expect_live (p : ptr) : M T unit :=
  load p ;; mret ().

Definition store (p : ptr) (o : option T) : M T unit := λ st,
  match p with
  | Null => Fault
  | Ptr b i =>
      match heap st !! b with
      | Some l => Ok () (St (<[b := <[i := o]> l]> (heap st)) (objs st) (trace st))
      | None => Fault
      end
  end.

(** *** [operator new] and [operator delete] *)

Definition operator_new (n : nat) : M T ptr := λ st,
  let b := fresh (dom (heap st)) in
  Ok (Ptr b 0)
     (St (<[b := replicate n None]> (heap st)) (objs st)
         (trace st ++ [EvNew b n])).

(** Releasing the null pointer does nothing; releasing anything but
    the address [operator new] returned is undefined. *)
Definition operator_delete (p : ptr) : M T unit := λ st,
  match p with
  | Null => Ok () st
  | Ptr b 0 =>
      match heap st !! b with
      | Some _ => Ok () (St (delete b (heap st)) (objs st)
                            (trace st ++ [EvDelete b]))
      | None => Fault
      end
  | Ptr _ (S _) => Fault
  end.

(** *** The store of [Vector] objects *)

Definition get_vec (this : nat) : M T vector := λ st,
  match objs st !! this with
  | Some V => Ok V st
  | None => Fault
  end.

Definition put_vec (this : nat) (V : vector) : M T unit := λ st,
  Ok () (St (heap st) (<[this := V]> (objs st)) (trace st)).

Definition drop_vec (this : nat) : M T unit := λ st,
  Ok () (St (heap st) (delete this (objs st)) (trace st)).

Definition new_vec (V : vector) : M T nat := λ st,
  let a := fresh (dom (objs st)) in
  Ok a (St (heap st) (<[a := V]> (objs st)) (trace st)).

Definition get_data (this : nat) : M T raw_memory :=
  V ← get_vec this; mret (data_ V).
Definition get_size (this : nat) : M T nat :=
  V ← get_vec this; mret (size_ V).
Definition set_data (this : nat) (d : raw_memory) : M T unit :=
  V ← get_vec this; put_vec this (Vec d (size_ V)).
Definition set_size (this : nat) (n : nat) : M T unit :=
  V ← get_vec this; put_vec this (Vec (data_ V) n).
End monad.

(** ** Operations on one element *)

Section element.
Context {T : Type} {ET : Element T}.

(** [new (dst) T(std::forward<Args>(args)...)]; [ctor] is what the
    constructor call evaluates to: [Some v], or [None] when it
    throws. *)
Definition construct_at (dst : ptr) (ctor : option T) : M T unit :=
  expect_raw dst ;;
  match ctor with
  | Some v => store dst (Some v) ;; emit (EvConstruct dst)
  | None => throw
  end.

Definition value_construct_at (dst : ptr) : M T unit :=
  expect_raw dst ;;
  match value_init with
  | Some v => store dst (Some v) ;; emit (EvValueInit dst)
  | None => throw
  end.

Definition copy_construct_at (dst src : ptr) : M T unit :=
  v ← load src;
  expect_raw dst ;;
  if copy_throws v then throw
  else store dst (Some v) ;; emit (EvCopyCtor src dst).

Definition move_construct_at (dst src : ptr) : M T unit :=
  v ← load src;
  expect_raw dst ;;
  store dst (Some v) ;;
  store src (Some (moved_from v)) ;;
  emit (EvMoveCtor src dst).

Definition copy_assign (dst src : ptr) : M T unit :=
  v ← load src;
  expect_live dst ;;
  if assign_throws v then throw
  else store dst (Some v) ;; emit (EvCopyAssign src dst).

Definition move_assign (dst src : ptr) : M T unit :=
  v ← load src;
  expect_live dst ;;
  store dst (Some v) ;;
  store src (Some (moved_from v)) ;;
  emit (EvMoveAssign src dst).

(** [T tmp_obj(args...)]: the temporary is a local of the caller. *)
Definition construct_tmp (ctor : option T) : M T T :=
  match ctor with
  | Some v => emit EvConstructTmp ;; mret v
  | None => throw
  end.

(** move assignment of [tmp_obj] to [dst], returning what is left in
    [tmp_obj] *)
Definition move_assign_tmp (dst : ptr) (tmp : T) : M T T :=
  expect_live dst ;;
  store dst (Some tmp) ;;
  emit (EvMoveAssignTmp dst) ;;
  mret (moved_from tmp).

Definition destroy_tmp (tmp : T) : M T unit := emit EvDestroyTmp.

Definition destroy_at (p : ptr) : M T unit :=
  expect_live p ;; store p None ;; emit (EvDestroy p).

(** ** The algorithms of <memory> and <algorithm> the code calls *)

Fixpoint destroy_n (first : ptr) (n : nat) : M T unit :=
  match n with
  | 0 => mret ()
  | S n' => destroy_at first ;; destroy_n (first +ₚ 1) n'
  end.

(** The uninitialised algorithms destroy what they constructed when a
    construction throws, and rethrow. *)
Fixpoint uninitialized_value_construct_from
    (first : ptr) (done n : nat) : M T unit :=
  match n with
  | 0 => mret ()
  | S n' =>
      catch (value_construct_at (first +ₚ done))
            (destroy_n first done ;; throw) ;;
      uninitialized_value_construct_from first (S done) n'
  end.

Definition uninitialized_value_construct_n (first : ptr) (n : nat) : M T unit :=
  uninitialized_value_construct_from first 0 n.

Fixpoint uninitialized_copy_from
    (first result : ptr) (done n : nat) : M T unit :=
  match n with
  | 0 => mret ()
  | S n' =>
      catch (copy_construct_at (result +ₚ done) (first +ₚ done))
            (destroy_n result done ;; throw) ;;
      uninitialized_copy_from first result (S done) n'
  end.

Definition uninitialized_copy_n (first : ptr) (n : nat) (result : ptr) : M T unit :=
  uninitialized_copy_from first result 0 n.

Fixpoint uninitialized_move_n (first : ptr) (n : nat) (result : ptr) : M T unit :=
  match n with
  | 0 => mret ()
  | S n' =>
      move_construct_at result first ;;
      uninitialized_move_n (first +ₚ 1) n' (result +ₚ 1)
  end.

Fixpoint copy_n (first : ptr) (n : nat) (result : ptr) : M T unit :=
  match n with
  | 0 => mret ()
  | S n' => copy_assign result first ;; copy_n (first +ₚ 1) n' (result +ₚ 1)
  end.

(** [std::copy(first, last, result)] *)
Definition copy (first last result : ptr) : M T unit :=
  match ptr_diff last first with
  | Some n => copy_n first n result
  | None => fault
  end.

Fixpoint move_n (first : ptr) (n : nat) (result : ptr) : M T unit :=
  match n with
  | 0 => mret ()
  | S n' => move_assign result first ;; move_n (first +ₚ 1) n' (result +ₚ 1)
  end.

(** [std::move(first, last, result)] *)
Definition move (first last result : ptr) : M T unit :=
  match ptr_diff last first with
  | Some n => move_n first n result
  | None => fault
  end.

(** [std::move_backward]: from [last] down, [d_last] and [last] are
    decremented and the object at [last] is move-assigned to [d_last]. *)
Fixpoint move_backward_n (n : nat) (last d_last : ptr) : M T unit :=
  match n with
  | 0 => mret ()
  | S n' =>
      move_assign (d_last -ₚ 1) (last -ₚ 1) ;;
      move_backward_n n' (last -ₚ 1) (d_last -ₚ 1)
  end.

Definition move_backward (first last d_last : ptr) : M T unit :=
  match ptr_diff last first with
  | Some n => move_backward_n n last d_last
  | None => fault
  end.
End element.

(** ** [RawMemory<T>] *)

Module RawMemory.
Section defs.
Context {T : Type}.

(** [RawMemory() = default] *)
Definition default : raw_memory := RawMem Null 0.

Definition Allocate (n : nat) : M T ptr :=
  if decide (n ≠ 0) then operator_new n else mret Null.

Definition Deallocate (buf : ptr) : M T unit := operator_delete buf.

(** [explicit RawMemory(size_t capacity)] *)
Definition ctor (capacity : nat) : M T raw_memory :=
  buf ← Allocate capacity;
  mret (RawMem buf capacity).

(** [~RawMemory()] *)
Definition dtor (m : raw_memory) : M T unit := Deallocate (buffer_ m).

Definition GetAddress (m : raw_memory) : ptr := buffer_ m.
Definition Capacity (m : raw_memory) : nat := capacity_ m.

(** [RawMemory(RawMemory&& other)]: the new object and what is left
    of [other] *)
Definition ctor_move (other : raw_memory) : raw_memory * raw_memory :=
  (RawMem (GetAddress other) (Capacity other), RawMem Null 0).

(** [operator=(RawMemory&& rhs)]: the buffer [this] held is dropped
    without being released *)
Definition assign_move (this rhs : raw_memory) : raw_memory * raw_memory :=
  (RawMem (GetAddress rhs) (Capacity rhs), RawMem Null 0).

(** [operator+] *)
Definition add (m : raw_memory) (offset : nat) : M T ptr :=
  assert (bool_decide (offset ≤ capacity_ m)) ;;
  mret (buffer_ m +ₚ offset).

(** [operator[]], a reference being the address of the slot *)
Definition index (m : raw_memory) (i : nat) : M T ptr :=
  assert (bool_decide (i < capacity_ m)) ;;
  mret (buffer_ m +ₚ i).

(** [Swap]: both objects after the two [std::swap] *)
Definition Swap (this other : raw_memory) : raw_memory * raw_memory :=
  (RawMem (buffer_ other) (capacity_ other),
   RawMem (buffer_ this) (capacity_ this)).
End defs.
End RawMemory.

(** ** [Vector<T>] *)

Module Vector.
Section defs.
Context {T : Type} {ET : Element T}.

(** the condition of the [if constexpr] in [Emplace] and
    [FillNewData] *)
Definition use_move : bool :=
  is_nothrow_move_constructible || negb is_copy_constructible.

(** [T(value)] for a [const T&] and for a [T&&] argument *)
Definition copy_of (value : T) : option T :=
  if copy_throws value then None else Some value.
Definition move_of (value : T) : option T := Some value.

Definition Size (this : nat) : M T nat := get_size this.

Definition Capacity (this : nat) : M T nat :=
  d ← get_data this; mret (RawMemory.Capacity d).

Definition begin (this : nat) : M T ptr :=
  d ← get_data this; mret (RawMemory.GetAddress d).

Definition end_ (this : nat) : M T ptr :=
  d ← get_data this; n ← get_size this;
  mret (RawMemory.GetAddress d +ₚ n).

(** [operator[]] *)
Definition at_ (this : nat) (index : nat) : M T ptr :=
  n ← get_size this;
  assert (bool_decide (index < n)) ;;
  d ← get_data this;
  RawMemory.index d index.

Definition Swap (this other : nat) : M T unit :=
  a ← get_data this; b ← get_data other;
  let '(a', b') := RawMemory.Swap a b in
  set_data this a' ;; set_data other b' ;;
  n ← get_size this; m ← get_size other;
  set_size this m ;; set_size other n.

(** [Vector() = default] *)
Definition ctor_default : M T nat :=
  new_vec (Vec RawMemory.default 0).

(** [explicit Vector(size_t size)] *)
Definition ctor_size (size : nat) : M T nat :=
  data ← RawMemory.ctor size;
  unwinding (RawMemory.dtor data)
    (uninitialized_value_construct_n (RawMemory.GetAddress data) size) ;;
  new_vec (Vec data size).

(** [Vector(const Vector& other)] *)
Definition ctor_copy (other : nat) : M T nat :=
  O ← get_vec other;
  data ← RawMemory.ctor (size_ O);
  unwinding (RawMemory.dtor data)
    (uninitialized_copy_n (RawMemory.GetAddress (data_ O)) (size_ O)
       (RawMemory.GetAddress data)) ;;
  new_vec (Vec data (size_ O)).

(** [Vector(Vector&& other) noexcept] *)
Definition ctor_move (other : nat) : M T nat :=
  this ← new_vec (Vec RawMemory.default 0);
  Swap this other ;;
  mret this.

(** [~Vector()], followed by the destructor of the member [data_] *)
Definition dtor (this : nat) : M T unit :=
  V ← get_vec this;
  destroy_n (RawMemory.GetAddress (data_ V)) (size_ V) ;;
  RawMemory.dtor (data_ V) ;;
  drop_vec this.

(** [operator=(const Vector& rhs)] *)
Definition assign_copy (this rhs : nat) : M T unit :=
  if decide (this ≠ rhs) then
    rsize ← Size rhs; d ← get_data this;
    if decide (RawMemory.Capacity d < rsize) then
      buff ← ctor_copy rhs;
      Swap this buff ;;
      dtor buff
    else
      rdata ← get_data rhs; n ← Size this;
      (if decide (rsize < n) then
         copy (RawMemory.GetAddress rdata)
              (RawMemory.GetAddress rdata +ₚ rsize)
              (RawMemory.GetAddress d) ;;
         destroy_n (RawMemory.GetAddress d +ₚ rsize) (n - rsize)
       else
         copy (RawMemory.GetAddress rdata)
              (RawMemory.GetAddress rdata +ₚ n)
              (RawMemory.GetAddress d) ;;
         uninitialized_copy_n (RawMemory.GetAddress rdata +ₚ n) (rsize - n)
                              (RawMemory.GetAddress d +ₚ n)) ;;
      set_size this rsize
  else mret ().

(** [operator=(Vector&& rhs) noexcept] *)
Definition assign_move (this rhs : nat) : M T unit :=
  if decide (this ≠ rhs) then Swap this rhs else mret ().

Definition FillNewData (this : nat) (new_data : raw_memory) : M T unit :=
  d ← get_data this; n ← get_size this;
  if use_move then
    uninitialized_move_n (RawMemory.GetAddress d) n (RawMemory.GetAddress new_data)
  else
    uninitialized_copy_n (RawMemory.GetAddress d) n (RawMemory.GetAddress new_data).

(** [data_.Swap(new_data)] on the member and a local, which is
    returned as the swap leaves it *)
Definition swap_data (this : nat) (new_data : raw_memory) : M T raw_memory :=
  d ← get_data this;
  let '(d', new_data') := RawMemory.Swap d new_data in
  set_data this d' ;;
  mret new_data'.

Definition Reserve (this : nat) (new_capacity : nat) : M T unit :=
  d ← get_data this;
  if decide (new_capacity ≤ RawMemory.Capacity d) then mret ()
  else
    new_data ← RawMemory.ctor new_capacity;
    unwinding (RawMemory.dtor new_data) (FillNewData this new_data) ;;
    n ← get_size this;
    destroy_n (RawMemory.GetAddress d) n ;;
    new_data ← swap_data this new_data;
    RawMemory.dtor new_data.

Definition Resize (this : nat) (new_size : nat) : M T unit :=
  n ← get_size this;
  if decide (new_size = n) then mret ()
  else
    (if decide (new_size < n) then
       d ← get_data this;
       destroy_n (RawMemory.GetAddress d +ₚ new_size) (n - new_size)
     else
       Reserve this new_size ;;
       d ← get_data this; n ← Size this;
       uninitialized_value_construct_n (RawMemory.GetAddress d +ₚ n)
                                       (new_size - n)) ;;
    set_size this new_size.

(** [EmplaceBack(args...)], returning the address the reference
    denotes *)
Definition EmplaceBack (this : nat) (ctor : option T) : M T ptr :=
  n ← get_size this; d ← get_data this;
  (if decide (n < RawMemory.Capacity d) then
     construct_at (RawMemory.GetAddress d +ₚ n) ctor
   else
     new_data ← RawMemory.ctor (if decide (n = 0) then 1 else n * 2);
     unwinding (RawMemory.dtor new_data)
       (construct_at (RawMemory.GetAddress new_data +ₚ n) ctor ;;
        FillNewData this new_data) ;;
     destroy_n (RawMemory.GetAddress d) n ;;
     new_data ← swap_data this new_data;
     RawMemory.dtor new_data) ;;
  d ← get_data this; n ← get_size this;
  set_size this (n + 1) ;;
  RawMemory.index d n.

(** [PushBack(Type&& value)] with an lvalue and with an rvalue *)
Definition PushBack (this : nat) (value : T) : M T unit :=
  EmplaceBack this (copy_of value) ;; mret ().
Definition PushBack_move (this : nat) (value : T) : M T unit :=
  EmplaceBack this (move_of value) ;; mret ().

Definition PopBack (this : nat) : M T unit :=
  n ← get_size this;
  if decide (0 < n) then
    d ← get_data this;
    destroy_at (RawMemory.GetAddress d +ₚ n -ₚ 1) ;;
    set_size this (n - 1)
  else mret ().

Definition Emplace (this : nat) (pos : ptr) (ctor : option T) : M T ptr :=
  b ← begin this;
  match ptr_diff pos b with
  | None => fault
  | Some diff =>
      let offset := int_of_Z (Z.of_nat diff) in
      n ← get_size this; d ← get_data this;
      (if decide (n < RawMemory.Capacity d) then
         catch
           (e ← end_ this;
            if decide (pos ≠ e) then
              tmp_obj ← construct_tmp ctor;
              last ← RawMemory.index d (n - 1);
              move_construct_at e last ;;
              b ← begin this; e ← end_ this;
              first ← ptr_add_int b offset;
              move_backward first (e -ₚ 1) e ;;
              b ← begin this;
              dst ← ptr_add_int b offset;
              tmp_obj ← move_assign_tmp dst tmp_obj;
              destroy_tmp tmp_obj
            else
              construct_at e ctor)
           (e ← end_ this; operator_delete e ;; throw)
       else
         new_data ← RawMemory.ctor (if decide (n = 0) then 1 else n * 2);
         unwinding (RawMemory.dtor new_data)
           (dst ← ptr_add_int (RawMemory.GetAddress new_data) offset;
            construct_at dst ctor ;;
            (if use_move then
               uninitialized_move_n (RawMemory.GetAddress d)
                                    (size_t_of_int offset)
                                    (RawMemory.GetAddress new_data)
             else
               uninitialized_copy_n (RawMemory.GetAddress d)
                                    (size_t_of_int offset)
                                    (RawMemory.GetAddress new_data)) ;;
            src ← ptr_add_int (RawMemory.GetAddress d) offset;
            sz ← Size this;
            dst ← ptr_add_int (RawMemory.GetAddress new_data) offset;
            (if use_move then
               uninitialized_move_n src (sz - size_t_of_int offset) (dst +ₚ 1)
             else
               uninitialized_copy_n src (sz - size_t_of_int offset)
                                    (dst +ₚ 1))) ;;
         sz ← Size this;
         destroy_n (RawMemory.GetAddress d) sz ;;
         new_data ← swap_data this new_data;
         RawMemory.dtor new_data) ;;
      n ← get_size this;
      set_size this (n + 1) ;;
      b ← begin this;
      ptr_add_int b offset
  end.

Definition Erase (this : nat) (pos : ptr) : M T ptr :=
  b ← begin this;
  match ptr_diff pos b with
  | None => fault
  | Some diff =>
      let offset := int_of_Z (Z.of_nat diff) in
      first ← ptr_add_int b offset;
      e ← end_ this;
      b ← begin this;
      dst ← ptr_add_int b offset;
      move (first +ₚ 1) e dst ;;
      e ← end_ this;
      destroy_at (e -ₚ 1) ;;
      n ← get_size this;
      set_size this (n - 1) ;;
      b ← begin this;
      ptr_add_int b offset
  end.

(** [Insert(pos, const T& value)] and [Insert(pos, T&& value)] *)
Definition Insert (this : nat) (pos : ptr) (value : T) : M T ptr :=
  Emplace this pos (copy_of value).
Definition Insert_move (this : nat) (pos : ptr) (value : T) : M T ptr :=
  Emplace this pos (move_of value).

(** The private static helpers [Destroy], [DestroyN] and
    [CopyConstruct]; the loop of [DestroyN] runs [i] from 0 until
    [i == n], here with the iterations that remain as its measure. *)
Definition Destroy (buf : ptr) : M T unit := destroy_at buf.

Fixpoint DestroyN_loop (buf : ptr) (i remaining : nat) : M T unit :=
  match remaining with
  | 0 => mret ()
  | S remaining' => Destroy (buf +ₚ i) ;; DestroyN_loop buf (S i) remaining'
  end.

Definition DestroyN (buf : ptr) (n : nat) : M T unit := DestroyN_loop buf 0 n.

Definition CopyConstruct (buf : ptr) (elem : T) : M T unit :=
  construct_at buf (copy_of elem).
End defs.
End Vector.


(** * Specification vocabulary *)

(** [wp F m Q E st]: the run of [m] from [st] ends in [Ok] with [Q],
    or in [Throw] with [E]; a [Fault] is allowed when [F] holds. *)
Definition wp {T R} (F : Prop) (m : M T R)
    (Q : R → state T → Prop) (E : state T → Prop) (st : state T) : Prop :=
  match m st with
  | Ok r st' => Q r st'
  | Throw st' => E st'
  | Fault => F
  end.

(** The slots of a block of [cap] slots whose live elements are [xs]:
    indices [0, size) are live, indices [size, capacity) are raw. *)
Definition slots_of {T} (xs : list T) (cap : nat) : list (option T) :=
  (Some <$> xs) ++ replicate (cap - length xs) None.

(** The block a buffer pointer designates; the null pointer designates
    no slot at all. *)
Definition block_at {T} (h : gmap nat (list (option T))) (p : ptr)
    (l : list (option T)) : Prop :=
  match p with
  | Null => l = []
  | Ptr b i => i = 0 ∧ h !! b = Some l
  end.

(** [owns st this p xs cap]: at address [this] is a [Vector] of buffer
    [p] and capacity [cap] whose elements are [xs]. *)
Definition owns {T} (st : state T) (this : nat) (p : ptr)
    (xs : list T) (cap : nat) : Prop :=
  objs st !! this = Some (Vec (RawMem p cap) (length xs)) ∧
  length xs ≤ cap ∧
  block_at (heap st) p (slots_of xs cap).

(** The events of a loop that walks [n] objects from [src] on and from
    [dst] on, in increasing order of address. *)
Fixpoint transfer_events (ev : ptr → ptr → event) (src dst : ptr) (n : nat)
    : list event :=
  match n with
  | 0 => []
  | S n' => ev src dst :: transfer_events ev (src +ₚ 1) (dst +ₚ 1) n'
  end.

(** The events of [std::move_backward]: [n] move assignments, the
    object before [last] into the slot before [d_last] first. *)
Fixpoint backward_events (last d_last : ptr) (n : nat) : list event :=
  match n with
  | 0 => []
  | S n' =>
      EvMoveAssign (last -ₚ 1) (d_last -ₚ 1)
      :: backward_events (last -ₚ 1) (d_last -ₚ 1) n'
  end.

(** Heaps after the block of a buffer is rewritten, and after it is
    released; the null buffer has no block. *)
Definition update_block {T} (p : ptr) (l : list (option T))
    (h : gmap nat (list (option T))) : gmap nat (list (option T)) :=
  match p with Null => h | Ptr b _ => <[b := l]> h end.

Definition release {T} (p : ptr) (h : gmap nat (list (option T)))
    : gmap nat (list (option T)) :=
  match p with Null => h | Ptr b _ => delete b h end.

Definition release_events (p : ptr) : list event :=
  match p with Null => [] | Ptr b _ => [EvDelete b] end.

(** The events of [std::destroy_n(p, n)] *)
Definition destroy_events (p : ptr) (n : nat) : list event :=
  match p with Null => [] | Ptr b i => EvDestroy ∘ Ptr b <$> seq i n end.

(** How [FillNewData] and [Emplace] carry an element over to a new
    block, and what that leaves in the old block. *)
Definition transfer_ev {T} {ET : Element T} : ptr → ptr → event :=
  if Vector.use_move then EvMoveCtor else EvCopyCtor.

Definition left_behind {T} {ET : Element T} (xs : list T) : list T :=
  if Vector.use_move then moved_from <$> xs else xs.

(** An index that an [int] holds: the offset of a position that
    [Emplace] and [Erase] compute does not wrap. *)
Definition fits_int (n : nat) : Prop := (Z.of_nat n ≤ INT_MAX)%Z.

(** The capacity [Emplace] and [EmplaceBack] allocate when the block
    is full *)
Definition grown (n : nat) : nat := if decide (n = 0) then 1 else n * 2.

(** ** The public operations on an existing vector *)

Inductive operation (T : Type) :=
  | OpAssignCopy (rhs : nat)
  | OpAssignMove (rhs : nat)
  | OpSwap (other : nat)
  | OpBegin
  | OpEnd
  | OpSize
  | OpCapacity
  | OpAt (index : nat)
  | OpEmplace (pos : ptr) (ctor : option T)
  | OpErase (pos : ptr)
  | OpInsert (pos : ptr) (value : T)
  | OpInsertMove (pos : ptr) (value : T)
  | OpReserve (new_capacity : nat)
  | OpResize (new_size : nat)
  | OpPushBack (value : T)
  | OpPushBackMove (value : T)
  | OpPopBack
  | OpEmplaceBack (ctor : option T).
Global Arguments OpAssignCopy {T} _.
Global Arguments OpAssignMove {T} _.
Global Arguments OpSwap {T} _.
Global Arguments OpBegin {T}.
Global Arguments OpEnd {T}.
Global Arguments OpSize {T}.
Global Arguments OpCapacity {T}.
Global Arguments OpAt {T} _.
Global Arguments OpEmplace {T} _ _.
Global Arguments OpErase {T} _.
Global Arguments OpInsert {T} _ _.
Global Arguments OpInsertMove {T} _ _.
Global Arguments OpReserve {T} _.
Global Arguments OpResize {T} _.
Global Arguments OpPushBack {T} _.
Global Arguments OpPushBackMove {T} _.
Global Arguments OpPopBack {T}.
Global Arguments OpEmplaceBack {T} _.

Definition run_operation {T} {ET : Element T} (this : nat)
    (op : operation T) : M T unit :=
  match op with
  | OpAssignCopy rhs => Vector.assign_copy this rhs
  | OpAssignMove rhs => Vector.assign_move this rhs
  | OpSwap other => Vector.Swap this other
  | OpBegin => Vector.begin this ;; mret ()
  | OpEnd => Vector.end_ this ;; mret ()
  | OpSize => Vector.Size this ;; mret ()
  | OpCapacity => Vector.Capacity this ;; mret ()
  | OpAt index => Vector.at_ this index ;; mret ()
  | OpEmplace pos ctor => Vector.Emplace this pos ctor ;; mret ()
  | OpErase pos => Vector.Erase this pos ;; mret ()
  | OpInsert pos value => Vector.Insert this pos value ;; mret ()
  | OpInsertMove pos value => Vector.Insert_move this pos value ;; mret ()
  | OpReserve n => Vector.Reserve this n
  | OpResize n => Vector.Resize this n
  | OpPushBack value => Vector.PushBack this value
  | OpPushBackMove value => Vector.PushBack_move this value
  | OpPopBack => Vector.PopBack this
  | OpEmplaceBack ctor => Vector.EmplaceBack this ctor ;; mret ()
  end.

Definition is_move_or_swap {T} (op : operation T) : bool :=
  match op with
  | OpAssignMove _ | OpSwap _ => true
  | _ => false
  end.

(** An operation is called within its contract: [Erase] on a vector
    that holds an element. *)
Definition in_contract {T} (size : nat) (op : operation T) : Prop :=
  match op with
  | OpErase _ => 0 < size
  | _ => True
  end.

(** [Size() ≤ Capacity()] on the object at [this], and on every object
    of the store *)
Definition size_le_capacity (V : vector) : Prop :=
  size_ V ≤ capacity_ (data_ V).

Definition store_inv {T} (st : state T) : Prop :=
  ∀ v V, objs st !! v = Some V → size_le_capacity V.

(** A computation that leaves the store of [Vector] objects alone *)
Definition heap_only {T R} (m : M T R) : Prop :=
  ∀ st, match m st with
        | Ok _ st' | Throw st' => objs st' = objs st
        | Fault => True
        end.

(** A computation that never ends in [Throw] *)
Definition nothrow {T R} (m : M T R) : Prop :=
  ∀ st, match m st with Throw _ => False | _ => True end.

(** What an operation on one vector may leave in the store: the object
    has size at most its capacity, its capacity has not decreased, and
    no other object has changed. *)
Definition evolved {T} (st : state T) (this : nat) (V : vector)
    (st' : state T) : Prop :=
  ∃ V', objs st' = <[this := V']> (objs st) ∧
        size_le_capacity V' ∧
        capacity_ (data_ V) ≤ capacity_ (data_ V').

(** ** The constructors *)

Inductive construction :=
  | CtorDefault
  | CtorSize (size : nat)
  | CtorCopy (other : nat)
  | CtorMove (other : nat).

Definition run_construction {T} {ET : Element T} (c : construction)
    : M T nat :=
  match c with
  | CtorDefault => Vector.ctor_default
  | CtorSize size => Vector.ctor_size size
  | CtorCopy other => Vector.ctor_copy other
  | CtorMove other => Vector.ctor_move other
  end.

(** ** Sequences of appends and removals *)

Inductive cmd (T : Type) :=
  | Push (value : T)
  | Pop.
Global Arguments Push {T} _.
Global Arguments Pop {T}.

Definition run_cmd {T} {ET : Element T} (this : nat) (c : cmd T) : M T unit :=
  match c with
  | Push value => Vector.PushBack this value
  | Pop => Vector.PopBack this
  end.

Fixpoint run_cmds {T} {ET : Element T} (this : nat) (cs : list (cmd T))
    : M T unit :=
  match cs with
  | [] => mret ()
  | c :: cs => run_cmd this c ;; run_cmds this cs
  end.

(** The sequence on a list: a push appends, a pop removes the last
    element if there is one. *)
Definition replay_cmd {T} (xs : list T) (c : cmd T) : list T :=
  match c with
  | Push value => xs ++ [value]
  | Pop => removelast xs
  end.

Definition replay_from {T} (xs : list T) (cs : list (cmd T)) : list T :=
  fold_left replay_cmd cs xs.

Definition replay {T} (cs : list (cmd T)) : list T := replay_from [] cs.

Fixpoint pushes {T} (cs : list (cmd T)) : nat :=
  match cs with
  | [] => 0
  | Push _ :: cs => S (pushes cs)
  | Pop :: cs => pushes cs
  end.

Fixpoint pops {T} (cs : list (cmd T)) : nat :=
  match cs with
  | [] => 0
  | Push _ :: cs => pops cs
  | Pop :: cs => S (pops cs)
  end.

(** The pops of a sequence that meet a vector holding an element, the
    vector holding [n] elements when the sequence starts *)
Fixpoint effective_pops_from {T} (n : nat) (cs : list (cmd T)) : nat :=
  match cs with
  | [] => 0
  | Push _ :: cs => effective_pops_from (S n) cs
  | Pop :: cs =>
      match n with
      | 0 => effective_pops_from 0 cs
      | S n' => S (effective_pops_from n' cs)
      end
  end.

Definition effective_pops {T} (cs : list (cmd T)) : nat :=
  effective_pops_from 0 cs.

(** No pop of the sequence meets an empty vector. *)
Fixpoint never_empty_pop {T} (n : nat) (cs : list (cmd T)) : Prop :=
  match cs with
  | [] => True
  | Push _ :: cs => never_empty_pop (S n) cs
  | Pop :: cs =>
      match n with
      | 0 => False
      | S n' => never_empty_pop n' cs
      end
  end.

Definition push_ok {T} {ET : Element T} (c : cmd T) : Prop :=
  match c with
  | Push value => copy_throws value = false
  | Pop => True
  end.

Fixpoint push_all {T} {ET : Element T} (this : nat) (values : list T)
    : M T unit :=
  match values with
  | [] => mret ()
  | value :: values => Vector.PushBack this value ;; push_all this values
  end.

(** The capacity after [k] appends to a default-constructed vector:
    the doubling thresholds 1, 2, 4, 8, ... *)
Definition capacity_after (k : nat) : nat :=
  match k with
  | 0 => 0
  | _ => 2 ^ Nat.log2_up k
  end.

(** Two vectors do not share a block. *)
Definition separate (p q : ptr) : Prop := p = Null ∨ p ≠ q.

(** ** Concrete element types and states *)

(** [int]: trivially copyable, nothing throws *)
Definition int_element : Element nat :=
  {| moved_from := λ v, v;
     value_init := Some 0;
     copy_throws := λ _, false;
     assign_throws := λ _, false;
     is_nothrow_move_constructible := true;
     is_copy_constructible := true |}.

(** An element type that is copied on reallocation (its move
    constructor is not [noexcept]) and whose copy throws on the value
    13 *)
Definition unlucky_element : Element nat :=
  {| moved_from := λ _, 0;
     value_init := Some 0;
     copy_throws := λ v, bool_decide (v = 13);
     assign_throws := λ v, bool_decide (v = 13);
     is_nothrow_move_constructible := false;
     is_copy_constructible := true |}.

Definition empty_state {T} : state T := St ∅ ∅ [].

(** The vector [{10}] with capacity 2, at address 0 with its block 0 *)
Definition one_of_two : state nat :=
  St {[0 := [Some 10; None]]} {[0 := Vec (RawMem (Ptr 0 0) 2) 1]} [].

(** The vector [{10, 20}] with capacity 2 *)
Definition two_of_two : state nat :=
  St {[0 := [Some 10; Some 20]]} {[0 := Vec (RawMem (Ptr 0 0) 2) 2]} [].

(** The vectors [{1}] at address 0 and [{2}] at address 1 *)
Definition two_vectors : state nat :=
  St {[0 := [Some 1]; 1 := [Some 2]]}
     {[0 := Vec (RawMem (Ptr 0 0) 1) 1; 1 := Vec (RawMem (Ptr 1 0) 1) 1]} [].

(** ** What an operation leaves alone *)

(** Two states hold the same blocks apart from the block of one vector
    (of buffer [p] in the first state, [p'] in the second) and the same
    vectors apart from the one at [this]. *)
Definition same_rest {T} (st st' : state T) (this : nat) (p p' : ptr) : Prop :=
  release p' (heap st') = release p (heap st) ∧
  delete this (objs st') = delete this (objs st).

(** An event of a copy loop into block [b] that is rolled back: the
    copy construction of an element, or the destruction of a copy in
    a slot of [b] below index [k]. *)
Definition rollback_event (b k : nat) (e : event) : Prop :=
  match e with
  | EvCopyCtor _ _ => True
  | EvDestroy (Ptr c i) => c = b ∧ i < k
  | _ => False
  end.

(** An element type whose value initialisation throws *)
Definition no_default_element : Element nat :=
  {| moved_from := λ v, v;
     value_init := None;
     copy_throws := λ _, false;
     assign_throws := λ _, false;
     is_nothrow_move_constructible := true;
     is_copy_constructible := true |}.

(** The vectors [{1, 2}] at address 0, [{13}] at address 1 and
    [{10, 13, 20}] at address 2, each on a full block *)
Definition three_vectors : state nat :=
  St {[0 := [Some 1; Some 2]; 1 := [Some 13];
       2 := [Some 10; Some 13; Some 20]]}
     {[0 := Vec (RawMem (Ptr 0 0) 2) 2; 1 := Vec (RawMem (Ptr 1 0) 1) 1;
       2 := Vec (RawMem (Ptr 2 0) 3) 3]} [].

(** The events of [RawMemory(n)]: no allocation for the null buffer *)
Definition alloc_events (p : ptr) (n : nat) : list event :=
  match p with Null => [] | Ptr b _ => [EvNew b n] end.

(** 2^31 elements, the first number of elements whose offset from
    [begin()] an [int] does not hold, and a vector of as many zeros on
    a block with one more slot, at address 0 *)
Definition two_pow_31 : nat := Z.to_nat (2 ^ 31).

Definition huge_vector : state nat :=
  St {[0 := slots_of (replicate two_pow_31 0) (S two_pow_31)]}
     {[0 := Vec (RawMem (Ptr 0 0) (S two_pow_31)) two_pow_31]} [].
(** * Reasoning about runs *)

(** ** Rules for [wp] *)

Section wp.
Context {T : Type}.
Implicit Types (st : state T) (F : Prop).

Lemma wp_ret {R} F (r : R) Q E st : Q r st → wp F (mret r) Q E st.
Proof. done. Qed.

Lemma wp_bind {A B} F (m : M T A) (f : A → M T B) Q E st :
  wp F m (λ a, wp F (f a) Q E) E st → wp F (m ≫= f) Q E st.
Proof. unfold wp, mbind, M_bind. by destruct (m st). Qed.

Lemma wp_throw {R} F Q E st : E st → wp (R:=R) F throw Q E st.
Proof. done. Qed.

Lemma wp_fault {R} F Q E st : F → wp (R:=R) F fault Q E st.
Proof. done. Qed.

Lemma wp_catch {R} F (body handler : M T R) Q E st :
  wp F body Q (wp F handler Q E) st → wp F (catch body handler) Q E st.
Proof. unfold wp, catch. by destruct (body st). Qed.

Lemma wp_unwinding {R} F (dtor : M T unit) (body : M T R) Q E st :
  wp F body Q (wp F dtor (λ _, E) E) st → wp F (unwinding dtor body) Q E st.
Proof.
  intros Hb. apply wp_catch. revert Hb. unfold wp.
  destruct (body st) as [r s|s|]; try done.
  unfold mbind, M_bind. by destruct (dtor s).
Qed.

Lemma wp_mono {R} F (m : M T R) (Q Q' : R → state T → Prop) (E E' : state T → Prop) st :
  wp F m Q E st → (∀ r s, Q r s → Q' r s) → (∀ s, E s → E' s) →
  wp F m Q' E' st.
Proof. unfold wp. destruct (m st); auto. Qed.

Lemma wp_assert F (c : bool) Q E st :
  (if c then Q () st else F) → wp F (assert c) Q E st.
Proof. by destruct c. Qed.

(** A run whose result is known *)
Lemma wp_run {R} F (m : M T R) Q E st o :
  m st = o →
  match o with Ok r s => Q r s | Throw s => E s | Fault => F end →
  wp F m Q E st.
Proof. unfold wp. by intros ->. Qed.

Lemma wp_Ok_eq {R} (m : M T R) st r s :
  wp False m (λ r' s', r' = r ∧ s' = s) (λ _, False) st → m st = Ok r s.
Proof. unfold wp. destruct (m st); [by intros [-> ->]|done..]. Qed.

Lemma wp_Throw_eq {R} (m : M T R) st s :
  wp False m (λ _ _, False) (λ s', s' = s) st → m st = Throw s.
Proof. unfold wp. destruct (m st); [done|by intros ->|done]. Qed.

Lemma wp_Ok_inv {R} (m : M T R) Q st :
  wp False m Q (λ _, False) st → ∃ r s, m st = Ok r s ∧ Q r s.
Proof. unfold wp. destruct (m st); [by eauto|done..]. Qed.

(** *** Primitives *)

Lemma int_of_Z_fits k : fits_int k → int_of_Z (Z.of_nat k) = Z.of_nat k.
Proof.
  unfold fits_int, INT_MAX, int_of_Z. intros Hk.
  rewrite Z.mod_small by lia. lia.
Qed.

Lemma size_t_of_int_fits k : fits_int k → size_t_of_int (Z.of_nat k) = k.
Proof.
  unfold fits_int, INT_MAX, size_t_of_int. intros Hk.
  rewrite Z.mod_small by lia. apply Nat2Z.id.
Qed.

Lemma fits_int_le k n : k ≤ n → fits_int n → fits_int k.
Proof. unfold fits_int. lia. Qed.

Lemma wp_ptr_add_int F p k Q E st :
  Q (p +ₚ k) st → wp F (ptr_add_int p (Z.of_nat k)) Q E st.
Proof.
  intros HQ. unfold ptr_add_int.
  rewrite decide_True by lia. rewrite Nat2Z.id. by apply wp_ret.
Qed.

Lemma wp_emit F e Q E st :
  Q () (St (heap st) (objs st) (trace st ++ [e])) → wp F (emit e) Q E st.
Proof. done. Qed.

Lemma wp_load F p v Q E st :
  slot st p = Some (Some v) → Q v st → wp F (load p) Q E st.
Proof. unfold wp, load. by intros ->. Qed.

Lemma wp_expect_live F p v Q E st :
  slot st p = Some (Some v) → Q () st → wp F (expect_live p) Q E st.
Proof.
  intros Hs HQ. apply wp_bind. by eapply wp_load.
Qed.

Lemma wp_expect_raw F p Q E st :
  slot st p = Some None → Q () st → wp F (expect_raw p) Q E st.
Proof. unfold wp, expect_raw. by intros ->. Qed.

Lemma wp_store F b i o l Q E st :
  heap st !! b = Some l →
  Q () (St (<[b := <[i := o]> l]> (heap st)) (objs st) (trace st)) →
  wp F (store (Ptr b i) o) Q E st.
Proof. unfold wp, store. by intros ->. Qed.

Lemma fresh_block st : heap st !! fresh (dom (heap st)) = None.
Proof. apply not_elem_of_dom, is_fresh. Qed.

Lemma fresh_object st : objs st !! fresh (dom (objs st)) = None.
Proof. apply not_elem_of_dom, is_fresh. Qed.

Lemma wp_operator_new F n Q E st :
  (let b := fresh (dom (heap st)) in
   Q (Ptr b 0) (St (<[b := replicate n None]> (heap st)) (objs st)
                   (trace st ++ [EvNew b n]))) →
  wp F (operator_new n) Q E st.
Proof. done. Qed.

Lemma wp_operator_delete F b l Q E st :
  heap st !! b = Some l →
  Q () (St (delete b (heap st)) (objs st) (trace st ++ [EvDelete b])) →
  wp F (operator_delete (Ptr b 0)) Q E st.
Proof. unfold wp, operator_delete. by intros ->. Qed.

Lemma wp_operator_delete_null F Q E st :
  Q () st → wp F (operator_delete Null) Q E st.
Proof. done. Qed.

Lemma wp_get_vec F this V Q E st :
  objs st !! this = Some V → Q V st → wp F (get_vec this) Q E st.
Proof. unfold wp, get_vec. by intros ->. Qed.

Lemma wp_put_vec F this V Q E st :
  Q () (St (heap st) (<[this := V]> (objs st)) (trace st)) →
  wp F (put_vec this V) Q E st.
Proof. done. Qed.

Lemma wp_drop_vec F this Q E st :
  Q () (St (heap st) (delete this (objs st)) (trace st)) →
  wp F (drop_vec this) Q E st.
Proof. done. Qed.

Lemma wp_new_vec F V Q E st :
  (let a := fresh (dom (objs st)) in
   Q a (St (heap st) (<[a := V]> (objs st)) (trace st))) →
  wp F (new_vec V) Q E st.
Proof. done. Qed.

Lemma wp_get_data F this V Q E st :
  objs st !! this = Some V → Q (data_ V) st → wp F (get_data this) Q E st.
Proof. intros. apply wp_bind. by eapply wp_get_vec. Qed.

Lemma wp_get_size F this V Q E st :
  objs st !! this = Some V → Q (size_ V) st → wp F (get_size this) Q E st.
Proof. intros. apply wp_bind. by eapply wp_get_vec. Qed.

Lemma wp_set_data F this V d Q E st :
  objs st !! this = Some V →
  Q () (St (heap st) (<[this := Vec d (size_ V)]> (objs st)) (trace st)) →
  wp F (set_data this d) Q E st.
Proof. intros. apply wp_bind. by eapply wp_get_vec. Qed.

Lemma wp_set_size F this V n Q E st :
  objs st !! this = Some V →
  Q () (St (heap st) (<[this := Vec (data_ V) n]> (objs st)) (trace st)) →
  wp F (set_size this n) Q E st.
Proof. intros. apply wp_bind. by eapply wp_get_vec. Qed.
End wp.

(** ** Blocks as lists of slots *)

Section slots.
Context {T : Type}.
Implicit Types (l pre suf : list (option T)) (xs vs : list T).

Lemma lookup_mid pre (o : option T) suf i :
  i = length pre → (pre ++ o :: suf) !! i = Some o.
Proof. intros ->. by rewrite list_lookup_middle. Qed.

Lemma insert_mid pre (o o' : option T) suf i :
  i = length pre → <[i := o']> (pre ++ o :: suf) = pre ++ o' :: suf.
Proof.
  intros ->. rewrite insert_app_r_alt by lia. by rewrite Nat.sub_diag.
Qed.

Lemma snoc_mid pre (o : option T) suf :
  pre ++ o :: suf = (pre ++ [o]) ++ suf.
Proof. by rewrite <- app_assoc. Qed.

Lemma slots_of_length xs cap :
  length xs ≤ cap → length (slots_of xs cap) = cap.
Proof.
  intros. unfold slots_of.
  rewrite length_app, length_fmap, length_replicate. lia.
Qed.

Lemma slots_of_nil cap : slots_of (T:=T) [] cap = replicate cap None.
Proof. unfold slots_of. simpl. by rewrite Nat.sub_0_r. Qed.

Lemma slots_of_full xs : slots_of xs (length xs) = Some <$> xs.
Proof. unfold slots_of. by rewrite Nat.sub_diag, app_nil_r. Qed.

Lemma slots_of_spare xs cap :
  length xs < cap →
  slots_of xs cap = (Some <$> xs) ++ None :: replicate (cap - S (length xs)) None.
Proof.
  intros. unfold slots_of.
  replace (cap - length xs) with (S (cap - S (length xs))) by lia. done.
Qed.

Lemma slots_of_snoc xs x cap :
  (Some <$> xs) ++ Some x :: replicate (cap - S (length xs)) None
  = slots_of (xs ++ [x]) cap.
Proof.
  unfold slots_of. rewrite fmap_app, length_app. simpl.
  rewrite <- app_assoc. simpl. by rewrite Nat.add_1_r.
Qed.

Lemma slots_of_lookup_live xs cap i x :
  xs !! i = Some x → slots_of xs cap !! i = Some (Some x).
Proof.
  intros Hx. unfold slots_of.
  rewrite lookup_app_l by (rewrite length_fmap; by eapply lookup_lt_Some).
  by rewrite list_lookup_fmap, Hx.
Qed.
End slots.

(** ** Rules for the operations on one element *)

Section element_rules.
Context {T : Type} {ET : Element T}.
Implicit Types (st : state T) (F : Prop) (l : list (option T)).

Lemma slot_block st b i l :
  heap st !! b = Some l → slot st (Ptr b i) = l !! i.
Proof. unfold slot. by intros ->. Qed.

Lemma wp_construct_at F b i l v Q E st :
  heap st !! b = Some l → l !! i = Some None →
  Q () (St (<[b := <[i := Some v]> l]> (heap st)) (objs st)
           (trace st ++ [EvConstruct (Ptr b i)])) →
  wp F (construct_at (Ptr b i) (Some v)) Q E st.
Proof.
  intros Hb Hi HQ. apply wp_bind.
  apply wp_expect_raw; [by rewrite (slot_block _ _ _ _ Hb)|].
  apply wp_bind. eapply wp_store; [done|]. by apply wp_emit.
Qed.

Lemma wp_construct_at_throw F b i l Q E st :
  heap st !! b = Some l → l !! i = Some None → E st →
  wp F (construct_at (Ptr b i) None) Q E st.
Proof.
  intros Hb Hi HE. apply wp_bind.
  apply wp_expect_raw; [by rewrite (slot_block _ _ _ _ Hb)|].
  by apply wp_throw.
Qed.


Lemma wp_value_construct_at_throw F b i l Q E st :
  value_init = None →
  heap st !! b = Some l → l !! i = Some None → E st →
  wp F (value_construct_at (Ptr b i)) Q E st.
Proof.
  intros Hv Hb Hi HE. apply wp_bind.
  apply wp_expect_raw; [by rewrite (slot_block _ _ _ _ Hb)|].
  rewrite Hv. by apply wp_throw.
Qed.

Lemma wp_copy_construct_at F a i la b j lb v Q E st :
  heap st !! a = Some la → la !! i = Some (Some v) →
  heap st !! b = Some lb → lb !! j = Some None →
  (if copy_throws v then E st
   else Q () (St (<[b := <[j := Some v]> lb]> (heap st)) (objs st)
                 (trace st ++ [EvCopyCtor (Ptr a i) (Ptr b j)]))) →
  wp F (copy_construct_at (Ptr b j) (Ptr a i)) Q E st.
Proof.
  intros Ha Hi Hb Hj HQ. apply wp_bind.
  eapply wp_load; [by rewrite (slot_block _ _ _ _ Ha)|].
  apply wp_bind.
  apply wp_expect_raw; [by rewrite (slot_block _ _ _ _ Hb)|].
  destruct (copy_throws v); [by apply wp_throw|].
  apply wp_bind. eapply wp_store; [done|]. by apply wp_emit.
Qed.

Lemma wp_copy_assign F a i la b j lb v w Q E st :
  heap st !! a = Some la → la !! i = Some (Some v) →
  heap st !! b = Some lb → lb !! j = Some (Some w) →
  (if assign_throws v then E st
   else Q () (St (<[b := <[j := Some v]> lb]> (heap st)) (objs st)
                 (trace st ++ [EvCopyAssign (Ptr a i) (Ptr b j)]))) →
  wp F (copy_assign (Ptr b j) (Ptr a i)) Q E st.
Proof.
  intros Ha Hi Hb Hj HQ. apply wp_bind.
  eapply wp_load; [by rewrite (slot_block _ _ _ _ Ha)|].
  apply wp_bind.
  eapply wp_expect_live; [by rewrite (slot_block _ _ _ _ Hb)|].
  destruct (assign_throws v); [by apply wp_throw|].
  apply wp_bind. eapply wp_store; [done|]. by apply wp_emit.
Qed.

(** a move between two blocks *)
Lemma wp_move_construct_at F a i la b j lb v Q E st :
  a ≠ b →
  heap st !! a = Some la → la !! i = Some (Some v) →
  heap st !! b = Some lb → lb !! j = Some None →
  Q () (St (<[a := <[i := Some (moved_from v)]> la]>
              (<[b := <[j := Some v]> lb]> (heap st)))
           (objs st) (trace st ++ [EvMoveCtor (Ptr a i) (Ptr b j)])) →
  wp F (move_construct_at (Ptr b j) (Ptr a i)) Q E st.
Proof.
  intros Hab Ha Hi Hb Hj HQ. apply wp_bind.
  eapply wp_load; [by rewrite (slot_block _ _ _ _ Ha)|].
  apply wp_bind.
  apply wp_expect_raw; [by rewrite (slot_block _ _ _ _ Hb)|].
  apply wp_bind. eapply wp_store; [done|].
  apply wp_bind. eapply wp_store; [simpl; by rewrite lookup_insert_ne|].
  by apply wp_emit.
Qed.

(** a move inside one block *)
Lemma wp_move_construct_at_same F b i j l v Q E st :
  heap st !! b = Some l → l !! i = Some (Some v) → l !! j = Some None →
  Q () (St (<[b := <[i := Some (moved_from v)]> (<[j := Some v]> l)]> (heap st))
           (objs st) (trace st ++ [EvMoveCtor (Ptr b i) (Ptr b j)])) →
  wp F (move_construct_at (Ptr b j) (Ptr b i)) Q E st.
Proof.
  intros Hb Hi Hj HQ. apply wp_bind.
  eapply wp_load; [by rewrite (slot_block _ _ _ _ Hb)|].
  apply wp_bind.
  apply wp_expect_raw; [by rewrite (slot_block _ _ _ _ Hb)|].
  apply wp_bind. eapply wp_store; [done|].
  apply wp_bind. eapply wp_store; [simpl; by rewrite lookup_insert_eq|].
  apply wp_emit. simpl. by rewrite insert_insert_eq.
Qed.

Lemma wp_move_assign_same F b i j l v w Q E st :
  heap st !! b = Some l → l !! i = Some (Some v) → l !! j = Some (Some w) →
  Q () (St (<[b := <[i := Some (moved_from v)]> (<[j := Some v]> l)]> (heap st))
           (objs st) (trace st ++ [EvMoveAssign (Ptr b i) (Ptr b j)])) →
  wp F (move_assign (Ptr b j) (Ptr b i)) Q E st.
Proof.
  intros Hb Hi Hj HQ. apply wp_bind.
  eapply wp_load; [by rewrite (slot_block _ _ _ _ Hb)|].
  apply wp_bind.
  eapply wp_expect_live; [by rewrite (slot_block _ _ _ _ Hb)|].
  apply wp_bind. eapply wp_store; [done|].
  apply wp_bind. eapply wp_store; [simpl; by rewrite lookup_insert_eq|].
  apply wp_emit. simpl. by rewrite insert_insert_eq.
Qed.

Lemma wp_move_assign_tmp F b j l v w Q E st :
  heap st !! b = Some l → l !! j = Some (Some w) →
  Q (moved_from v)
    (St (<[b := <[j := Some v]> l]> (heap st)) (objs st)
        (trace st ++ [EvMoveAssignTmp (Ptr b j)])) →
  wp F (move_assign_tmp (Ptr b j) v) Q E st.
Proof.
  intros Hb Hj HQ. apply wp_bind.
  eapply wp_expect_live; [by rewrite (slot_block _ _ _ _ Hb)|].
  apply wp_bind. eapply wp_store; [done|].
  apply wp_bind. apply wp_emit. by apply wp_ret.
Qed.

Lemma wp_destroy_at F b i l v Q E st :
  heap st !! b = Some l → l !! i = Some (Some v) →
  Q () (St (<[b := <[i := None]> l]> (heap st)) (objs st)
           (trace st ++ [EvDestroy (Ptr b i)])) →
  wp F (destroy_at (Ptr b i)) Q E st.
Proof.
  intros Hb Hi HQ. apply wp_bind.
  eapply wp_expect_live; [by rewrite (slot_block _ _ _ _ Hb)|].
  apply wp_bind. eapply wp_store; [done|]. by apply wp_emit.
Qed.
End element_rules.

(** ** The algorithms on blocks *)

Section accessors.
Context {T : Type} {ET : Element T}.

Lemma wp_begin F this V Q E (st : state T) :
  objs st !! this = Some V → Q (buffer_ (data_ V)) st →
  wp F (Vector.begin this) Q E st.
Proof. intros. apply wp_bind. by eapply wp_get_data. Qed.

Lemma wp_end_ F this V Q E (st : state T) :
  objs st !! this = Some V → Q (buffer_ (data_ V) +ₚ size_ V) st →
  wp F (Vector.end_ this) Q E st.
Proof.
  intros. apply wp_bind. eapply wp_get_data; [done|].
  apply wp_bind. by eapply wp_get_size.
Qed.

Lemma wp_Size F this V Q E (st : state T) :
  objs st !! this = Some V → Q (size_ V) st →
  wp F (Vector.Size this) Q E st.
Proof. intros. by eapply wp_get_size. Qed.

Lemma wp_Capacity F this V Q E (st : state T) :
  objs st !! this = Some V → Q (capacity_ (data_ V)) st →
  wp F (Vector.Capacity this) Q E st.
Proof. intros. apply wp_bind. by eapply wp_get_data. Qed.
End accessors.

Ltac st_simpl := cbn [heap objs trace ptr_add ptr_sub].
Ltac vec_simpl :=
  cbn [heap objs trace ptr_add ptr_sub data_ size_ buffer_ capacity_
       RawMemory.GetAddress RawMemory.Capacity Nat.add].

(** stepping through reads and writes of the object store *)
Ltac wp_read :=
  apply wp_bind;
  first [ eapply wp_get_size | eapply wp_get_data | eapply wp_get_vec
        | eapply wp_begin | eapply wp_end_ | eapply wp_Size
        | eapply wp_Capacity ];
  [ vec_simpl; rewrite ?lookup_insert_eq; done | vec_simpl ].
Ltac wp_write :=
  apply wp_bind;
  first [ eapply wp_set_size | eapply wp_set_data ];
  [ vec_simpl; rewrite ?lookup_insert_eq; done | vec_simpl ].

(** stepping through [p + offset] for an offset that fits in [int] *)
Ltac wp_offset := apply wp_bind, wp_ptr_add_int; vec_simpl.

(** equality of two heaps or two object stores built by insertions and
    deletions *)
Ltac solve_map_eq :=
  apply map_eq; intros ?;
  repeat first [ rewrite lookup_insert | rewrite lookup_delete ];
  repeat case_decide; simplify_eq; done.

Section loops.
Context {T : Type} {ET : Element T}.
Implicit Types (st : state T) (l pre suf : list (option T)) (vs : list T).

Lemma destroy_n_block st b i n pre vs suf :
  heap st !! b = Some (pre ++ (Some <$> vs) ++ suf) →
  i = length pre → n = length vs →
  destroy_n (Ptr b i) n st
  = Ok () (St (<[b := pre ++ replicate n None ++ suf]> (heap st)) (objs st)
              (trace st ++ (EvDestroy ∘ Ptr b <$> seq i n))).
Proof.
  intros Hb Hi Hn. apply wp_Ok_eq.
  revert st b i n pre Hb Hi Hn.
  induction vs as [|v vs IH]; intros st b i n pre Hb -> ->;
    cbn [length destroy_n].
  - apply wp_ret. split; [done|]. destruct st as [h o t]. st_simpl.
    cbn. rewrite app_nil_r. by rewrite insert_id.
  - rewrite fmap_cons, <- app_comm_cons in Hb. apply wp_bind.
    eapply wp_destroy_at; [done|by apply lookup_mid|].
    rewrite insert_mid, snoc_mid by done. st_simpl.
    eapply wp_mono; [eapply (IH _ b _ _ (pre ++ [None]))|..]; st_simpl.
    + by rewrite lookup_insert_eq.
    + rewrite length_app. done.
    + done.
    + intros [] s [_ ->]. split; [done|].
      rewrite insert_insert_eq, <- !app_assoc. cbn.
      by rewrite Nat.add_1_r.
    + done.
Qed.

Lemma insert2_shadow (h : gmap nat (list (option T))) a b x y x' y' :
  a ≠ b →
  <[a := x]> (<[b := y]> (<[a := x']> (<[b := y']> h)))
  = <[a := x]> (<[b := y]> h).
Proof.
  intros Hab. apply map_eq. intros k.
  rewrite !lookup_insert. by repeat case_decide.
Qed.

Lemma uninitialized_move_n_blocks st a i pa sa b j pb sb n vs :
  a ≠ b →
  heap st !! a = Some (pa ++ (Some <$> vs) ++ sa) →
  heap st !! b = Some (pb ++ replicate n None ++ sb) →
  i = length pa → j = length pb → n = length vs →
  uninitialized_move_n (Ptr a i) n (Ptr b j) st
  = Ok () (St (<[a := pa ++ (Some ∘ moved_from <$> vs) ++ sa]>
                 (<[b := pb ++ (Some <$> vs) ++ sb]> (heap st)))
              (objs st)
              (trace st ++ transfer_events EvMoveCtor (Ptr a i) (Ptr b j) n)).
Proof.
  intros Hab Ha Hb Hi Hj Hn. apply wp_Ok_eq.
  revert st i pa j pb n Ha Hb Hi Hj Hn.
  induction vs as [|v vs IH]; intros st i pa j pb n Ha Hb -> -> ->;
    cbn [length uninitialized_move_n transfer_events].
  - apply wp_ret. split; [done|]. destruct st as [h o t]. cbn in *.
    rewrite app_nil_r. by rewrite !insert_id by (by rewrite ?lookup_insert_ne).
  - rewrite fmap_cons, <- app_comm_cons in Ha.
    cbn [length replicate] in Hb. rewrite <- app_comm_cons in Hb.
    apply wp_bind.
    eapply wp_move_construct_at; [done|done|by apply lookup_mid|done|by apply lookup_mid|].
    rewrite !insert_mid by done. st_simpl.
    rewrite (snoc_mid pa), (snoc_mid pb).
    eapply wp_mono; [eapply (IH _ _ (pa ++ [_]) _ (pb ++ [_]))|..]; st_simpl.
    + by rewrite lookup_insert_eq.
    + rewrite lookup_insert_ne by done. by rewrite lookup_insert_eq.
    + by rewrite length_app.
    + by rewrite length_app.
    + done.
    + intros [] s [_ ->]. split; [done|].
      rewrite insert2_shadow by done.
      rewrite fmap_cons, <- !app_assoc. done.
    + done.
Qed.

Lemma uninitialized_copy_from_ok st a i b j done n pa sa pb sb vs :
  a ≠ b →
  heap st !! a = Some (pa ++ (Some <$> vs) ++ sa) →
  heap st !! b = Some (pb ++ replicate n None ++ sb) →
  i + done = length pa → j + done = length pb → n = length vs →
  Forall (λ v, copy_throws v = false) vs →
  uninitialized_copy_from (Ptr a i) (Ptr b j) done n st
  = Ok () (St (<[b := pb ++ (Some <$> vs) ++ sb]> (heap st)) (objs st)
              (trace st ++ transfer_events EvCopyCtor
                             (Ptr a (i + done)) (Ptr b (j + done)) n)).
Proof.
  intros Hab Ha Hb Hi Hj Hn Hok. apply wp_Ok_eq.
  revert st done pa pb n Ha Hb Hi Hj Hn.
  induction Hok as [|v vs Hv Hok IH]; intros st done pa pb n Ha Hb Hi Hj ->;
    cbn [length uninitialized_copy_from transfer_events].
  - apply wp_ret. split; [done|]. destruct st as [h o t]. cbn in *.
    rewrite app_nil_r. by rewrite insert_id.
  - rewrite fmap_cons, <- app_comm_cons in Ha.
    cbn [length replicate] in Hb. rewrite <- app_comm_cons in Hb.
    apply wp_bind, wp_catch. st_simpl.
    eapply wp_copy_construct_at;
      [done|by apply lookup_mid|done|by apply lookup_mid|].
    rewrite Hv, insert_mid by done. st_simpl.
    rewrite (snoc_mid pb).
    eapply wp_mono;
      [eapply (IH _ (S done) (pa ++ [_]) (pb ++ [_]))|..]; st_simpl.
    + rewrite lookup_insert_ne by done. by rewrite <- snoc_mid.
    + by rewrite lookup_insert_eq.
    + rewrite length_app. cbn. lia.
    + rewrite length_app. cbn. lia.
    + done.
    + intros [] s [_ ->]. split; [done|].
      rewrite insert_insert_eq, fmap_cons, <- !app_assoc.
      replace (i + S done) with (i + done + 1) by lia.
      by replace (j + S done) with (j + done + 1) by lia.
    + done.
Qed.

Lemma uninitialized_copy_from_throw st a i b j done n pa sa pb ds sb vs :
  a ≠ b →
  heap st !! a = Some (pa ++ (Some <$> vs) ++ sa) →
  heap st !! b = Some (pb ++ (Some <$> ds) ++ replicate n None ++ sb) →
  i + done = length pa → j = length pb → done = length ds → n = length vs →
  Exists (λ v, copy_throws v = true) vs →
  ∃ tr, uninitialized_copy_from (Ptr a i) (Ptr b j) done n st
        = Throw (St (<[b := pb ++ replicate (done + n) None ++ sb]> (heap st))
                    (objs st) tr).
Proof.
  intros Hab Ha Hb Hi Hj Hd Hn Hex.
  cut (wp False (uninitialized_copy_from (Ptr a i) (Ptr b j) done n)
         (λ _ _, False)
         (λ s, ∃ tr, s = St (<[b := pb ++ replicate (done + n) None ++ sb]> (heap st))
                            (objs st) tr) st).
  { unfold wp. destruct (uninitialized_copy_from _ _ _ _ _); [done| |done].
    intros [tr ->]. by exists tr. }
  revert st done pa ds n Ha Hb Hi Hj Hd Hn Hex.
  induction vs as [|v vs IH]; intros st done pa ds n Ha Hb Hi -> -> -> Hex;
    [by apply Exists_nil in Hex|].
  cbn [length uninitialized_copy_from].
  rewrite fmap_cons, <- app_comm_cons in Ha.
  cbn [length replicate] in Hb. rewrite <- app_comm_cons, app_assoc in Hb.
  apply wp_bind, wp_catch. st_simpl.
  eapply wp_copy_construct_at; [done|by apply lookup_mid|done| |].
  { apply lookup_mid. rewrite length_app, length_fmap. done. }
  destruct (copy_throws v) eqn:Hv.
  - apply wp_bind. rewrite <- app_assoc in Hb.
    eapply wp_run; [by eapply (destroy_n_block _ _ _ _ pb ds)|].
    apply wp_throw. eexists. f_equal.
    rewrite replicate_add, <- !app_assoc. done.
  - apply Exists_cons in Hex as [Hex|Hex]; [congruence|].
    rewrite insert_mid by (rewrite length_app, length_fmap; done).
    st_simpl.
    eapply wp_mono;
      [eapply (IH _ (S (length ds)) (pa ++ [_]) (ds ++ [v]))|..]; st_simpl.
    + rewrite lookup_insert_ne by done. by rewrite <- snoc_mid.
    + rewrite lookup_insert_eq, fmap_app, <- !app_assoc. done.
    + rewrite length_app. cbn. lia.
    + done.
    + rewrite length_app. cbn. lia.
    + done.
    + done.
    + done.
    + intros s [tr ->]. exists tr. rewrite insert_insert_eq.
      by rewrite Nat.add_succ_comm.
Qed.


Lemma uninitialized_value_construct_n_throw st b j n l :
  value_init = None →
  heap st !! b = Some l → l !! j = Some None →
  uninitialized_value_construct_n (Ptr b j) (S n) st = Throw st.
Proof.
  intros Hv Hb Hj. apply wp_Throw_eq.
  unfold uninitialized_value_construct_n.
  cbn [uninitialized_value_construct_from].
  apply wp_bind, wp_catch. st_simpl. rewrite Nat.add_0_r.
  eapply wp_value_construct_at_throw; [done..|].
  cbn [destroy_n]. apply wp_bind, wp_ret. by apply wp_throw.
Qed.

Lemma copy_n_ok st a i b j n pa sa pb sb vs ws :
  a ≠ b →
  heap st !! a = Some (pa ++ (Some <$> vs) ++ sa) →
  heap st !! b = Some (pb ++ (Some <$> ws) ++ sb) →
  i = length pa → j = length pb → n = length vs → length ws = length vs →
  Forall (λ v, assign_throws v = false) vs →
  copy_n (Ptr a i) n (Ptr b j) st
  = Ok () (St (<[b := pb ++ (Some <$> vs) ++ sb]> (heap st)) (objs st)
              (trace st ++ transfer_events EvCopyAssign (Ptr a i) (Ptr b j) n)).
Proof.
  intros Hab Ha Hb Hi Hj Hn Hlen Hok. apply wp_Ok_eq.
  revert st i j pa pb ws n Ha Hb Hi Hj Hn Hlen Hok.
  induction vs as [|v vs IH];
    intros st i j pa pb ws n Ha Hb -> -> -> Hlen Hok;
    destruct ws as [|w ws]; try discriminate;
    cbn [length copy_n transfer_events].
  - apply wp_ret. split; [done|]. destruct st as [h o t]. cbn in *.
    rewrite app_nil_r. by rewrite insert_id.
  - injection Hlen as Hlen. apply Forall_cons in Hok as [Hv Hok].
    rewrite fmap_cons, <- app_comm_cons in Ha.
    rewrite fmap_cons, <- app_comm_cons in Hb.
    apply wp_bind.
    eapply wp_copy_assign;
      [done|by apply lookup_mid|done|by apply lookup_mid|].
    rewrite Hv, insert_mid by done. st_simpl.
    rewrite (snoc_mid pb).
    eapply wp_mono;
      [eapply (IH _ _ _ (pa ++ [_]) (pb ++ [_]) ws)|..]; st_simpl.
    + rewrite lookup_insert_ne by done. by rewrite <- snoc_mid.
    + by rewrite lookup_insert_eq.
    + by rewrite length_app.
    + by rewrite length_app.
    + done.
    + done.
    + done.
    + intros [] s [_ ->]. split; [done|].
      by rewrite insert_insert_eq, fmap_cons, <- !app_assoc.
    + done.
Qed.

(** When an assignment throws, the destination keeps its length: some
    of its objects have been assigned to, none created or destroyed. *)
Lemma copy_n_throw st a i b j n pa sa pb sb vs ws :
  a ≠ b →
  heap st !! a = Some (pa ++ (Some <$> vs) ++ sa) →
  heap st !! b = Some (pb ++ (Some <$> ws) ++ sb) →
  i = length pa → j = length pb → n = length vs → length ws = length vs →
  Exists (λ v, assign_throws v = true) vs →
  ∃ ws' tr, length ws' = length ws ∧
    copy_n (Ptr a i) n (Ptr b j) st
    = Throw (St (<[b := pb ++ (Some <$> ws') ++ sb]> (heap st)) (objs st) tr).
Proof.
  intros Hab Ha Hb Hi Hj Hn Hlen Hex.
  cut (wp False (copy_n (Ptr a i) n (Ptr b j)) (λ _ _, False)
         (λ s, ∃ ws' tr, length ws' = length ws ∧
            s = St (<[b := pb ++ (Some <$> ws') ++ sb]> (heap st)) (objs st) tr) st).
  { unfold wp. destruct (copy_n _ _ _ _); [done| |done].
    intros (ws' & tr & ? & ->). by exists ws', tr. }
  revert st i j pa pb ws n Ha Hb Hi Hj Hn Hlen Hex.
  induction vs as [|v vs IH]; intros st i j pa pb ws n Ha Hb -> -> -> Hlen Hex;
    [by apply Exists_nil in Hex|].
  destruct ws as [|w ws]; [discriminate|injection Hlen as Hlen].
  cbn [length copy_n].
  rewrite fmap_cons, <- app_comm_cons in Ha.
  rewrite fmap_cons, <- app_comm_cons in Hb.
  apply wp_bind.
  eapply wp_copy_assign; [done|by apply lookup_mid|done|by apply lookup_mid|].
  destruct (assign_throws v) eqn:Hv.
  - exists (w :: ws), (trace st). split; [done|].
    destruct st as [h o t]. cbn in *. by rewrite insert_id.
  - apply Exists_cons in Hex as [Hex|Hex]; [congruence|].
    rewrite insert_mid by done. st_simpl. rewrite (snoc_mid pb).
    eapply wp_mono;
      [eapply (IH _ _ _ (pa ++ [_]) (pb ++ [_]) ws)|..]; st_simpl.
    + rewrite lookup_insert_ne by done. by rewrite <- snoc_mid.
    + by rewrite lookup_insert_eq.
    + by rewrite length_app.
    + by rewrite length_app.
    + done.
    + done.
    + done.
    + done.
    + intros s (ws' & tr & Hl & ->). exists (v :: ws'), tr.
      split; [cbn; by rewrite Hl|].
      by rewrite insert_insert_eq, fmap_cons, <- !app_assoc.
Qed.

(** [std::move] towards the front of one block: every object moves one
    slot down, and the last slot of the range is left moved from. *)
Lemma move_n_shift st b i n pre d vs suf :
  heap st !! b = Some (pre ++ Some d :: (Some <$> vs) ++ suf) →
  i = length pre → n = length vs →
  ∃ r, move_n (Ptr b (S i)) n (Ptr b i) st
       = Ok () (St (<[b := pre ++ (Some <$> vs) ++ Some r :: suf]> (heap st))
                   (objs st)
                   (trace st ++ transfer_events EvMoveAssign
                                  (Ptr b (S i)) (Ptr b i) n)).
Proof.
  intros Hb Hi Hn.
  cut (wp False (move_n (Ptr b (S i)) n (Ptr b i))
         (λ _ s, ∃ r, s = St (<[b := pre ++ (Some <$> vs) ++ Some r :: suf]> (heap st))
                   (objs st)
                   (trace st ++ transfer_events EvMoveAssign
                                  (Ptr b (S i)) (Ptr b i) n))
         (λ _, False) st).
  { unfold wp. destruct (move_n _ _ _ _) as [[] s| |]; [|done..].
    intros [r ->]. by exists r. }
  revert st i n pre d Hb Hi Hn.
  induction vs as [|v vs IH]; intros st i n pre d Hb -> ->;
    cbn [length move_n transfer_events].
  - apply wp_ret. exists d. destruct st as [h o t]. cbn in *.
    rewrite app_nil_r. by rewrite insert_id.
  - rewrite fmap_cons, <- app_comm_cons in Hb.
    apply wp_bind.
    eapply wp_move_assign_same; [done| |by apply lookup_mid|].
    { rewrite snoc_mid. apply lookup_mid. rewrite length_app. cbn. lia. }
    rewrite (insert_mid pre) by done.
    rewrite (snoc_mid pre), insert_mid by (rewrite length_app; cbn; lia).
    st_simpl.
    eapply wp_mono;
      [eapply (IH _ (length pre + 1) _ (pre ++ [_]) (moved_from v))|..];
      st_simpl.
    + by rewrite lookup_insert_eq.
    + by rewrite length_app.
    + done.
    + intros [] s [r ->]. exists r.
      rewrite insert_insert_eq, fmap_cons, <- !app_assoc.
      by rewrite !Nat.add_1_r.
    + done.
Qed.

(** [std::move_backward] inside one block: every object moves one slot
    up, and the first slot of the range is left moved from. *)
Lemma move_backward_n_shift st b i n pre vs d suf :
  heap st !! b = Some (pre ++ (Some <$> vs) ++ Some d :: suf) →
  i = length pre + length vs → n = length vs →
  ∃ r, move_backward_n n (Ptr b i) (Ptr b (S i)) st
       = Ok () (St (<[b := pre ++ Some r :: (Some <$> vs) ++ suf]> (heap st))
                   (objs st)
                   (trace st ++ backward_events (Ptr b i) (Ptr b (S i)) n)).
Proof.
  intros Hb Hi Hn.
  cut (wp False (move_backward_n n (Ptr b i) (Ptr b (S i)))
         (λ _ s, ∃ r, s = St (<[b := pre ++ Some r :: (Some <$> vs) ++ suf]> (heap st))
                   (objs st)
                   (trace st ++ backward_events (Ptr b i) (Ptr b (S i)) n))
         (λ _, False) st).
  { unfold wp. destruct (move_backward_n _ _ _ _) as [[] s| |]; [|done..].
    intros [r ->]. by exists r. }
  revert st i n d suf Hb Hi Hn.
  induction vs as [|v vs IH] using rev_ind; intros st i n d suf Hb -> ->.
  - cbn [length move_backward_n backward_events].
    apply wp_ret. exists d. destruct st as [h o t]. cbn in *.
    rewrite app_nil_r. by rewrite insert_id.
  - rewrite length_app, Nat.add_1_r.
    cbn [length move_backward_n backward_events ptr_sub].
    rewrite fmap_app, <- app_assoc in Hb. cbn [fmap list_fmap] in Hb.
    rewrite <- app_comm_cons in Hb. cbn [app] in Hb.
    rewrite app_assoc in Hb.
    replace (length pre + S (length vs) - 1) with (length pre + length vs) by lia.
    replace (S (length pre + S (length vs)) - 1)
      with (S (length pre + length vs)) by lia.
    apply wp_bind.
    eapply wp_move_assign_same; [done| | |].
    { apply lookup_mid. by rewrite length_app, length_fmap. }
    { rewrite snoc_mid. apply lookup_mid.
      rewrite !length_app, length_fmap. cbn. lia. }
    rewrite (snoc_mid (pre ++ _)),
      insert_mid by (rewrite !length_app, length_fmap; cbn; lia).
    rewrite <- snoc_mid, insert_mid by (by rewrite !length_app, length_fmap).
    st_simpl. rewrite <- app_assoc.
    eapply wp_mono; [eapply (IH _ _ _ (moved_from v) (Some v :: suf))|..];
      st_simpl.
    + by rewrite lookup_insert_eq.
    + done.
    + done.
    + intros [] s [r ->]. exists r.
      rewrite insert_insert_eq, fmap_app, <- !app_assoc. done.
    + done.
Qed.

Lemma ptr_diff_block b i n : ptr_diff (Ptr b (i + n)) (Ptr b i) = Some n.
Proof.
  unfold ptr_diff. rewrite decide_True by (split; [done|lia]).
  f_equal. lia.
Qed.
End loops.

(** ** Reallocation *)

Section realloc.
Context {T : Type} {ET : Element T}.
Implicit Types (st : state T) (xs vs : list T) (l : list (option T)).

Lemma grown_max n : grown n = Nat.max 1 (2 * n).
Proof. unfold grown. case_decide; lia. Qed.

Lemma left_behind_length xs : length (left_behind xs) = length xs.
Proof. unfold left_behind. destruct Vector.use_move; by rewrite ?length_fmap. Qed.

Implicit Types (h : gmap nat (list (option T))).

Lemma block_at_null h l : block_at h Null l → l = [].
Proof. done. Qed.

Lemma block_at_insert_ne h p l b l' :
  p ≠ Ptr b 0 → block_at h p l → block_at (<[b := l']> h) p l.
Proof.
  destruct p as [|a i]; [done|]. intros Hne [-> Ha]. split; [done|].
  rewrite lookup_insert_ne; [done|congruence].
Qed.

Lemma block_at_update h p l0 l :
  block_at h p l0 → length l = length l0 →
  block_at (update_block p l h) p l.
Proof.
  destruct p as [|a i]; cbn.
  - intros -> Hl. by destruct l.
  - intros [-> Ha] _. split; [done|]. by rewrite lookup_insert_eq.
Qed.

Lemma ptr_add_0 p : p +ₚ 0 = p.
Proof. destruct p; cbn; by rewrite ?Nat.add_0_r. Qed.

Lemma block_at_fresh st p l :
  block_at (heap st) p l → p ≠ Ptr (fresh (dom (heap st))) 0.
Proof.
  destruct p as [|a i]; [done|]. intros [-> Ha] [= ->].
  by rewrite fresh_block in Ha.
Qed.

Lemma release_update p b (L l l1 : list (option T)) h :
  p ≠ Ptr b 0 → (∀ a i, p = Ptr a i → i = 0) →
  release p (<[b := L]> (update_block p l (<[b := l1]> h)))
  = <[b := L]> (release p h).
Proof.
  destruct p as [|a i]; cbn; intros Hne H0.
  - by rewrite !insert_insert_eq.
  - rewrite (H0 a i) in Hne by done. assert (a ≠ b) by congruence.
    solve_map_eq.
Qed.

Lemma replicate_prefix k n (o : option T) :
  k ≤ n → replicate n o = replicate k o ++ replicate (n - k) o.
Proof.
  intros. replace n with (k + (n - k)) at 1 by lia.
  by rewrite replicate_add.
Qed.

Lemma replicate_split n m :
  n < m → replicate m (@None T) = replicate n None ++ None :: replicate (m - S n) None.
Proof.
  intros. replace m with (n + S (m - S n)) at 1 by lia.
  by rewrite replicate_add.
Qed.

Lemma wp_RawMemory_ctor F n Q E st :
  n ≠ 0 →
  (let b := fresh (dom (heap st)) in
   Q (RawMem (Ptr b 0) n)
     (St (<[b := replicate n None]> (heap st)) (objs st)
         (trace st ++ [EvNew b n]))) →
  wp F (RawMemory.ctor n) Q E st.
Proof.
  intros Hn HQ. unfold RawMemory.ctor, RawMemory.Allocate.
  rewrite decide_True by done. apply wp_bind, wp_operator_new.
  by apply wp_ret.
Qed.

Lemma wp_RawMemory_ctor_0 F Q E st :
  Q (RawMem Null 0) st → wp F (RawMemory.ctor 0) Q E st.
Proof. done. Qed.

Lemma wp_RawMemory_dtor F p cap l Q E st :
  block_at (heap st) p l →
  Q () (St (release p (heap st)) (objs st) (trace st ++ release_events p)) →
  wp F (RawMemory.dtor (RawMem p cap)) Q E st.
Proof.
  unfold RawMemory.dtor, RawMemory.Deallocate. cbn [buffer_].
  destruct p as [|b i]; cbn [release release_events].
  - intros _ HQ. apply wp_operator_delete_null.
    destruct st. by rewrite app_nil_r in HQ.
  - intros [-> Hb] HQ. by eapply wp_operator_delete.
Qed.

(** The elements [vs] of the old block are carried over to raw slots
    of another block, by move or by copy as the traits decide. *)
Lemma transfer_ok st p q i pa vs sa b j pb sb n :
  block_at (heap st) p (pa ++ (Some <$> vs) ++ sa) →
  p ≠ Ptr b 0 →
  heap st !! b = Some (pb ++ replicate n None ++ sb) →
  q = p +ₚ i → i = length pa → j = length pb → n = length vs →
  (Vector.use_move = false → Forall (λ v, copy_throws v = false) vs) →
  (if Vector.use_move then uninitialized_move_n q n (Ptr b j)
   else uninitialized_copy_n q n (Ptr b j)) st
  = Ok () (St (<[b := pb ++ (Some <$> vs) ++ sb]>
                 (update_block p (pa ++ (Some <$> left_behind vs) ++ sa) (heap st)))
              (objs st)
              (trace st ++ transfer_events transfer_ev q (Ptr b j) n)).
Proof.
  intros Hp Hne Hb -> -> -> -> Hok.
  destruct p as [|a i0].
  - apply block_at_null in Hp.
    apply app_eq_nil in Hp as [-> [Hvs ->]%app_eq_nil].
    apply fmap_nil_inv in Hvs as ->. cbn in *.
    destruct st as [h o t]. cbn in *. rewrite app_nil_r in *.
    rewrite (insert_id h b) by done.
    by destruct Vector.use_move.
  - destruct Hp as [-> Ha]. assert (a ≠ b) by congruence.
    unfold left_behind, transfer_ev. cbn [ptr_add update_block Nat.add].
    destruct Vector.use_move.
    + erewrite uninitialized_move_n_blocks by done.
      f_equal. rewrite <- list_fmap_compose.
      by rewrite insert_insert_ne by done.
    + unfold uninitialized_copy_n.
      erewrite uninitialized_copy_from_ok by (rewrite ?Nat.add_0_r; eauto).
      rewrite !Nat.add_0_r. f_equal.
      rewrite (insert_id (heap st) a) by done. done.
Qed.

(** When a copy throws, what was copied is destroyed again and the
    heap is as before. *)
Lemma transfer_throw st a i pa vs sa b j pb sb n :
  a ≠ b →
  heap st !! a = Some (pa ++ (Some <$> vs) ++ sa) →
  heap st !! b = Some (pb ++ replicate n None ++ sb) →
  i = length pa → j = length pb → n = length vs →
  Exists (λ v, copy_throws v = true) vs →
  ∃ tr, uninitialized_copy_n (Ptr a i) n (Ptr b j) st
        = Throw (St (heap st) (objs st) tr).
Proof.
  intros Hab Ha Hb -> -> -> Hex. unfold uninitialized_copy_n.
  edestruct (uninitialized_copy_from_throw st a (length pa) b (length pb) 0
               (length vs) pa sa pb [] sb vs) as [tr Htr];
    rewrite ?Nat.add_0_r; try done.
  exists tr. rewrite Htr. do 2 f_equal. cbn. by rewrite insert_id.
Qed.

(** The end of a reallocation: the objects left in the old block are
    destroyed, the member takes the new block, and the old block is
    released with the local. *)
Lemma commit_new_data st this p cap n ys suf new_data :
  objs st !! this = Some (Vec (RawMem p cap) n) →
  block_at (heap st) p ((Some <$> ys) ++ suf) →
  length ys = n →
  (destroy_n p n ;;
   nd ← Vector.swap_data this new_data;
   RawMemory.dtor nd) st
  = Ok () (St (release p (heap st))
              (<[this := Vec new_data n]> (objs st))
              (trace st ++ destroy_events p n ++ release_events p)).
Proof.
  intros Ho Hp <-. apply wp_Ok_eq. apply wp_bind.
  destruct p as [|a i0].
  - apply block_at_null in Hp. apply app_eq_nil in Hp as [Hys ->].
    apply fmap_nil_inv in Hys as ->. cbn [length destroy_n].
    apply wp_ret. apply wp_bind. unfold Vector.swap_data.
    wp_read. unfold RawMemory.Swap. vec_simpl.
    wp_write. apply wp_ret.
    eapply wp_RawMemory_dtor; [done|]. cbn.
    destruct new_data. by rewrite !app_nil_r.
  - destruct Hp as [-> Ha].
    eapply wp_run; [by eapply (destroy_n_block _ _ _ _ [] ys)|].
    apply wp_bind. unfold Vector.swap_data.
    wp_read. unfold RawMemory.Swap. vec_simpl.
    wp_write. apply wp_ret.
    eapply wp_RawMemory_dtor; [split; [done|]; cbn; by rewrite lookup_insert_eq|].
    cbn. split; [done|]. f_equal.
    + by rewrite delete_insert_eq.
    + by destruct new_data.
    + by rewrite <- !app_assoc.
Qed.
End realloc.

(** ** [Vector]: appending *)

Section emplace_back.
Context {T : Type} {ET : Element T}.
Implicit Types (st : state T) (xs : list T).

(** With spare capacity the element is constructed in the first free
    slot and nothing else happens. *)
Lemma EmplaceBack_spare st this b xs cap v :
  objs st !! this = Some (Vec (RawMem (Ptr b 0) cap) (length xs)) →
  heap st !! b = Some (slots_of xs cap) →
  length xs < cap →
  Vector.EmplaceBack this (Some v) st
  = Ok (Ptr b (length xs))
       (St (<[b := slots_of (xs ++ [v]) cap]> (heap st))
           (<[this := Vec (RawMem (Ptr b 0) cap) (S (length xs))]> (objs st))
           (trace st ++ [EvConstruct (Ptr b (length xs))])).
Proof.
  intros Ho Hb Hlt. apply wp_Ok_eq. unfold Vector.EmplaceBack.
  do 2 wp_read. apply wp_bind. rewrite decide_True by done.
  rewrite slots_of_spare in Hb by done.
  eapply wp_construct_at; [done|apply lookup_mid; by rewrite length_fmap|].
  rewrite insert_mid by (by rewrite length_fmap). rewrite slots_of_snoc.
  do 2 wp_read. wp_write.
  unfold RawMemory.index. apply wp_bind, wp_assert. vec_simpl.
  rewrite bool_decide_true by done. apply wp_ret. vec_simpl.
  by rewrite Nat.add_1_r.
Qed.

Lemma owns_inv st this p xs cap :
  owns st this p xs cap →
  objs st !! this = Some (Vec (RawMem p cap) (length xs)) ∧
  length xs ≤ cap ∧ block_at (heap st) p (slots_of xs cap) ∧
  (∀ a i, p = Ptr a i → i = 0).
Proof.
  intros (Ho & Hle & Hp). repeat split; try done.
  intros a i ->. by destruct Hp.
Qed.

(** With a full block a new one is allocated, the element is
    constructed in it at index [Size()], and then the old elements
    are carried over. *)
Lemma EmplaceBack_full st this p xs v :
  owns st this p xs (length xs) →
  (Vector.use_move = false → Forall (λ x, copy_throws x = false) xs) →
  let n := length xs in
  let b' := fresh (dom (heap st)) in
  Vector.EmplaceBack this (Some v) st
  = Ok (Ptr b' n)
       (St (<[b' := slots_of (xs ++ [v]) (grown n)]> (release p (heap st)))
           (<[this := Vec (RawMem (Ptr b' 0) (grown n)) (S n)]> (objs st))
           (trace st ++ [EvNew b' (grown n); EvConstruct (Ptr b' n)]
              ++ transfer_events transfer_ev p (Ptr b' 0) n
              ++ destroy_events p n ++ release_events p)).
Proof.
  intros (Ho & _ & Hp & Hp0)%owns_inv Hok n b'.
  assert (Hne : p ≠ Ptr b' 0) by by eapply block_at_fresh.
  assert (Hg : n < grown n) by (rewrite grown_max; lia).
  apply wp_Ok_eq. unfold Vector.EmplaceBack.
  do 2 wp_read. apply wp_bind. rewrite decide_False by lia.
  fold n. fold (grown n).
  apply wp_bind, wp_RawMemory_ctor; [lia|]. fold b'. cbn zeta.
  apply wp_bind, wp_unwinding, wp_bind. vec_simpl.
  rewrite (replicate_split n) by done.
  eapply wp_construct_at;
    [vec_simpl; by rewrite lookup_insert_eq
    |apply lookup_mid; by rewrite length_replicate|].
  rewrite insert_mid by (by rewrite length_replicate).
  vec_simpl. rewrite insert_insert_eq.
  unfold Vector.FillNewData. do 2 wp_read.
  unfold slots_of in Hp. fold n in Hp.
  eapply wp_run.
  { eapply (transfer_ok _ p p 0 [] xs _ b' 0 []); cbn [app length];
      try done.
    - vec_simpl. by apply block_at_insert_ne.
    - vec_simpl. by rewrite lookup_insert_eq.
    - by rewrite ptr_add_0. }
  cbn [app]. eapply wp_run.
  { eapply (commit_new_data _ this p n n (left_behind xs)); vec_simpl.
    - done.
    - apply block_at_insert_ne; [done|].
      eapply block_at_update; [by apply block_at_insert_ne|].
      by rewrite !length_app, !length_fmap, left_behind_length.
    - apply left_behind_length. }
  do 2 wp_read. wp_write.
  unfold RawMemory.index. apply wp_bind, wp_assert. vec_simpl.
  rewrite bool_decide_true by done. apply wp_ret. vec_simpl.
  split; [done|]. f_equal.
  - rewrite release_update by done. f_equal. apply slots_of_snoc.
  - rewrite insert_insert_eq. by rewrite Nat.add_1_r.
  - by rewrite <- !app_assoc.
Qed.

(** A constructor that throws leaves the state as it was. *)
Lemma EmplaceBack_spare_throw st this b xs cap :
  objs st !! this = Some (Vec (RawMem (Ptr b 0) cap) (length xs)) →
  heap st !! b = Some (slots_of xs cap) →
  length xs < cap →
  Vector.EmplaceBack this None st = Throw st.
Proof.
  intros Ho Hb Hlt. apply wp_Throw_eq. unfold Vector.EmplaceBack.
  do 2 wp_read. apply wp_bind. rewrite decide_True by done.
  rewrite slots_of_spare in Hb by done.
  eapply wp_construct_at_throw; [done|apply lookup_mid; by rewrite length_fmap|].
  done.
Qed.
End emplace_back.

(** ** [owns] across the appending operations *)

Section push_pop.
Context {T : Type} {ET : Element T}.
Implicit Types (st : state T) (xs : list T).

Lemma owns_block st this p xs cap :
  owns st this p xs cap → 0 < cap →
  ∃ b, p = Ptr b 0 ∧ heap st !! b = Some (slots_of xs cap).
Proof.
  intros (_ & Hle & Hp) Hcap. destruct p as [|b i].
  - apply (f_equal length) in Hp. rewrite slots_of_length in Hp by done.
    cbn in Hp. lia.
  - destruct Hp as [-> Hb]. by exists b.
Qed.

Lemma owns_null st this xs cap : owns st this Null xs cap → xs = [] ∧ cap = 0.
Proof.
  intros (_ & Hle & Hp). apply (f_equal length) in Hp.
  rewrite slots_of_length in Hp by done. cbn in Hp. subst cap.
  split; [|done]. destruct xs; [done|cbn in Hle; lia].
Qed.

Lemma owns_intro (st : state T) this b xs cap :
  objs st !! this = Some (Vec (RawMem (Ptr b 0) cap) (length xs)) →
  heap st !! b = Some (slots_of xs cap) →
  length xs ≤ cap →
  owns st this (Ptr b 0) xs cap.
Proof. by repeat split. Qed.

(** [EmplaceBack] with a constructor that succeeds: the element is
    appended; the capacity stays when there was room and becomes
    [grown (Size())] otherwise. *)
Lemma EmplaceBack_owns st this p xs cap v :
  owns st this p xs cap →
  (length xs = cap → Vector.use_move = false →
     Forall (λ x, copy_throws x = false) xs) →
  ∃ st' p',
    Vector.EmplaceBack this (Some v) st = Ok (p' +ₚ length xs) st' ∧
    owns st' this p' (xs ++ [v])
         (if decide (length xs < cap) then cap else grown (length xs)) ∧
    (length xs < cap → p' = p).
Proof.
  intros Hown Hok. case_decide as Hlt.
  - destruct (owns_block _ _ _ _ _ Hown) as (b & -> & Hb); [lia|].
    destruct Hown as (Ho & _ & _).
    eexists _, (Ptr b 0). split; [by apply EmplaceBack_spare|].
    split; [|done]. apply owns_intro; vec_simpl.
    + rewrite lookup_insert_eq, length_app. cbn. by rewrite Nat.add_1_r.
    + by rewrite lookup_insert_eq.
    + rewrite length_app. cbn. lia.
  - assert (cap = length xs) as -> by (destruct Hown as (_ & ? & _); lia).
    eexists _, (Ptr _ 0). split; [by apply EmplaceBack_full; auto|].
    split; [|lia]. apply owns_intro; vec_simpl.
    + rewrite lookup_insert_eq, length_app. cbn. by rewrite Nat.add_1_r.
    + by rewrite lookup_insert_eq.
    + rewrite length_app, grown_max. cbn. lia.
Qed.

Lemma PopBack_empty st this V :
  objs st !! this = Some V → size_ V = 0 →
  Vector.PopBack this st = Ok () st.
Proof.
  intros Ho Hn. apply wp_Ok_eq. unfold Vector.PopBack.
  wp_read. rewrite Hn. by apply wp_ret.
Qed.

Lemma PopBack_last st this b xs x cap :
  objs st !! this = Some (Vec (RawMem (Ptr b 0) cap) (S (length xs))) →
  heap st !! b = Some (slots_of (xs ++ [x]) cap) →
  length xs < cap →
  Vector.PopBack this st
  = Ok () (St (<[b := slots_of xs cap]> (heap st))
              (<[this := Vec (RawMem (Ptr b 0) cap) (length xs)]> (objs st))
              (trace st ++ [EvDestroy (Ptr b (length xs))])).
Proof.
  intros Ho Hb Hlt. apply wp_Ok_eq. unfold Vector.PopBack.
  wp_read. rewrite decide_True by lia. wp_read. apply wp_bind.
  replace (S (length xs) - 1) with (length xs) by lia.
  rewrite <- slots_of_snoc in Hb.
  eapply wp_destroy_at; [done|apply lookup_mid; by rewrite length_fmap|].
  rewrite insert_mid by (by rewrite length_fmap).
  rewrite <- slots_of_spare by done.
  eapply wp_set_size; [done|]. vec_simpl.
  by replace (S (length xs) - 1) with (length xs) by lia.
Qed.
End push_pop.

(** ** [Vector]: insertion and removal at a position *)

Section emplace.
Context {T : Type} {ET : Element T}.
Implicit Types (st : state T) (xs : list T).

Lemma ptr_diff_0 b i : ptr_diff (Ptr b i) (Ptr b 0) = Some i.
Proof. rewrite <- (Nat.add_0_l i) at 1. apply ptr_diff_block. Qed.

Lemma slots_of_mid l1 (o : option T) l2 cap k :
  k = cap - S (length l1 + length l2) →
  (Some <$> l1) ++ o :: (Some <$> l2) ++ replicate k None
  = (Some <$> l1) ++ (o :: (Some <$> l2)) ++ replicate k None.
Proof. done. Qed.

Lemma Erase_at st this b l1 x l2 cap :
  objs st !! this
    = Some (Vec (RawMem (Ptr b 0) cap) (length (l1 ++ x :: l2))) →
  heap st !! b = Some (slots_of (l1 ++ x :: l2) cap) →
  length (l1 ++ x :: l2) ≤ cap →
  fits_int (length l1) →
  Vector.Erase this (Ptr b (length l1)) st
  = Ok (Ptr b (length l1))
       (St (<[b := slots_of (l1 ++ l2) cap]> (heap st))
           (<[this := Vec (RawMem (Ptr b 0) cap) (length (l1 ++ l2))]> (objs st))
           (trace st
              ++ transfer_events EvMoveAssign
                   (Ptr b (S (length l1))) (Ptr b (length l1)) (length l2)
              ++ [EvDestroy (Ptr b (length (l1 ++ l2)))])).
Proof.
  intros Ho Hb Hle Hfit.
  rewrite length_app in Ho, Hle. cbn [length] in Ho, Hle.
  unfold slots_of in Hb. rewrite length_app in Hb. cbn [length] in Hb.
  rewrite fmap_app, fmap_cons, <- app_assoc, <- app_comm_cons in Hb.
  rewrite length_app.
  apply wp_Ok_eq. unfold Vector.Erase.
  wp_read. rewrite ptr_diff_0, int_of_Z_fits by done. cbn zeta.
  wp_offset. do 2 wp_read. wp_offset. apply wp_bind.
  unfold move.
  replace (length l1 + S (length l2)) with (length l1 + 1 + length l2) by lia.
  rewrite ptr_diff_block. rewrite Nat.add_1_r.
  edestruct (move_n_shift st b (length l1) (length l2) (Some <$> l1) x l2)
    as [r Hr]; [exact Hb|by rewrite length_fmap|done|].
  eapply wp_run; [exact Hr|]. cbn beta iota. wp_read. apply wp_bind.
  replace (length l1 + S (length l2) - 1) with (length l1 + length l2) by lia.
  eapply wp_destroy_at; [vec_simpl; by rewrite lookup_insert_eq| |].
  { rewrite app_assoc. apply lookup_mid.
    by rewrite length_app, !length_fmap. }
  vec_simpl. rewrite insert_insert_eq.
  rewrite (app_assoc (Some <$> l1)),
    insert_mid by (by rewrite length_app, !length_fmap).
  wp_read. wp_write. wp_read. apply wp_ptr_add_int. vec_simpl.
  split; [done|].
  f_equal.
  - f_equal. unfold slots_of.
    rewrite fmap_app, length_app, <- !app_assoc. do 2 f_equal.
    replace (cap - (length l1 + length l2))
      with (S (cap - (length l1 + S (length l2)))) by lia. done.
  - do 2 f_equal. lia.
  - by rewrite <- app_assoc.
Qed.

Lemma slots_of_last_spare l1 m (z : T) cap :
  S (length l1 + length m) < cap →
  slots_of (l1 ++ m ++ [z]) cap
  = (Some <$> l1) ++ (Some <$> m)
      ++ Some z :: None :: replicate (cap - S (S (length l1 + length m))) None.
Proof.
  intros. unfold slots_of.
  rewrite !fmap_app, !length_app, <- !app_assoc. cbn.
  replace (cap - (length l1 + (length m + 1)))
    with (S (cap - S (S (length l1 + length m)))) by lia.
  done.
Qed.

(** With spare capacity and a position before [end()]: the value is
    built in a temporary, the last element is move-constructed into
    the free slot, the elements from the position on are shifted
    right from the back, and the temporary is move-assigned into the
    position. *)
Lemma Emplace_spare_mid st this b l1 m z cap v :
  objs st !! this
    = Some (Vec (RawMem (Ptr b 0) cap) (S (length l1 + length m))) →
  heap st !! b = Some (slots_of (l1 ++ m ++ [z]) cap) →
  S (length l1 + length m) < cap →
  fits_int (length l1) →
  Vector.Emplace this (Ptr b (length l1)) (Some v) st
  = Ok (Ptr b (length l1))
       (St (<[b := slots_of (l1 ++ v :: m ++ [z]) cap]> (heap st))
           (<[this := Vec (RawMem (Ptr b 0) cap) (S (S (length l1 + length m)))]>
              (objs st))
           (trace st
              ++ [EvConstructTmp;
                  EvMoveCtor (Ptr b (length l1 + length m))
                             (Ptr b (S (length l1 + length m)))]
              ++ backward_events (Ptr b (length l1 + length m))
                   (Ptr b (S (length l1 + length m))) (length m)
              ++ [EvMoveAssignTmp (Ptr b (length l1)); EvDestroyTmp])).
Proof.
  intros Ho Hb Hlt Hfit. rewrite slots_of_last_spare in Hb by done.
  set (n := length l1 + length m) in *.
  apply wp_Ok_eq. unfold Vector.Emplace.
  wp_read. rewrite ptr_diff_0, int_of_Z_fits by done. cbn zeta.
  do 2 wp_read. apply wp_bind.
  rewrite decide_True by done. apply wp_catch. wp_read.
  rewrite decide_True by (intros [= ?]; lia).
  apply wp_bind. cbn [construct_tmp]. apply wp_bind, wp_emit, wp_ret.
  apply wp_bind. unfold RawMemory.index. apply wp_bind, wp_assert.
  vec_simpl. rewrite bool_decide_true by lia. apply wp_ret.
  replace (S n - 1) with n by lia.
  apply wp_bind.
  eapply wp_move_construct_at_same; [done| | |].
  { rewrite app_assoc. apply lookup_mid.
    rewrite length_app, !length_fmap. done. }
  { rewrite app_assoc, snoc_mid. apply lookup_mid.
    rewrite !length_app, !length_fmap. cbn. lia. }
  rewrite (app_assoc (Some <$> l1)), (snoc_mid _ (Some z)).
  rewrite insert_mid by (rewrite !length_app, !length_fmap; cbn; lia).
  rewrite <- snoc_mid.
  rewrite insert_mid by (by rewrite !length_app, !length_fmap).
  rewrite <- app_assoc. vec_simpl.
  do 2 wp_read. wp_offset. apply wp_bind. unfold move_backward.
  replace (S n - 1) with (length l1 + length m) by lia.
  rewrite ptr_diff_block. fold n.
  edestruct (move_backward_n_shift
               (St (<[b := (Some <$> l1) ++ (Some <$> m)
                       ++ Some (moved_from z) :: Some z
                       :: replicate (cap - S (S n)) None]> (heap st))
                   (objs st)
                   ((trace st ++ [EvConstructTmp])
                      ++ [EvMoveCtor (Ptr b n) (Ptr b (S n))]))
               b n (length m) (Some <$> l1) m (moved_from z))
    as [r Hr];
    [vec_simpl; apply lookup_insert_eq|by rewrite length_fmap|done|].
  eapply wp_run; [exact Hr|]. cbn beta iota. vec_simpl.
  rewrite insert_insert_eq.
  wp_read. wp_offset. apply wp_bind.
  eapply wp_move_assign_tmp;
    [vec_simpl; apply lookup_insert_eq
    |apply lookup_mid; by rewrite length_fmap|].
  rewrite insert_mid by (by rewrite length_fmap).
  vec_simpl. rewrite insert_insert_eq.
  unfold destroy_tmp. apply wp_emit. vec_simpl.
  wp_read. wp_write. wp_read. apply wp_ptr_add_int. vec_simpl.
  split; [done|].
  f_equal.
  - f_equal. unfold slots_of.
    rewrite !fmap_app, fmap_cons, !fmap_app, !length_app. cbn.
    rewrite !length_app. cbn. rewrite <- !app_assoc. cbn.
    rewrite <- !app_assoc. cbn.
    do 5 f_equal. unfold n. lia.
  - do 3 f_equal. lia.
  - rewrite <- !app_assoc. done.
Qed.

(** With spare capacity and the position [end()] the element is
    constructed in the free slot. *)
Lemma Emplace_spare_end st this b xs cap v :
  objs st !! this = Some (Vec (RawMem (Ptr b 0) cap) (length xs)) →
  heap st !! b = Some (slots_of xs cap) →
  length xs < cap →
  fits_int (length xs) →
  Vector.Emplace this (Ptr b (length xs)) (Some v) st
  = Ok (Ptr b (length xs))
       (St (<[b := slots_of (xs ++ [v]) cap]> (heap st))
           (<[this := Vec (RawMem (Ptr b 0) cap) (S (length xs))]> (objs st))
           (trace st ++ [EvConstruct (Ptr b (length xs))])).
Proof.
  intros Ho Hb Hlt Hfit. apply wp_Ok_eq. unfold Vector.Emplace.
  wp_read. rewrite ptr_diff_0, int_of_Z_fits by done. cbn zeta.
  do 2 wp_read. apply wp_bind.
  rewrite decide_True by done. apply wp_catch. wp_read.
  rewrite decide_False by (by intros []).
  rewrite slots_of_spare in Hb by done.
  eapply wp_construct_at; [done|apply lookup_mid; by rewrite length_fmap|].
  rewrite insert_mid by (by rewrite length_fmap). rewrite slots_of_snoc.
  wp_read. wp_write. wp_read. apply wp_ptr_add_int. vec_simpl.
  by rewrite Nat.add_1_r.
Qed.

(** With spare capacity and [pos == end()] the element is appended;
    when the offset has wrapped below zero, the position to return,
    [begin() + offset], lies before the buffer. *)
Lemma Emplace_spare_end_wraps st this b xs cap v :
  objs st !! this = Some (Vec (RawMem (Ptr b 0) cap) (length xs)) →
  heap st !! b = Some (slots_of xs cap) →
  length xs < cap →
  (int_of_Z (Z.of_nat (length xs)) < 0)%Z →
  Vector.Emplace this (Ptr b (length xs)) (Some v) st = Fault.
Proof.
  intros Ho Hb Hlt Hneg.
  cut (wp True (Vector.Emplace this (Ptr b (length xs)) (Some v))
         (λ _ _, False) (λ _, False) st).
  { unfold wp. by destruct (Vector.Emplace _ _ _ _). }
  unfold Vector.Emplace.
  wp_read. rewrite ptr_diff_0. cbn zeta. do 2 wp_read. apply wp_bind.
  rewrite decide_True by done. apply wp_catch. wp_read.
  rewrite decide_False by (by intros []).
  rewrite slots_of_spare in Hb by done.
  eapply wp_construct_at; [done|apply lookup_mid; by rewrite length_fmap|].
  wp_read. wp_write. wp_read.
  unfold ptr_add_int. rewrite decide_False by lia. by apply wp_fault.
Qed.

(** A constructor that throws on the path with spare capacity: the
    handler hands [end()] to [operator delete].  In a vector that
    holds elements this is not an address [operator new] returned. *)
Lemma Emplace_spare_throw_fault st this b xs x k cap :
  objs st !! this = Some (Vec (RawMem (Ptr b 0) cap) (length (x :: xs))) →
  heap st !! b = Some (slots_of (x :: xs) cap) →
  length (x :: xs) < cap →
  Vector.Emplace this (Ptr b k) None st = Fault.
Proof.
  intros Ho Hb Hlt.
  cut (wp True (Vector.Emplace this (Ptr b k) None)
         (λ _ _, False) (λ _, False) st).
  { unfold wp. by destruct (Vector.Emplace _ _ _ _). }
  unfold Vector.Emplace.
  wp_read. rewrite ptr_diff_0. do 2 wp_read. apply wp_bind.
  rewrite decide_True by done. apply wp_catch. wp_read.
  assert (∀ Q : () → state T → Prop,
            wp True (Vector.end_ this ≫= λ e, operator_delete e ;; throw)
               Q (λ _, False) st) as Hhandler.
  { intros Q. wp_read. by apply wp_bind. }
  case_decide as Hpos.
  - apply wp_bind. apply wp_throw, Hhandler.
  - rewrite slots_of_spare in Hb by done.
    eapply wp_construct_at_throw; [done| |apply Hhandler].
    simplify_eq.
    apply lookup_mid. by rewrite length_fmap.
Qed.

(** In an empty vector with capacity, [end()] is the address of the
    block: the handler releases the block the vector goes on
    holding. *)
Lemma Emplace_empty_throw st this b cap :
  objs st !! this = Some (Vec (RawMem (Ptr b 0) cap) 0) →
  heap st !! b = Some (replicate cap None) →
  0 < cap →
  Vector.Emplace this (Ptr b 0) None st
  = Throw (St (delete b (heap st)) (objs st) (trace st ++ [EvDelete b])).
Proof.
  intros Ho Hb Hlt. apply wp_Throw_eq. unfold Vector.Emplace.
  wp_read. rewrite ptr_diff_0. do 2 wp_read. apply wp_bind.
  rewrite decide_True by done. apply wp_catch. wp_read.
  rewrite decide_False by (by intros []).
  destruct cap as [|cap]; [lia|].
  eapply wp_construct_at_throw; [done|done|].
  wp_read. apply wp_bind. eapply wp_operator_delete; [done|].
  by apply wp_throw.
Qed.

Lemma ptr_diff_owned st this p xs cap k :
  owns st this p xs cap → k ≤ length xs → ptr_diff (p +ₚ k) p = Some k.
Proof.
  intros Hown Hk. destruct p as [|b i].
  - apply owns_null in Hown as [-> _]. cbn in *. by replace k with 0 by lia.
  - apply owns_inv in Hown as (_ & _ & _ & Hi).
    rewrite (Hi b i) by done. apply ptr_diff_0.
Qed.

Lemma release_update2 p b (L l l' l1 l2 : list (option T))
    (h : gmap nat (list (option T))) :
  p ≠ Ptr b 0 → (∀ a i, p = Ptr a i → i = 0) →
  release p (<[b := L]> (update_block p l
               (<[b := l1]> (update_block p l' (<[b := l2]> h)))))
  = <[b := L]> (release p h).
Proof.
  destruct p as [|a i]; cbn; intros Hne H0.
  - by rewrite !insert_insert_eq.
  - rewrite (H0 a i) in Hne by done. assert (a ≠ b) by congruence.
    solve_map_eq.
Qed.

(** With a full block: a new block is allocated, the element is
    constructed in it at its final offset, the elements before and
    after the position are carried over around it, the old elements
    are destroyed and the blocks are swapped. *)
Lemma Emplace_full st this p l1 l2 v :
  owns st this p (l1 ++ l2) (length (l1 ++ l2)) →
  (Vector.use_move = false →
     Forall (λ x, copy_throws x = false) (l1 ++ l2)) →
  fits_int (length l1) →
  let n := length (l1 ++ l2) in
  let b' := fresh (dom (heap st)) in
  Vector.Emplace this (p +ₚ length l1) (Some v) st
  = Ok (Ptr b' (length l1))
       (St (<[b' := slots_of (l1 ++ v :: l2) (grown n)]> (release p (heap st)))
           (<[this := Vec (RawMem (Ptr b' 0) (grown n)) (S n)]> (objs st))
           (trace st
              ++ [EvNew b' (grown n); EvConstruct (Ptr b' (length l1))]
              ++ transfer_events transfer_ev p (Ptr b' 0) (length l1)
              ++ transfer_events transfer_ev (p +ₚ length l1)
                   (Ptr b' (S (length l1))) (length l2)
              ++ destroy_events p n ++ release_events p)).
Proof.
  intros Hown Hok Hfit n b'.
  assert (ptr_diff (p +ₚ length l1) p = Some (length l1)) as Hdiff.
  { eapply ptr_diff_owned; [done|]. rewrite length_app. lia. }
  destruct (owns_inv _ _ _ _ _ Hown) as (Ho & _ & Hp & Hp0).
  assert (Hne : p ≠ Ptr b' 0) by by eapply block_at_fresh.
  assert (Hn : n = length l1 + length l2) by (unfold n; by rewrite length_app).
  assert (Hg : n < grown n) by (rewrite grown_max; lia).
  unfold slots_of in Hp. fold n in Ho, Hp.
  rewrite Nat.sub_diag, app_nil_r, fmap_app in Hp.
  apply wp_Ok_eq. unfold Vector.Emplace.
  wp_read. rewrite Hdiff, int_of_Z_fits, size_t_of_int_fits by done.
  cbn zeta. do 2 wp_read. apply wp_bind.
  rewrite decide_False by lia. fold (grown n).
  apply wp_bind, wp_RawMemory_ctor; [lia|]. fold b'. cbn zeta.
  apply wp_bind, wp_unwinding. wp_offset. apply wp_bind.
  rewrite (replicate_split (length l1)) by lia.
  eapply wp_construct_at;
    [vec_simpl; by rewrite lookup_insert_eq
    |apply lookup_mid; by rewrite length_replicate|].
  rewrite insert_mid by (by rewrite length_replicate).
  vec_simpl. rewrite insert_insert_eq.
  apply wp_bind. eapply wp_run.
  { eapply (transfer_ok _ p p 0 [] l1 (Some <$> l2) b' 0 []);
      cbn [app length]; vec_simpl; try done.
    - by apply block_at_insert_ne.
    - by rewrite lookup_insert_eq.
    - by rewrite ptr_add_0.
    - intros Hm. specialize (Hok Hm). by apply Forall_app in Hok as []. }
  cbn [app]. vec_simpl.
  wp_offset. wp_read. wp_offset. rewrite Nat.add_1_r.
  replace (n - length l1) with (length l2) by lia.
  replace (grown n - S (length l1))
    with (length l2 + (grown n - S n)) by lia.
  rewrite replicate_add.
  eapply wp_run.
  { eapply (transfer_ok _ p _ (length l1) (Some <$> left_behind l1) l2 []
              b' (S (length l1)) ((Some <$> l1) ++ [Some v]));
      vec_simpl; try done.
    - apply block_at_insert_ne; [done|]. rewrite app_nil_r.
      eapply block_at_update; [by apply block_at_insert_ne|].
      by rewrite !length_app, !length_fmap, left_behind_length.
    - by rewrite lookup_insert_eq, <- app_assoc.
    - by rewrite length_fmap, left_behind_length.
    - rewrite length_app, length_fmap. cbn. lia.
    - intros Hm. specialize (Hok Hm). by apply Forall_app in Hok as []. }
  vec_simpl. wp_read.
  rewrite app_nil_r, <- fmap_app.
  eapply wp_run.
  { eapply (commit_new_data _ this p n n (left_behind l1 ++ left_behind l2) []);
      vec_simpl.
    - done.
    - apply block_at_insert_ne; [done|]. rewrite app_nil_r.
      eapply block_at_update;
        [apply block_at_insert_ne; [done|];
         eapply block_at_update; [by apply block_at_insert_ne|]|];
        by rewrite ?length_app, !length_fmap, ?length_app, ?left_behind_length.
    - rewrite length_app, !left_behind_length. lia. }
  wp_read. wp_write. wp_read. apply wp_ptr_add_int. vec_simpl.
  split; [done|]. f_equal.
  - rewrite release_update2 by done. f_equal. unfold slots_of.
    rewrite fmap_app, fmap_cons, length_app, <- !app_assoc. cbn.
    do 4 f_equal. lia.
  - by rewrite insert_insert_eq, Nat.add_1_r.
  - by rewrite <- !app_assoc.
Qed.
End emplace.

(** ** [Vector]: capacity *)

Section reserve.
Context {T : Type} {ET : Element T}.
Implicit Types (st : state T) (xs : list T).



(** When a copy throws, the new block is released and the vector is
    what it was. *)
Lemma Reserve_throw st this p xs cap n :
  owns st this p xs cap → cap < n →
  Vector.use_move = false →
  Exists (λ x, copy_throws x = true) xs →
  ∃ tr, Vector.Reserve this n st = Throw (St (heap st) (objs st) tr).
Proof.
  intros Hown Hlt Hm Hex.
  destruct (owns_block _ _ _ _ _ Hown) as (a & -> & Ha).
  { destruct xs; [by apply Exists_nil in Hex|].
    destruct Hown as (_ & ? & _). cbn in *. lia. }
  destruct Hown as (Ho & Hle & _).
  set (b' := fresh (dom (heap st))).
  assert (heap st !! b' = None) as Hb' by apply fresh_block.
  assert (a ≠ b') by congruence.
  edestruct (transfer_throw
               (St (<[b' := replicate n None]> (heap st)) (objs st)
                   (trace st ++ [EvNew b' n]))
               a 0 [] xs (replicate (cap - length xs) None)
               b' 0 [] (replicate (n - length xs) None) (length xs))
    as [tr Htr]; vec_simpl; try done.
  { by rewrite lookup_insert_ne. }
  { rewrite lookup_insert_eq. cbn.
    by rewrite <- replicate_prefix by lia. }
  exists (tr ++ [EvDelete b']).
  apply wp_Throw_eq. unfold Vector.Reserve.
  wp_read. rewrite decide_False by lia.
  apply wp_bind, wp_RawMemory_ctor; [lia|]. fold b'. cbn zeta.
  apply wp_bind, wp_unwinding.
  unfold Vector.FillNewData. do 2 wp_read. rewrite Hm.
  eapply wp_run; [exact Htr|]. vec_simpl.
  apply (wp_RawMemory_dtor _ _ _ (replicate n None));
    [split; [done|]; vec_simpl; by rewrite lookup_insert_eq|].
  cbn [release release_events]. vec_simpl.
  by rewrite delete_insert_id.
Qed.
End reserve.

(** ** [Vector]: swap and move *)

Section moves.
Context {T : Type} {ET : Element T}.
Implicit Types (st : state T) (xs ys : list T).

Lemma Swap_objs st this other A B :
  objs st !! this = Some A → objs st !! other = Some B →
  Vector.Swap this other st
  = Ok () (St (heap st) (<[other := A]> (<[this := B]> (objs st))) (trace st)).
Proof.
  intros HA HB. apply wp_Ok_eq. unfold Vector.Swap.
  do 2 wp_read. unfold RawMemory.Swap.
  destruct (decide (this = other)) as [->|Hne].
  - simplify_eq. destruct A as [[pa ca] na].
    do 2 wp_write. do 2 wp_read. wp_write.
    eapply wp_set_size; [vec_simpl; by rewrite lookup_insert_eq|].
    vec_simpl. split; [done|]. f_equal. solve_map_eq.
  - destruct A as [[pa ca] na], B as [[pb cb] nb].
    wp_write. apply wp_bind.
    eapply wp_set_data; [vec_simpl; by rewrite lookup_insert_ne|].
    vec_simpl. apply wp_bind.
    eapply wp_get_size;
      [vec_simpl; rewrite lookup_insert_ne by done; by rewrite lookup_insert_eq|].
    wp_read. apply wp_bind.
    eapply wp_set_size;
      [vec_simpl; rewrite lookup_insert_ne by done; by rewrite lookup_insert_eq|].
    eapply wp_set_size;
      [vec_simpl; rewrite lookup_insert_ne by done; by rewrite lookup_insert_eq|].
    vec_simpl. split; [done|]. f_equal. solve_map_eq.
Qed.

Lemma owns_frame st st' this p xs cap :
  objs st' !! this = objs st !! this →
  (∀ b, p = Ptr b 0 → heap st' !! b = heap st !! b) →
  owns st this p xs cap → owns st' this p xs cap.
Proof.
  intros Ho Hh (? & ? & Hp). split; [by rewrite Ho|]. split; [done|].
  destruct p as [|b i]; [done|]. destruct Hp as [-> Hb].
  split; [done|]. by rewrite Hh.
Qed.

(** Move construction: the new vector takes the state of the source,
    the source the state of a default-constructed vector; no element
    is touched. *)
Lemma ctor_move_objs st other B :
  objs st !! other = Some B →
  let this := fresh (dom (objs st)) in
  Vector.ctor_move other st
  = Ok this (St (heap st)
                (<[other := Vec (RawMem Null 0) 0]> (<[this := B]> (objs st)))
                (trace st)).
Proof.
  intros HB this.
  assert (objs st !! this = None) as Hfresh by apply fresh_object.
  assert (this ≠ other) by congruence.
  apply wp_Ok_eq. unfold Vector.ctor_move.
  apply wp_bind, wp_new_vec. fold this. cbn zeta.
  apply wp_bind. eapply wp_run.
  { apply Swap_objs; vec_simpl;
      [by rewrite lookup_insert_eq|by rewrite lookup_insert_ne]. }
  apply wp_ret. vec_simpl. split; [done|]. f_equal. solve_map_eq.
Qed.

Lemma assign_move_objs st this rhs A B :
  this ≠ rhs →
  objs st !! this = Some A → objs st !! rhs = Some B →
  Vector.assign_move this rhs st
  = Ok () (St (heap st) (<[rhs := A]> (<[this := B]> (objs st))) (trace st)).
Proof.
  intros Hne HA HB. unfold Vector.assign_move.
  rewrite decide_True by done. by apply Swap_objs.
Qed.

Lemma assign_move_self st this :
  Vector.assign_move this this st = Ok () st.
Proof. unfold Vector.assign_move. by rewrite decide_False by (by intros []). Qed.
End moves.

(** ** [Vector]: copy construction, destruction, copy assignment *)

Section assign.
Context {T : Type} {ET : Element T}.
Implicit Types (st : state T) (xs ys : list T).

Lemma ctor_copy_nonempty st other a xs cap :
  objs st !! other = Some (Vec (RawMem (Ptr a 0) cap) (length xs)) →
  heap st !! a = Some (slots_of xs cap) →
  0 < length xs →
  Forall (λ x, copy_throws x = false) xs →
  let n := length xs in
  let b' := fresh (dom (heap st)) in
  let this := fresh (dom (objs st)) in
  Vector.ctor_copy other st
  = Ok this
       (St (<[b' := slots_of xs n]> (heap st))
           (<[this := Vec (RawMem (Ptr b' 0) n) n]> (objs st))
           (trace st ++ [EvNew b' n]
              ++ transfer_events EvCopyCtor (Ptr a 0) (Ptr b' 0) n)).
Proof.
  intros Ho Ha Hn Hok n b' this.
  assert (heap st !! b' = None) as Hb' by apply fresh_block.
  assert (a ≠ b') by congruence.
  apply wp_Ok_eq. unfold Vector.ctor_copy.
  wp_read. apply wp_bind, wp_RawMemory_ctor; [lia|]. fold b'. cbn zeta.
  apply wp_bind, wp_unwinding. vec_simpl. unfold uninitialized_copy_n.
  eapply wp_run.
  { eapply (uninitialized_copy_from_ok _ a 0 b' 0 0 (length xs) [] _ [] []);
      vec_simpl; try done.
    - by rewrite lookup_insert_ne.
    - rewrite lookup_insert_eq. cbn. by rewrite app_nil_r. }
  vec_simpl. apply wp_new_vec. vec_simpl. split; [done|]. f_equal.
  - rewrite insert_insert_eq. cbn. unfold n.
    by rewrite slots_of_full, app_nil_r.
  - by rewrite <- app_assoc.
Qed.

Lemma dtor_owned st this p xs cap :
  owns st this p xs cap →
  Vector.dtor this st
  = Ok () (St (release p (heap st)) (delete this (objs st))
              (trace st ++ destroy_events p (length xs) ++ release_events p)).
Proof.
  intros (Ho & Hle & Hp). apply wp_Ok_eq. unfold Vector.dtor.
  wp_read. destruct p as [|a i].
  - apply (f_equal length) in Hp. rewrite slots_of_length in Hp by done.
    cbn in Hp. subst cap. destruct xs; [|cbn in Hle; lia].
    cbn [length destroy_n]. apply wp_bind, wp_ret, wp_bind.
    eapply (wp_RawMemory_dtor _ Null 0 []); [done|].
    apply wp_drop_vec. cbn. by rewrite !app_nil_r.
  - destruct Hp as [-> Ha]. apply wp_bind.
    eapply wp_run; [by eapply (destroy_n_block _ _ _ _ [] xs)|].
    apply wp_bind.
    eapply wp_RawMemory_dtor;
      [split; [done|]; vec_simpl; by rewrite lookup_insert_eq|].
    apply wp_drop_vec. cbn. split; [done|]. f_equal.
    + by rewrite delete_insert_eq.
    + by rewrite <- !app_assoc.
Qed.

(** [std::copy] and [std::uninitialized_copy_n] out of the block of
    another vector, which may be the null buffer of an empty one *)
Lemma copy_prefix st p vs sa a ws sb :
  block_at (heap st) p ((Some <$> vs) ++ sa) →
  p ≠ Ptr a 0 →
  heap st !! a = Some ((Some <$> ws) ++ sb) →
  length ws = length vs →
  Forall (λ v, assign_throws v = false) vs →
  copy p (p +ₚ length vs) (Ptr a 0) st
  = Ok () (St (<[a := (Some <$> vs) ++ sb]> (heap st)) (objs st)
              (trace st ++ transfer_events EvCopyAssign p (Ptr a 0) (length vs))).
Proof.
  intros Hp Hne Ha Hlen Hok. unfold copy. destruct p as [|b i].
  - apply block_at_null, app_eq_nil in Hp as [Hvs ->].
    apply fmap_nil_inv in Hvs as ->. destruct ws; [|done].
    cbn. destruct st as [h o t]. cbn in *.
    by rewrite app_nil_r, insert_id.
  - destruct Hp as [-> Hb]. assert (b ≠ a) by congruence.
    cbn [ptr_add]. rewrite ptr_diff_block.
    by eapply (copy_n_ok _ _ _ _ _ _ [] _ []).
Qed.

Lemma ucopy_ok st p q i pa vs sa b j pb sb n :
  block_at (heap st) p (pa ++ (Some <$> vs) ++ sa) →
  p ≠ Ptr b 0 →
  heap st !! b = Some (pb ++ replicate n None ++ sb) →
  q = p +ₚ i → i = length pa → j = length pb → n = length vs →
  Forall (λ v, copy_throws v = false) vs →
  uninitialized_copy_n q n (Ptr b j) st
  = Ok () (St (<[b := pb ++ (Some <$> vs) ++ sb]> (heap st)) (objs st)
              (trace st ++ transfer_events EvCopyCtor q (Ptr b j) n)).
Proof.
  intros Hp Hne Hb -> -> -> -> Hok. destruct p as [|a i0].
  - apply block_at_null in Hp.
    apply app_eq_nil in Hp as [-> [Hvs ->]%app_eq_nil].
    apply fmap_nil_inv in Hvs as ->. cbn in *.
    destruct st as [h o t]. cbn in *. by rewrite app_nil_r, insert_id.
  - destruct Hp as [-> Ha]. assert (a ≠ b) by congruence.
    unfold uninitialized_copy_n. cbn [ptr_add Nat.add].
    erewrite uninitialized_copy_from_ok by (rewrite ?Nat.add_0_r; eauto).
    by rewrite !Nat.add_0_r.
Qed.

Lemma assign_copy_self st this : Vector.assign_copy this this st = Ok () st.
Proof. unfold Vector.assign_copy. by rewrite decide_False by (by intros []). Qed.

(** The source does not fit: a copy is built aside, swapped in, and
    what the vector held goes with the local. *)
Lemma assign_copy_realloc st this rhs pa xs ca b ys cb :
  this ≠ rhs →
  owns st this pa xs ca → owns st rhs (Ptr b 0) ys cb →
  ca < length ys →
  Forall (λ y, copy_throws y = false) ys →
  let n := length ys in
  let b' := fresh (dom (heap st)) in
  Vector.assign_copy this rhs st
  = Ok () (St (release pa (<[b' := slots_of ys n]> (heap st)))
              (<[this := Vec (RawMem (Ptr b' 0) n) n]> (objs st))
              (trace st ++ [EvNew b' n]
                 ++ transfer_events EvCopyCtor (Ptr b 0) (Ptr b' 0) n
                 ++ destroy_events pa (length xs) ++ release_events pa)).
Proof.
  intros Hne Hthis Hrhs Hlt Hok n b'.
  destruct (owns_inv _ _ _ _ _ Hthis) as (Ho & Hle & Hp & Hp0).
  destruct Hrhs as (Hor & Hler & _ & Hb).
  assert (pa ≠ Ptr b' 0) as Hfresh by by eapply block_at_fresh.
  set (buff := fresh (dom (objs st))).
  assert (objs st !! buff = None) as Hbuff by apply fresh_object.
  assert (buff ≠ this ∧ buff ≠ rhs) as [??] by (split; congruence).
  apply wp_Ok_eq. unfold Vector.assign_copy.
  rewrite decide_True by done. do 2 wp_read.
  rewrite decide_True by done. apply wp_bind.
  eapply wp_run; [by apply (ctor_copy_nonempty _ _ b ys cb); try lia|].
  fold n b' buff. cbn beta iota zeta. apply wp_bind.
  eapply wp_run.
  { apply Swap_objs; vec_simpl;
      [by rewrite lookup_insert_ne|by rewrite lookup_insert_eq]. }
  eapply wp_run.
  { apply (dtor_owned _ buff pa xs ca). split; [|split; [done|]]; vec_simpl.
    - by rewrite lookup_insert_eq.
    - by apply block_at_insert_ne. }
  vec_simpl. split; [done|]. f_equal.
  - solve_map_eq.
  - by rewrite <- !app_assoc.
Qed.

(** The source is shorter: its elements are assigned over the first
    ones and the rest is destroyed. *)
Lemma assign_copy_shrink st this rhs a xs1 xs2 ca pb ys cb :
  this ≠ rhs →
  owns st this (Ptr a 0) (xs1 ++ xs2) ca → owns st rhs pb ys cb →
  pb ≠ Ptr a 0 →
  length xs1 = length ys → 0 < length xs2 →
  Forall (λ y, assign_throws y = false) ys →
  Vector.assign_copy this rhs st
  = Ok () (St (<[a := slots_of ys ca]> (heap st))
              (<[this := Vec (RawMem (Ptr a 0) ca) (length ys)]> (objs st))
              (trace st
                 ++ transfer_events EvCopyAssign pb (Ptr a 0) (length ys)
                 ++ destroy_events (Ptr a (length ys)) (length xs2))).
Proof.
  intros Hne (Ho & Hle & _ & Ha) (Hor & Hler & Hp) Hdis Hlen Hpos Hok.
  unfold slots_of in Ha, Hp. rewrite fmap_app, <- app_assoc in Ha.
  rewrite length_app in Ho, Hle, Ha.
  apply wp_Ok_eq. unfold Vector.assign_copy.
  rewrite decide_True by done. do 2 wp_read.
  rewrite decide_False by lia. do 2 wp_read.
  rewrite decide_True by lia. apply wp_bind, wp_bind.
  eapply wp_run; [by eapply (copy_prefix _ pb ys _ a xs1)|].
  vec_simpl.
  replace (length xs1 + length xs2 - length ys) with (length xs2) by lia.
  eapply wp_run.
  { eapply (destroy_n_block _ a _ _ (Some <$> ys) xs2); vec_simpl.
    - apply lookup_insert_eq.
    - by rewrite length_fmap.
    - lia. }
  vec_simpl. eapply wp_set_size; [done|]. vec_simpl.
  split; [done|]. f_equal.
  - rewrite insert_insert_eq. f_equal. unfold slots_of. f_equal.
    rewrite <- replicate_add. f_equal. lia.
  - by rewrite <- !app_assoc.
Qed.

(** The source is not shorter and fits: its first elements are
    assigned over the existing ones and the others are
    copy-constructed in the free slots. *)
Lemma assign_copy_grow st this rhs pa xs ca pb ys1 ys2 cb :
  this ≠ rhs →
  owns st this pa xs ca → owns st rhs pb (ys1 ++ ys2) cb →
  (∀ a, pa = Ptr a 0 → pb ≠ Ptr a 0) →
  length ys1 = length xs → length (ys1 ++ ys2) ≤ ca →
  Forall (λ y, assign_throws y = false) ys1 →
  Forall (λ y, copy_throws y = false) ys2 →
  Vector.assign_copy this rhs st
  = Ok () (St (update_block pa (slots_of (ys1 ++ ys2) ca) (heap st))
              (<[this := Vec (RawMem pa ca) (length (ys1 ++ ys2))]> (objs st))
              (trace st
                 ++ transfer_events EvCopyAssign pb pa (length ys1)
                 ++ transfer_events EvCopyCtor (pb +ₚ length ys1)
                      (pa +ₚ length ys1) (length ys2))).
Proof.
  intros Hne Hthis Hrhs Hdis Hlen Hfit Hok1 Hok2.
  assert (ptr_diff (pb +ₚ length xs) pb = Some (length xs)) as Hdiff.
  { eapply ptr_diff_owned; [done|]. rewrite length_app. lia. }
  destruct Hrhs as (Hor & Hler & Hp).
  unfold slots_of in Hp. rewrite fmap_app, <- app_assoc in Hp.
  rewrite length_app in Hor, Hler, Hp, Hfit.
  apply wp_Ok_eq. unfold Vector.assign_copy.
  destruct pa as [|a i].
  - apply owns_null in Hthis as Hnull. destruct Hnull as [-> ->].
    destruct ys1; [|done]. destruct ys2; [|cbn in Hfit; lia].
    destruct Hthis as (Ho & _).
    rewrite decide_True by done. do 2 wp_read.
    rewrite decide_False by (cbn; lia). do 2 wp_read.
    rewrite decide_False by (cbn; lia). apply wp_bind, wp_bind.
    unfold copy. cbn [length] in *. rewrite Hdiff. cbn [copy_n].
    apply wp_ret. unfold uninitialized_copy_n. cbn.
    eapply wp_set_size; [done|]. cbn.
    by rewrite app_nil_r.
  - destruct (owns_inv _ _ _ _ _ Hthis) as (Ho & Hle & [-> Ha] & _).
    specialize (Hdis a eq_refl). unfold slots_of in Ha.
    rewrite decide_True by done. do 2 wp_read.
    rewrite decide_False by lia. do 2 wp_read.
    rewrite decide_False by lia. apply wp_bind, wp_bind.
    rewrite <- Hlen.
    eapply wp_run; [by eapply (copy_prefix _ pb ys1 _ a xs)|].
    vec_simpl.
    replace (length ys1 + length ys2 - length ys1) with (length ys2) by lia.
    eapply wp_run.
    { eapply (ucopy_ok _ pb _ (length ys1) (Some <$> ys1) ys2 _
                a (length ys1) (Some <$> ys1) (replicate (ca - (length ys1 + length ys2)) None));
        vec_simpl; try done.
      - by apply block_at_insert_ne.
      - rewrite lookup_insert_eq. do 2 f_equal.
        rewrite <- replicate_add. f_equal. lia.
      - by rewrite length_fmap.
      - by rewrite length_fmap. }
    vec_simpl. eapply wp_set_size; [done|]. vec_simpl.
    split; [done|]. f_equal.
    + rewrite insert_insert_eq. f_equal. unfold slots_of.
      by rewrite fmap_app, length_app, <- app_assoc.
    + by rewrite length_app.
    + by rewrite <- !app_assoc.
Qed.
End assign.

(** ** Computations on the heap alone *)

Create HintDb heap_only.

Section heap_only.
Context {T : Type} {ET : Element T}.

Lemma heap_only_ret {R} (r : R) : heap_only (T:=T) (mret r).
Proof. by intros st. Qed.

Lemma heap_only_bind {A B} (m : M T A) (f : A → M T B) :
  heap_only m → (∀ a, heap_only (f a)) → heap_only (m ≫= f).
Proof.
  intros Hm Hf st. unfold mbind, M_bind. specialize (Hm st).
  destruct (m st) as [a s|s|]; [|done..].
  specialize (Hf a s). destruct (f a s); congruence.
Qed.

Lemma heap_only_throw {R} : heap_only (T:=T) (R:=R) throw.
Proof. by intros st. Qed.

Lemma heap_only_fault {R} : heap_only (T:=T) (R:=R) fault.
Proof. by intros st. Qed.

Lemma heap_only_catch {R} (body handler : M T R) :
  heap_only body → heap_only handler → heap_only (catch body handler).
Proof.
  intros Hb Hh st. unfold catch. specialize (Hb st).
  destruct (body st) as [a s|s|]; [done| |done].
  specialize (Hh s). destruct (handler s); congruence.
Qed.

Lemma heap_only_assert c : heap_only (T:=T) (assert c).
Proof. by destruct c. Qed.

Lemma heap_only_emit e : heap_only (T:=T) (emit e).
Proof. by intros st. Qed.

Lemma heap_only_load p : heap_only (T:=T) (load p).
Proof. intros st. unfold load. by destruct (slot st p) as [[v|]|]. Qed.

Lemma heap_only_expect_raw p : heap_only (T:=T) (expect_raw p).
Proof. intros st. unfold expect_raw. by destruct (slot st p) as [[v|]|]. Qed.

Lemma heap_only_store p o : heap_only (T:=T) (store p o).
Proof.
  intros st. unfold store. destruct p as [|b i]; [done|].
  by destruct (heap st !! b).
Qed.

Lemma heap_only_operator_new n : heap_only (T:=T) (operator_new n).
Proof. by intros st. Qed.

Lemma heap_only_operator_delete p : heap_only (T:=T) (operator_delete p).
Proof.
  intros st. unfold operator_delete. destruct p as [|b [|i]]; [done| |done].
  by destruct (heap st !! b).
Qed.
End heap_only.

Global Hint Resolve heap_only_ret heap_only_bind heap_only_throw
  heap_only_fault heap_only_catch heap_only_assert heap_only_emit
  heap_only_load heap_only_expect_raw heap_only_store
  heap_only_operator_new heap_only_operator_delete : heap_only.

Ltac heap_only_unfold :=
  unfold expect_live, construct_at, value_construct_at, copy_construct_at,
    move_construct_at, copy_assign, move_assign, construct_tmp,
    move_assign_tmp, destroy_tmp, destroy_at, unwinding,
    RawMemory.ctor, RawMemory.dtor, RawMemory.Allocate,
    RawMemory.Deallocate, RawMemory.index, RawMemory.add, ptr_add_int.

Ltac heap_only_solve :=
  heap_only_unfold;
  repeat first
    [ progress eauto with heap_only
    | apply heap_only_bind; [|intros ?]
    | apply heap_only_catch
    | case_match ].

Section heap_only_algorithms.
Context {T : Type} {ET : Element T}.

Lemma heap_only_construct_at p c : heap_only (T:=T) (construct_at p c).
Proof. heap_only_solve. Qed.
Lemma heap_only_value_construct_at p : heap_only (T:=T) (value_construct_at p).
Proof. heap_only_solve. Qed.
Lemma heap_only_copy_construct_at p q : heap_only (T:=T) (copy_construct_at p q).
Proof. heap_only_solve. Qed.
Lemma heap_only_move_construct_at p q : heap_only (T:=T) (move_construct_at p q).
Proof. heap_only_solve. Qed.
Lemma heap_only_copy_assign p q : heap_only (T:=T) (copy_assign p q).
Proof. heap_only_solve. Qed.
Lemma heap_only_move_assign p q : heap_only (T:=T) (move_assign p q).
Proof. heap_only_solve. Qed.
Lemma heap_only_construct_tmp c : heap_only (T:=T) (construct_tmp c).
Proof. heap_only_solve. Qed.
Lemma heap_only_move_assign_tmp p v : heap_only (T:=T) (move_assign_tmp p v).
Proof. heap_only_solve. Qed.
Lemma heap_only_destroy_tmp v : heap_only (T:=T) (destroy_tmp v).
Proof. heap_only_solve. Qed.
Lemma heap_only_destroy_at p : heap_only (T:=T) (destroy_at p).
Proof. heap_only_solve. Qed.
Lemma heap_only_RawMemory_ctor n : heap_only (T:=T) (RawMemory.ctor n).
Proof. heap_only_solve. Qed.
Lemma heap_only_RawMemory_dtor d : heap_only (T:=T) (RawMemory.dtor d).
Proof. heap_only_solve. Qed.
Lemma heap_only_RawMemory_index d i : heap_only (T:=T) (RawMemory.index d i).
Proof. heap_only_solve. Qed.

Local Hint Resolve heap_only_construct_at heap_only_value_construct_at
  heap_only_copy_construct_at heap_only_move_construct_at
  heap_only_copy_assign heap_only_move_assign heap_only_destroy_at
  : heap_only.

Lemma heap_only_destroy_n p n : heap_only (T:=T) (destroy_n p n).
Proof. revert p. induction n; intros p; cbn; heap_only_solve. Qed.

Local Hint Resolve heap_only_destroy_n : heap_only.

Lemma heap_only_uninitialized_value_construct_n p n :
  heap_only (T:=T) (uninitialized_value_construct_n p n).
Proof.
  unfold uninitialized_value_construct_n. generalize 0.
  induction n; intros d; cbn; heap_only_solve.
Qed.

Lemma heap_only_uninitialized_copy_n p n q :
  heap_only (T:=T) (uninitialized_copy_n p n q).
Proof.
  unfold uninitialized_copy_n. generalize 0.
  induction n; intros d; cbn; heap_only_solve.
Qed.

Lemma heap_only_uninitialized_move_n p n q :
  heap_only (T:=T) (uninitialized_move_n p n q).
Proof. revert p q. induction n; intros p q; cbn; heap_only_solve. Qed.

Lemma heap_only_copy p q r : heap_only (T:=T) (copy p q r).
Proof.
  unfold copy. destruct (ptr_diff q p) as [n|]; [|heap_only_solve].
  revert p r. induction n; intros p r; cbn; heap_only_solve.
Qed.

Lemma heap_only_move p q r : heap_only (T:=T) (move p q r).
Proof.
  unfold move. destruct (ptr_diff q p) as [n|]; [|heap_only_solve].
  revert p r. induction n; intros p r; cbn; heap_only_solve.
Qed.

Lemma heap_only_move_backward p q r : heap_only (T:=T) (move_backward p q r).
Proof.
  unfold move_backward. destruct (ptr_diff q p) as [n|]; [|heap_only_solve].
  revert q r. induction n; intros q r; cbn; heap_only_solve.
Qed.
End heap_only_algorithms.

Global Hint Resolve heap_only_construct_at heap_only_value_construct_at
  heap_only_copy_construct_at heap_only_move_construct_at
  heap_only_copy_assign heap_only_move_assign heap_only_construct_tmp
  heap_only_move_assign_tmp heap_only_destroy_tmp heap_only_destroy_at
  heap_only_RawMemory_ctor heap_only_RawMemory_dtor heap_only_RawMemory_index
  heap_only_destroy_n heap_only_uninitialized_value_construct_n
  heap_only_uninitialized_copy_n heap_only_uninitialized_move_n
  heap_only_copy heap_only_move heap_only_move_backward : heap_only.

(** ** Computations that do not throw *)

Create HintDb nothrow.

Section nothrow.
Context {T : Type} {ET : Element T}.

Lemma nothrow_ret {R} (r : R) : nothrow (T:=T) (mret r).
Proof. by intros st. Qed.

Lemma nothrow_bind {A B} (m : M T A) (f : A → M T B) :
  nothrow m → (∀ a, nothrow (f a)) → nothrow (m ≫= f).
Proof.
  intros Hm Hf st. unfold mbind, M_bind. specialize (Hm st).
  destruct (m st) as [a s|s|]; [|done..]. apply Hf.
Qed.

Lemma nothrow_fault {R} : nothrow (T:=T) (R:=R) fault.
Proof. by intros st. Qed.

Lemma nothrow_assert c : nothrow (T:=T) (assert c).
Proof. by destruct c. Qed.

Lemma nothrow_emit e : nothrow (T:=T) (emit e).
Proof. by intros st. Qed.

Lemma nothrow_load p : nothrow (T:=T) (load p).
Proof. intros st. unfold load. by destruct (slot st p) as [[v|]|]. Qed.

Lemma nothrow_expect_raw p : nothrow (T:=T) (expect_raw p).
Proof. intros st. unfold expect_raw. by destruct (slot st p) as [[v|]|]. Qed.

Lemma nothrow_store p o : nothrow (T:=T) (store p o).
Proof.
  intros st. unfold store. destruct p as [|b i]; [done|].
  by destruct (heap st !! b).
Qed.

Lemma nothrow_operator_new n : nothrow (T:=T) (operator_new n).
Proof. by intros st. Qed.

Lemma nothrow_operator_delete p : nothrow (T:=T) (operator_delete p).
Proof.
  intros st. unfold operator_delete. destruct p as [|b [|i]]; [done| |done].
  by destruct (heap st !! b).
Qed.

Lemma nothrow_get_vec this : nothrow (T:=T) (get_vec this).
Proof. intros st. unfold get_vec. by destruct (objs st !! this). Qed.
End nothrow.

Global Hint Resolve nothrow_ret nothrow_bind nothrow_fault nothrow_assert
  nothrow_emit nothrow_load nothrow_expect_raw nothrow_store
  nothrow_operator_new nothrow_operator_delete nothrow_get_vec : nothrow.

Ltac nothrow_solve :=
  heap_only_unfold;
  repeat first
    [ progress eauto with nothrow
    | apply nothrow_bind; [|intros ?]
    | case_match ].

Section nothrow_algorithms.
Context {T : Type} {ET : Element T}.

Lemma nothrow_move_construct_at p q : nothrow (T:=T) (move_construct_at p q).
Proof. nothrow_solve. Qed.
Lemma nothrow_move_assign p q : nothrow (T:=T) (move_assign p q).
Proof. nothrow_solve. Qed.
Lemma nothrow_move_assign_tmp p v : nothrow (T:=T) (move_assign_tmp p v).
Proof. nothrow_solve. Qed.
Lemma nothrow_destroy_tmp v : nothrow (T:=T) (destroy_tmp v).
Proof. nothrow_solve. Qed.
Lemma nothrow_destroy_at p : nothrow (T:=T) (destroy_at p).
Proof. nothrow_solve. Qed.
Lemma nothrow_RawMemory_ctor n : nothrow (T:=T) (RawMemory.ctor n).
Proof. nothrow_solve. Qed.
Lemma nothrow_RawMemory_dtor d : nothrow (T:=T) (RawMemory.dtor d).
Proof. nothrow_solve. Qed.
Lemma nothrow_RawMemory_index d i : nothrow (T:=T) (RawMemory.index d i).
Proof. nothrow_solve. Qed.

Local Hint Resolve nothrow_move_construct_at nothrow_move_assign
  nothrow_destroy_at : nothrow.

Lemma nothrow_destroy_n p n : nothrow (T:=T) (destroy_n p n).
Proof. revert p. induction n; intros p; cbn; nothrow_solve. Qed.

Lemma nothrow_uninitialized_move_n p n q :
  nothrow (T:=T) (uninitialized_move_n p n q).
Proof. revert p q. induction n; intros p q; cbn; nothrow_solve. Qed.

Lemma nothrow_move p q r : nothrow (T:=T) (move p q r).
Proof.
  unfold move. destruct (ptr_diff q p) as [n|]; [|nothrow_solve].
  revert p r. induction n; intros p r; cbn; nothrow_solve.
Qed.

Lemma nothrow_move_backward p q r : nothrow (T:=T) (move_backward p q r).
Proof.
  unfold move_backward. destruct (ptr_diff q p) as [n|]; [|nothrow_solve].
  revert q r. induction n; intros q r; cbn; nothrow_solve.
Qed.
End nothrow_algorithms.

Global Hint Resolve nothrow_move_construct_at nothrow_move_assign
  nothrow_move_assign_tmp nothrow_destroy_tmp nothrow_destroy_at
  nothrow_RawMemory_ctor nothrow_RawMemory_dtor nothrow_RawMemory_index
  nothrow_destroy_n nothrow_uninitialized_move_n nothrow_move
  nothrow_move_backward : nothrow.

(** ** The fields of the objects across an operation *)

Section store_rules.
Context {T : Type} {ET : Element T}.
Implicit Types (st : state T).

Lemma heap_only_get_vec this : heap_only (T:=T) (get_vec this).
Proof. intros st. unfold get_vec. by destruct (objs st !! this). Qed.

(** a step that keeps the store, whatever it does to the heap *)
Lemma wp_keep {R} (m : M T R) Q E st :
  heap_only m →
  (∀ r st', objs st' = objs st → Q r st') →
  (∀ st', objs st' = objs st → E st') →
  wp True m Q E st.
Proof.
  intros Hm HQ HE. unfold wp. specialize (Hm st).
  destruct (m st); auto.
Qed.

(** the same for a step that cannot throw *)
Lemma wp_keep_nothrow {R} (m : M T R) Q E st :
  heap_only m → nothrow m →
  (∀ r st', objs st' = objs st → Q r st') →
  wp True m Q E st.
Proof.
  intros Hm Hn HQ. unfold wp. specialize (Hm st). specialize (Hn st).
  destruct (m st); auto. done.
Qed.

Lemma wp_any_get_vec this Q E st :
  (∀ V, objs st !! this = Some V → Q V st) →
  wp True (get_vec this) Q E st.
Proof.
  intros HQ. unfold wp, get_vec. destruct (objs st !! this); auto.
Qed.

Lemma wp_any_get_data this Q E st :
  (∀ V, objs st !! this = Some V → Q (data_ V) st) →
  wp True (get_data this) Q E st.
Proof. intros HQ. apply wp_bind, wp_any_get_vec. intros V HV. by apply HQ. Qed.

Lemma wp_any_get_size this Q E st :
  (∀ V, objs st !! this = Some V → Q (size_ V) st) →
  wp True (get_size this) Q E st.
Proof. intros HQ. apply wp_bind, wp_any_get_vec. intros V HV. by apply HQ. Qed.

Lemma wp_any_set_data this d Q E st :
  (∀ V, objs st !! this = Some V →
     Q () (St (heap st) (<[this := Vec d (size_ V)]> (objs st)) (trace st))) →
  wp True (set_data this d) Q E st.
Proof. intros HQ. apply wp_bind, wp_any_get_vec. intros V HV. by apply HQ. Qed.

Lemma wp_any_set_size this n Q E st :
  (∀ V, objs st !! this = Some V →
     Q () (St (heap st) (<[this := Vec (data_ V) n]> (objs st)) (trace st))) →
  wp True (set_size this n) Q E st.
Proof. intros HQ. apply wp_bind, wp_any_get_vec. intros V HV. by apply HQ. Qed.

Lemma wp_any_RawMemory_ctor n Q E st :
  (∀ buf st', objs st' = objs st → Q (RawMem buf n) st') →
  wp True (RawMemory.ctor n) Q E st.
Proof.
  intros HQ. unfold RawMemory.ctor, RawMemory.Allocate. apply wp_bind.
  case_decide.
  - apply wp_operator_new. cbn zeta. apply wp_ret. by apply HQ.
  - apply wp_ret, wp_ret. by apply HQ.
Qed.
End store_rules.

Global Hint Resolve heap_only_get_vec : heap_only.

Ltac rewrite_objs H :=
  cbn [heap objs trace] in H;
  repeat match goal with
         | Ho : objs _ = _ |- _ =>
             tryif constr_eq Ho H then fail
             else (rewrite Ho in H; cbn [heap objs trace] in H)
         end;
  rewrite ?lookup_insert_eq in H.
Ltac any_read V HV :=
  apply wp_bind;
  first [ apply wp_any_get_size | apply wp_any_get_data | apply wp_any_get_vec ];
  intros V HV; rewrite_objs HV; simplify_eq.
Ltac any_write V HV :=
  first [ apply wp_any_set_size | apply wp_any_set_data ];
  intros V HV; rewrite_objs HV; simplify_eq.
Ltac store_unfold :=
  unfold get_data, get_size, Vector.FillNewData, Vector.begin, Vector.end_,
    Vector.Size, Vector.Capacity.
Ltac keep st' Ho :=
  apply wp_keep;
  [ store_unfold; heap_only_solve
  | intros ? st' Ho; rewrite_objs Ho | intros st' Ho; rewrite_objs Ho ].
Ltac keepq st' Ho :=
  apply wp_keep_nothrow;
  [ store_unfold; heap_only_solve | store_unfold; nothrow_solve
  | intros ? st' Ho; rewrite_objs Ho ].

Section store_specs.
Context {T : Type} {ET : Element T}.
Implicit Types (st : state T).

(** [Reserve] leaves the store alone or gives the object a buffer of
    the capacity asked for, which is larger. *)
Lemma Reserve_store this n st :
  wp True (Vector.Reserve this n)
    (λ _ st', ∃ V, objs st !! this = Some V ∧
       ((n ≤ capacity_ (data_ V) ∧ objs st' = objs st) ∨
        (capacity_ (data_ V) < n ∧
         ∃ buf, objs st' = <[this := Vec (RawMem buf n) (size_ V)]> (objs st))))
    (λ st', objs st' = objs st)
    st.
Proof.
  unfold Vector.Reserve. any_read V HV.
  case_decide; [apply wp_ret; exists V; split; [done|by left]|].
  apply wp_bind, wp_any_RawMemory_ctor. intros buf st1 Ho1.
  apply wp_bind, wp_unwinding.
  keep st2 Ho2; [|by keep st3 Ho3].
  apply wp_bind. keepq st3 Ho3.
  apply wp_bind. keepq st4 Ho4.
  apply wp_bind. unfold Vector.swap_data. any_read V' HV'.
  unfold RawMemory.Swap. apply wp_bind. any_write V'' HV''. apply wp_ret.
  keepq st5 Ho5.
  exists V. split; [done|]. right.
  unfold RawMemory.Capacity in *. split; [lia|]. by exists buf.
Qed.

Lemma evolved_refl st st' this V :
  objs st !! this = Some V → size_le_capacity V →
  objs st' = objs st → evolved st this V st'.
Proof.
  intros HV Hle Ho. exists V. rewrite Ho, insert_id by done. by split.
Qed.

Lemma EmplaceBack_store this ctor st V :
  objs st !! this = Some V → size_le_capacity V →
  wp True (Vector.EmplaceBack this ctor)
    (λ _, evolved st this V) (evolved st this V) st.
Proof.
  intros HV Hle. unfold Vector.EmplaceBack, size_le_capacity in *.
  assert (∀ s, objs s = objs st → evolved st this V s) as Hrefl
    by (intros; by eapply evolved_refl).
  any_read V1 HV1. any_read V2 HV2.
  unfold RawMemory.Capacity. apply wp_bind. case_decide as Hlt.
  - keep st1 Ho1; [|by apply Hrefl].
    any_read V1 HV1. any_read V2 HV2.
    apply wp_bind. any_write V1 HV1.
    keepq st2 Ho2. eexists. split; [done|].
    unfold size_le_capacity. cbn. lia.
  - apply wp_bind, wp_any_RawMemory_ctor. intros buf st1 Ho1.
    apply wp_bind, wp_unwinding.
    keep st2 Ho2; [|keep st3 Ho3; by apply Hrefl].
    apply wp_bind. keepq st3 Ho3.
    apply wp_bind. unfold Vector.swap_data. any_read V1 HV1.
    unfold RawMemory.Swap. apply wp_bind. any_write V2 HV2. apply wp_ret.
    keepq st4 Ho4.
    any_read V1 HV1. any_read V2 HV2.
    apply wp_bind. any_write V1 HV1.
    keepq st5 Ho5. cbn [objs data_ size_ capacity_] in *.
    eexists. split; [by rewrite Ho5, insert_insert_eq|].
    unfold size_le_capacity. cbn. case_decide; lia.
Qed.

Lemma Emplace_store this pos ctor st V :
  objs st !! this = Some V → size_le_capacity V →
  wp True (Vector.Emplace this pos ctor)
    (λ _, evolved st this V) (evolved st this V) st.
Proof.
  intros HV Hle. unfold Vector.Emplace, size_le_capacity in *.
  assert (∀ s, objs s = objs st → evolved st this V s) as Hrefl
    by (intros; by eapply evolved_refl).
  apply wp_bind. keepq st0 Ho0.
  destruct (ptr_diff pos _) as [offset|]; [|done].
  any_read V1 HV1. any_read V2 HV2.
  unfold RawMemory.Capacity. apply wp_bind. case_decide as Hlt.
  - keep st1 Ho1; [|by apply Hrefl].
    any_read V1 HV1. apply wp_bind. any_write V2 HV2.
    keepq st2 Ho2. eexists. split; [done|].
    unfold size_le_capacity. cbn. lia.
  - apply wp_bind, wp_any_RawMemory_ctor. intros buf st1 Ho1.
    apply wp_bind, wp_unwinding.
    keep st2 Ho2; [|keep st3 Ho3; by apply Hrefl].
    apply wp_bind. keepq st3 Ho3.
    apply wp_bind. keepq st4 Ho4.
    apply wp_bind. unfold Vector.swap_data. any_read V1 HV1.
    unfold RawMemory.Swap. apply wp_bind. any_write V2 HV2. apply wp_ret.
    keepq st5 Ho5.
    any_read V1 HV1. apply wp_bind. any_write V2 HV2.
    keepq st6 Ho6. cbn [objs data_ size_ capacity_] in *.
    eexists. split; [by rewrite Ho6, insert_insert_eq|].
    unfold size_le_capacity. cbn. case_decide; lia.
Qed.

(** On a full block [Emplace] ends, if it returns, with the grown
    capacity, whatever the position and the arguments. *)
Lemma Emplace_full_capacity this pos ctor st V :
  objs st !! this = Some V → size_ V = capacity_ (data_ V) →
  wp True (Vector.Emplace this pos ctor)
    (λ _ st', ∃ V', objs st' !! this = Some V' ∧
                    capacity_ (data_ V') = grown (size_ V))
    (λ _, True) st.
Proof.
  intros HV Hfull. unfold Vector.Emplace.
  apply wp_bind. keepq st0 Ho0.
  destruct (ptr_diff pos _) as [offset|]; [|done]. cbn zeta.
  any_read V1 HV1. any_read V2 HV2.
  unfold RawMemory.Capacity. apply wp_bind. case_decide as Hlt; [lia|].
  apply wp_bind, wp_any_RawMemory_ctor. intros buf st1 Ho1.
  apply wp_bind, wp_unwinding.
  keep st2 Ho2; [|keep st3 Ho3; done].
  apply wp_bind. keepq st3 Ho3.
  apply wp_bind. keepq st4 Ho4.
  apply wp_bind. unfold Vector.swap_data. any_read V1 HV1.
  unfold RawMemory.Swap. apply wp_bind. any_write V2 HV2. apply wp_ret.
  keepq st5 Ho5.
  any_read V1 HV1. apply wp_bind. any_write V2 HV2.
  keepq st6 Ho6. cbn [objs data_ size_ capacity_] in *.
  eexists. split; [by rewrite Ho6, lookup_insert_eq|].
  cbn. unfold grown. done.
Qed.

Lemma Erase_store this pos st V :
  objs st !! this = Some V → size_le_capacity V → 0 < size_ V →
  wp True (Vector.Erase this pos)
    (λ _, evolved st this V) (evolved st this V) st.
Proof.
  intros HV Hle Hpos. unfold Vector.Erase, size_le_capacity in *.
  apply wp_bind. keepq st0 Ho0.
  destruct (ptr_diff pos _) as [offset|]; [|done]. cbn zeta.
  apply wp_bind. keepq st1 Ho1.
  apply wp_bind. keepq st2 Ho2.
  apply wp_bind. keepq st3 Ho3.
  apply wp_bind. keepq st4 Ho4.
  apply wp_bind. keepq st5 Ho5.
  apply wp_bind. keepq st6 Ho6.
  apply wp_bind. keepq st7 Ho7.
  any_read V1 HV1. apply wp_bind. any_write V2 HV2.
  keepq st8 Ho8. eexists. split; [done|].
  unfold size_le_capacity. cbn. lia.
Qed.

Lemma PopBack_store this st V :
  objs st !! this = Some V → size_le_capacity V →
  wp True (Vector.PopBack this)
    (λ _, evolved st this V) (evolved st this V) st.
Proof.
  intros HV Hle. unfold Vector.PopBack, size_le_capacity in *.
  any_read V1 HV1. case_decide.
  - any_read V2 HV2. apply wp_bind. keepq st1 Ho1.
    any_write V1 HV1. eexists. split; [cbn [objs]; by rewrite Ho1|].
    unfold size_le_capacity. cbn. lia.
  - apply wp_ret. by eapply evolved_refl.
Qed.

Lemma Resize_store this n st V :
  objs st !! this = Some V → size_le_capacity V →
  wp True (Vector.Resize this n)
    (λ _, evolved st this V) (evolved st this V) st.
Proof.
  intros HV Hle. unfold Vector.Resize, size_le_capacity in *.
  assert (∀ s, objs s = objs st → evolved st this V s) as Hrefl
    by (intros; by eapply evolved_refl).
  any_read V1 HV1. case_decide; [apply wp_ret; by apply Hrefl|].
  apply wp_bind. case_decide.
  - any_read V2 HV2. keepq st1 Ho1.
    any_write V1 HV1. eexists. split; [cbn [objs]; by rewrite Ho1|].
    unfold size_le_capacity. cbn. lia.
  - apply wp_bind.
    eapply wp_mono; [apply Reserve_store|..]; cbn beta.
    + intros [] st1 (V1 & HV1 & [[Hcap Ho1]|[Hlt [buf Ho1]]]); simplify_eq.
      * any_read V2 HV2. any_read V3 HV3.
        keep st2 Ho2; [|by apply Hrefl].
        any_write V2 HV2. eexists. split; [cbn [objs]; by rewrite Ho2|].
        unfold size_le_capacity. cbn. lia.
      * any_read V2 HV2. any_read V3 HV3.
        keep st2 Ho2.
        -- any_write V2 HV2. eexists.
           split; [cbn [objs]; by rewrite Ho2, insert_insert_eq|].
           unfold size_le_capacity. cbn. lia.
        -- eexists. split; [done|]. unfold size_le_capacity. cbn. lia.
    + intros st1 Ho1. by apply Hrefl.
Qed.

Lemma Swap_store this other st :
  wp True (Vector.Swap this other)
    (λ _ st', ∃ A B, objs st !! this = Some A ∧ objs st !! other = Some B ∧
                     objs st' = <[other := A]> (<[this := B]> (objs st)))
    (λ _, False) st.
Proof.
  destruct (objs st !! this) as [A|] eqn:HA;
    [|unfold Vector.Swap; by any_read V1 HV1].
  destruct (objs st !! other) as [B|] eqn:HB;
    [|unfold Vector.Swap; any_read V1 HV1; by any_read V2 HV2].
  eapply wp_run; [by apply Swap_objs|]. by exists A, B.
Qed.

Lemma assign_copy_store this rhs st V :
  objs st !! this = Some V → size_le_capacity V →
  wp True (Vector.assign_copy this rhs)
    (λ _, evolved st this V) (evolved st this V) st.
Proof.
  intros HV Hle. unfold Vector.assign_copy, size_le_capacity in *.
  assert (∀ s, objs s = objs st → evolved st this V s) as Hrefl
    by (intros; by eapply evolved_refl).
  case_decide as Hne; [|apply wp_ret; by apply Hrefl].
  unfold Vector.Size. any_read R HR. any_read V1 HV1.
  unfold RawMemory.Capacity. case_decide as Hlt.
  - apply wp_bind. unfold Vector.ctor_copy.
    any_read R1 HR1. apply wp_bind, wp_any_RawMemory_ctor.
    intros buf st1 Ho1. apply wp_bind, wp_unwinding.
    keep st2 Ho2; [|keep st3 Ho3; by apply Hrefl].
    apply wp_new_vec. cbn zeta.
    set (buff := fresh (dom (objs st2))).
    assert (objs st !! buff = None) as Hbuff.
    { rewrite <- Ho2. apply fresh_object. }
    assert (buff ≠ this) by congruence.
    apply wp_bind. eapply wp_run.
    { apply Swap_objs; cbn [objs]; rewrite Ho2;
        [by rewrite lookup_insert_ne|by rewrite lookup_insert_eq]. }
    cbn [heap objs trace]. unfold Vector.dtor.
    any_read V2 HV2. apply wp_bind. keepq st3 Ho3.
    apply wp_bind. keepq st4 Ho4. apply wp_drop_vec. cbn [objs].
    exists (Vec (RawMem buf (size_ R)) (size_ R)). split.
    + cbn [objs]. rewrite Ho4. solve_map_eq.
    + unfold size_le_capacity. cbn. lia.
  - any_read R1 HR1. any_read V2 HV2. apply wp_bind.
    keep st1 Ho1; [|by apply Hrefl].
    any_write V2 HV2. eexists. split; [cbn [objs]; by rewrite Ho1|].
    unfold size_le_capacity. cbn. lia.
Qed.

Lemma store_inv_evolved st st' this V :
  store_inv st → evolved st this V st' → store_inv st'.
Proof.
  intros Hinv (V' & Ho & Hle & _) v W. rewrite Ho, lookup_insert.
  case_decide; [by intros [= <-]|]. apply Hinv.
Qed.

Lemma store_inv_eq st st' : store_inv st → objs st' = objs st → store_inv st'.
Proof. intros Hinv Ho v W. rewrite Ho. apply Hinv. Qed.

Lemma ctor_size_store n st :
  store_inv st →
  wp True (Vector.ctor_size n)
    (λ this st', store_inv st' ∧ is_Some (objs st' !! this))
    (λ st', store_inv st') st.
Proof.
  intros Hinv. unfold Vector.ctor_size.
  pose proof (store_inv_eq st) as Heq.
  apply wp_bind, wp_any_RawMemory_ctor. intros buf st1 Ho1.
  apply wp_bind, wp_unwinding.
  keep st2 Ho2; [|keep st3 Ho3; by apply Heq].
  apply wp_new_vec. cbn zeta. split.
  - intros v W. cbn [objs]. rewrite lookup_insert.
    case_decide; [intros [= <-]; by unfold size_le_capacity|].
    rewrite Ho2. apply Hinv.
  - cbn [objs]. by rewrite lookup_insert_eq.
Qed.

Lemma ctor_copy_store other st :
  store_inv st →
  wp True (Vector.ctor_copy other)
    (λ this st', store_inv st' ∧ is_Some (objs st' !! this))
    (λ st', store_inv st') st.
Proof.
  intros Hinv. unfold Vector.ctor_copy.
  pose proof (store_inv_eq st) as Heq.
  any_read R HR.
  apply wp_bind, wp_any_RawMemory_ctor. intros buf st1 Ho1.
  apply wp_bind, wp_unwinding.
  keep st2 Ho2; [|keep st3 Ho3; by apply Heq].
  apply wp_new_vec. cbn zeta. split.
  - intros v W. cbn [objs]. rewrite lookup_insert.
    case_decide; [intros [= <-]; by unfold size_le_capacity|].
    rewrite Ho2. apply Hinv.
  - cbn [objs]. by rewrite lookup_insert_eq.
Qed.

Lemma ctor_move_store other st :
  store_inv st →
  wp True (Vector.ctor_move other)
    (λ this st', store_inv st' ∧ is_Some (objs st' !! this))
    (λ st', store_inv st') st.
Proof.
  intros Hinv.
  destruct (objs st !! other) as [B|] eqn:HB.
  - eapply wp_run; [by apply ctor_move_objs|]. split.
    + intros v W. cbn [objs]. rewrite !lookup_insert.
      repeat case_decide; try (intros [= <-]); try by unfold size_le_capacity.
      * by eapply Hinv.
      * apply Hinv.
    + cbn [objs]. rewrite lookup_insert. case_decide; [done|].
      by rewrite lookup_insert_eq.
  - unfold Vector.ctor_move. apply wp_bind, wp_new_vec. cbn zeta.
    apply wp_bind.
    destruct (decide (fresh (dom (objs st)) = other)) as [<-|Hne].
    + eapply wp_run;
        [apply Swap_objs; cbn [objs]; by rewrite lookup_insert_eq|].
      apply wp_ret. split.
      * intros v W. cbn [objs]. rewrite !lookup_insert.
        repeat case_decide; try (intros [= <-]);
          try by unfold size_le_capacity.
        apply Hinv.
      * cbn [objs]. by rewrite lookup_insert_eq.
    + unfold Vector.Swap. any_read V1 HV1.
      apply wp_bind, wp_any_get_data. intros V2 HV2. cbn [objs] in HV2.
      rewrite lookup_insert_ne in HV2; congruence.
Qed.
End store_specs.

(** ** Reading a vector *)

Section reading.
Context {T : Type} {ET : Element T}.
Implicit Types (st : state T) (xs : list T).

Lemma Size_owned st this p xs cap :
  owns st this p xs cap → Vector.Size this st = Ok (length xs) st.
Proof.
  intros (Ho & _). apply wp_Ok_eq. unfold Vector.Size.
  by eapply wp_get_size.
Qed.

Lemma Capacity_owned st this p xs cap :
  owns st this p xs cap → Vector.Capacity this st = Ok cap st.
Proof.
  intros (Ho & _). apply wp_Ok_eq. by eapply wp_Capacity.
Qed.

Lemma begin_owned st this p xs cap :
  owns st this p xs cap → Vector.begin this st = Ok p st.
Proof.
  intros (Ho & _). apply wp_Ok_eq. by eapply wp_begin.
Qed.

Lemma end_owned st this p xs cap :
  owns st this p xs cap → Vector.end_ this st = Ok (p +ₚ length xs) st.
Proof.
  intros (Ho & _). apply wp_Ok_eq. by eapply wp_end_.
Qed.

(** [operator[]] inside the size is the address of the slot, which
    holds the element. *)
Lemma at_owned st this p xs cap i x :
  owns st this p xs cap → xs !! i = Some x →
  Vector.at_ this i st = Ok (p +ₚ i) st ∧ load (p +ₚ i) st = Ok x st.
Proof.
  intros Hown Hx. pose proof (lookup_lt_Some _ _ _ Hx) as Hi.
  destruct (owns_block _ _ _ _ _ Hown) as (b & -> & Hb).
  { destruct Hown as (_ & ? & _). lia. }
  destruct Hown as (Ho & Hle & _). split.
  - apply wp_Ok_eq. unfold Vector.at_. wp_read.
    apply wp_bind, wp_assert. rewrite bool_decide_true by done.
    wp_read. unfold RawMemory.index. apply wp_bind, wp_assert.
    vec_simpl. rewrite bool_decide_true by lia. by apply wp_ret.
  - apply wp_Ok_eq. cbn [ptr_add Nat.add].
    eapply wp_load; [|done]. rewrite (slot_block _ _ _ _ Hb).
    by apply slots_of_lookup_live.
Qed.
End reading.

(** ** Sequences of appends and removals *)

Section sequences.
Context {T : Type} {ET : Element T}.
Implicit Types (st : state T) (xs : list T) (cs : list (cmd T)).

Lemma PushBack_owns st this p xs cap v :
  owns st this p xs cap →
  copy_throws v = false →
  (length xs = cap → Vector.use_move = false →
     Forall (λ x, copy_throws x = false) xs) →
  ∃ st' p',
    Vector.PushBack this v st = Ok () st' ∧
    owns st' this p' (xs ++ [v])
         (if decide (length xs < cap) then cap else grown (length xs)).
Proof.
  intros Hown Hv Hok.
  destruct (EmplaceBack_owns _ _ _ _ _ v Hown Hok)
    as (st' & p' & Hrun & Hown' & _).
  exists st', p'. split; [|done].
  unfold Vector.PushBack, Vector.copy_of. rewrite Hv.
  unfold mbind, M_bind. by rewrite Hrun.
Qed.

Lemma PopBack_owns st this p xs cap :
  owns st this p xs cap →
  ∃ st', Vector.PopBack this st = Ok () st' ∧
         owns st' this p (removelast xs) cap.
Proof.
  intros Hown. destruct xs as [|x0 xs0] using rev_ind.
  - exists st. split; [|done]. destruct Hown as (Ho & _).
    by eapply PopBack_empty.
  - rewrite removelast_last.
    destruct (owns_block _ _ _ _ _ Hown) as (b & -> & Hb).
    { destruct Hown as (_ & Hle & _). rewrite length_app in Hle. cbn in Hle. lia. }
    destruct Hown as (Ho & Hle & _).
    rewrite length_app, Nat.add_1_r in Ho, Hle.
    eexists. split; [by eapply PopBack_last|].
    apply owns_intro; vec_simpl; [by rewrite lookup_insert_eq..|lia].
Qed.

Lemma Forall_removelast (P : T → Prop) xs :
  Forall P xs → Forall P (removelast xs).
Proof.
  destruct xs as [|x0 xs0] using rev_ind; [done|].
  rewrite removelast_last. by intros [? _]%Forall_app.
Qed.

Lemma run_cmds_owns st this p xs cap cs :
  owns st this p xs cap →
  Forall (λ x, copy_throws x = false) xs →
  Forall push_ok cs →
  ∃ st' p' cap',
    run_cmds this cs st = Ok () st' ∧
    owns st' this p' (replay_from xs cs) cap'.
Proof.
  intros Hown Hxs Hcs. revert st p xs cap Hown Hxs.
  induction Hcs as [|c cs Hc Hcs IH]; intros st p xs cap Hown Hxs.
  - by exists st, p, cap.
  - destruct c as [v|]; cbn [run_cmds run_cmd replay_from fold_left replay_cmd].
    + destruct (PushBack_owns _ _ _ _ _ v Hown Hc) as (st1 & p1 & Hrun & Hown1);
        [done|].
      destruct (IH _ _ _ _ Hown1) as (st' & p' & cap' & Hrun' & Hown').
      { apply Forall_app. split; [done|]. by apply Forall_singleton. }
      exists st', p', cap'. split; [|done].
      unfold mbind, M_bind. by rewrite Hrun.
    + destruct (PopBack_owns _ _ _ _ _ Hown) as (st1 & Hrun & Hown1).
      destruct (IH _ _ _ _ Hown1) as (st' & p' & cap' & Hrun' & Hown').
      { by apply Forall_removelast. }
      exists st', p', cap'. split; [|done].
      unfold mbind, M_bind. by rewrite Hrun.
Qed.

Lemma replay_from_length xs cs :
  length (replay_from xs cs) + effective_pops_from (length xs) cs
  = length xs + pushes cs.
Proof.
  revert xs. induction cs as [|[v|] cs IH]; intros xs;
    cbn [replay_from fold_left replay_cmd effective_pops_from pushes].
  - lia.
  - specialize (IH (xs ++ [v])). unfold replay_from in IH.
    rewrite length_app in IH. cbn in IH. rewrite Nat.add_1_r in IH. lia.
  - destruct xs as [|x0 xs0] using rev_ind.
    + specialize (IH []). unfold replay_from in IH. cbn in *. lia.
    + rewrite removelast_last, length_app, Nat.add_1_r.
      specialize (IH xs0). unfold replay_from in IH. lia.
Qed.

Lemma never_empty_pop_effective n cs :
  never_empty_pop n cs → effective_pops_from n cs = pops cs.
Proof.
  revert n. induction cs as [|[v|] cs IH]; intros n Hn; cbn in *.
  - done.
  - by apply IH.
  - destruct n; [done|]. f_equal. by apply IH.
Qed.

Lemma capacity_after_S k :
  (if decide (k < capacity_after k) then capacity_after k else grown k)
  = capacity_after (S k).
Proof.
  destruct k as [|k]; [done|].
  cbn [capacity_after]. set (n := S k). set (j := Nat.log2_up n).
  assert (n ≤ 2 ^ j) as Hle.
  { destruct (Nat.log2_log2_up_spec n) as [_ ?]; [lia|done]. }
  case_decide as Hlt.
  - f_equal. symmetry. apply Nat.log2_up_unique.
    + apply Nat.log2_up_pos. destruct k; [cbn in *; lia|lia].
    + destruct (Nat.log2_up_spec n) as [? _].
      { destruct k; [cbn in *; lia|lia]. }
      fold j in H. split; lia.
  - assert (n = 2 ^ j) as Hn by lia.
    unfold grown. rewrite decide_False by lia.
    rewrite Hn at 2. rewrite Nat.log2_up_succ_pow2 by lia.
    rewrite Nat.pow_succ_r'. lia.
Qed.

Lemma push_all_owns st this p xs vs :
  owns st this p xs (capacity_after (length xs)) →
  Forall (λ x, copy_throws x = false) xs →
  Forall (λ x, copy_throws x = false) vs →
  ∃ st' p',
    push_all this vs st = Ok () st' ∧
    owns st' this p' (xs ++ vs) (capacity_after (length (xs ++ vs))).
Proof.
  intros Hown Hxs Hvs. revert st p xs Hown Hxs.
  induction Hvs as [|v vs Hv Hvs IH]; intros st p xs Hown Hxs.
  - exists st, p. by rewrite app_nil_r.
  - destruct (PushBack_owns _ _ _ _ _ v Hown Hv) as (st1 & p1 & Hrun & Hown1);
      [done|].
    rewrite capacity_after_S in Hown1.
    replace (S (length xs)) with (length (xs ++ [v])) in Hown1
      by (rewrite length_app; cbn; lia).
    destruct (IH _ _ _ Hown1) as (st' & p' & Hrun' & Hown').
    { apply Forall_app. split; [done|]. by apply Forall_singleton. }
    exists st', p'. rewrite <- app_assoc in Hown'. split; [|done].
    cbn [push_all]. unfold mbind, M_bind. by rewrite Hrun.
Qed.

Lemma ctor_default_owns st :
  let this := fresh (dom (objs st)) in
  Vector.ctor_default st
  = Ok this (St (heap st) (<[this := Vec (RawMem Null 0) 0]> (objs st)) (trace st)) ∧
  owns (St (heap st) (<[this := Vec (RawMem Null 0) 0]> (objs st)) (trace st))
       this Null (@nil T) 0.
Proof.
  intros this. split; [done|]. split; [|done].
  cbn. by rewrite lookup_insert_eq.
Qed.
End sequences.

(** ** Copy assignment between two vectors *)

Section copy_assignment.
Context {T : Type} {ET : Element T}.
Implicit Types (st : state T) (xs ys : list T).

Lemma assign_copy_owns st a b pa xs ca pb ys cb :
  a ≠ b →
  owns st a pa xs ca → owns st b pb ys cb → separate pa pb →
  Forall (λ y, copy_throws y = false) ys →
  Forall (λ y, assign_throws y = false) ys →
  ∃ st' pa' ca',
    Vector.assign_copy a b st = Ok () st' ∧
    owns st' a pa' ys ca' ∧ owns st' b pb ys cb ∧ ca ≤ ca'.
Proof.
  intros Hne Ha Hb Hsep Hcopy Hassign.
  destruct (decide (ca < length ys)) as [Hlt|Hfit].
  - destruct (owns_block _ _ _ _ _ Hb) as (b0 & -> & Hb0).
    { destruct Hb as (_ & ? & _). lia. }
    pose proof (assign_copy_realloc _ _ _ _ _ _ _ _ _ Hne Ha Hb Hlt Hcopy)
      as Hrun. cbn zeta in Hrun.
    set (b' := fresh (dom (heap st))) in *.
    assert (heap st !! b' = None) as Hb' by apply fresh_block.
    assert (b0 ≠ b') by congruence.
    destruct (owns_inv _ _ _ _ _ Ha) as (Hoa & Hlea & Hpa & Hpa0).
    assert (pa ≠ Ptr b' 0) as Hfresh by by eapply block_at_fresh.
    eexists _, (Ptr b' 0), (length ys). split; [exact Hrun|].
    split; [|split; [|lia]].
    + apply owns_intro; vec_simpl; [by rewrite lookup_insert_eq| |done].
      destruct pa as [|a0 i0]; cbn [release].
      * by rewrite lookup_insert_eq.
      * rewrite (Hpa0 a0 i0) in Hfresh by done.
        rewrite lookup_delete_ne by congruence.
        by rewrite lookup_insert_eq.
    + eapply owns_frame; [| |exact Hb]; vec_simpl.
      * by rewrite lookup_insert_ne.
      * intros ? [= <-]. destruct pa as [|a0 i0]; cbn [release].
        -- by rewrite lookup_insert_ne.
        -- rewrite (Hpa0 a0 i0) in * by done.
           destruct Hsep as [?|Hsep]; [done|].
           rewrite lookup_delete_ne by congruence.
           by rewrite lookup_insert_ne.
  - destruct (decide (length ys < length xs)) as [Hshort|Hlong].
    + destruct (owns_block _ _ _ _ _ Ha) as (a0 & -> & Ha0).
      { destruct Ha as (_ & ? & _). lia. }
      destruct Hsep as [?|Hsep]; [done|].
      rewrite <- (take_drop (length ys) xs) in Ha.
      pose proof (assign_copy_shrink _ _ _ _ _ _ _ _ _ _ Hne Ha Hb) as Hrun.
      rewrite length_take, length_drop in Hrun.
      eexists _, (Ptr a0 0), ca.
      split; [apply Hrun; [congruence|lia|lia|done]|].
      destruct Hb as (Hob & Hleb & Hpb).
      split; [|split; [|done]].
      * apply owns_intro; vec_simpl; [by rewrite lookup_insert_eq..|lia].
      * split; [|split; [done|]]; vec_simpl.
        -- by rewrite lookup_insert_ne.
        -- apply block_at_insert_ne; [congruence|done].
    + assert (length xs ≤ length ys) as Hle by lia.
      rewrite <- (take_drop (length xs) ys) in Hb.
      pose proof (assign_copy_grow _ _ _ _ _ _ _ _ _ _ Hne Ha Hb) as Hrun.
      rewrite length_take in Hrun. rewrite take_drop in Hrun, Hb.
      apply Forall_take with (n := length xs) in Hassign as Hassign'.
      apply Forall_drop with (n := length xs) in Hcopy as Hcopy'.
      assert (∀ a0, pa = Ptr a0 0 → pb ≠ Ptr a0 0) as Hdis.
      { intros a0 ->. destruct Hsep as [?|Hsep]; [done|congruence]. }
      eexists _, pa, ca.
      split; [apply Hrun; [done|lia|lia|done|done]|].
      destruct (owns_inv _ _ _ _ _ Ha) as (Hoa & Hlea & Hpa & Hpa0).
      destruct Hb as (Hob & Hleb & Hpb).
      split; [|split; [|done]].
      * split; [|split; [lia|]]; vec_simpl.
        -- by rewrite lookup_insert_eq.
        -- eapply block_at_update; [done|].
           rewrite !slots_of_length; [done|lia..].
      * split; [|split; [done|]]; vec_simpl.
        -- by rewrite lookup_insert_ne.
        -- destruct pa as [|a0 i0]; [done|]. cbn [update_block].
           rewrite (Hpa0 a0 i0) in * by done.
           apply block_at_insert_ne; [|done]. by apply Hdis.
Qed.
End copy_assignment.

(** ** Insertion and removal on an owned vector *)

Section insert_erase.
Context {T : Type} {ET : Element T}.
Implicit Types (st : state T) (xs : list T).

Lemma Emplace_owns st this p xs1 xs2 cap v :
  owns st this p (xs1 ++ xs2) cap →
  (length (xs1 ++ xs2) = cap → Vector.use_move = false →
     Forall (λ x, copy_throws x = false) (xs1 ++ xs2)) →
  fits_int (length xs1) →
  ∃ st' p',
    Vector.Emplace this (p +ₚ length xs1) (Some v) st
    = Ok (p' +ₚ length xs1) st' ∧
    owns st' this p' (xs1 ++ v :: xs2)
         (if decide (length (xs1 ++ xs2) < cap) then cap
          else grown (length (xs1 ++ xs2))).
Proof.
  intros Hown Hok Hfit. case_decide as Hlt.
  - destruct (owns_block _ _ _ _ _ Hown) as (b & -> & Hb); [lia|].
    destruct Hown as (Ho & Hle & _). cbn [ptr_add Nat.add].
    destruct xs2 as [|z m _] using rev_ind.
    + rewrite app_nil_r in *.
      eexists _, (Ptr b 0). split; [by apply Emplace_spare_end|].
      apply owns_intro; vec_simpl.
      * rewrite lookup_insert_eq, length_app. cbn. by rewrite Nat.add_1_r.
      * by rewrite lookup_insert_eq.
      * rewrite length_app. cbn. lia.
    + rewrite !length_app in Ho, Hlt. cbn [length] in Ho, Hlt.
      rewrite Nat.add_1_r, Nat.add_succ_r in Ho, Hlt.
      eexists _, (Ptr b 0). split; [by apply Emplace_spare_mid|].
      apply owns_intro; vec_simpl.
      * rewrite lookup_insert_eq, !length_app. cbn.
        rewrite !length_app. cbn. do 3 f_equal. lia.
      * by rewrite lookup_insert_eq.
      * rewrite !length_app. cbn. rewrite !length_app. cbn. lia.
  - assert (cap = length (xs1 ++ xs2)) as ->
      by (destruct Hown as (_ & ? & _); lia).
    pose proof (Emplace_full _ _ _ _ _ v Hown (Hok eq_refl) Hfit) as Hrun.
    cbn zeta in Hrun.
    eexists _, (Ptr _ 0). split; [exact Hrun|].
    apply owns_intro; vec_simpl.
    + rewrite lookup_insert_eq, !length_app. cbn. do 3 f_equal. lia.
    + by rewrite lookup_insert_eq.
    + rewrite !length_app, grown_max. cbn. lia.
Qed.

Lemma Erase_owns st this p xs1 x xs2 cap :
  owns st this p (xs1 ++ x :: xs2) cap →
  fits_int (length xs1) →
  ∃ st',
    Vector.Erase this (p +ₚ length xs1) st = Ok (p +ₚ length xs1) st' ∧
    owns st' this p (xs1 ++ xs2) cap.
Proof.
  intros Hown Hfit.
  destruct (owns_block _ _ _ _ _ Hown) as (b & -> & Hb).
  { destruct Hown as (_ & Hle & _). rewrite length_app in Hle. cbn in Hle. lia. }
  destruct Hown as (Ho & Hle & _). cbn [ptr_add Nat.add].
  eexists. split; [by apply (Erase_at _ _ _ _ x)|].
  apply owns_intro; vec_simpl; [by rewrite lookup_insert_eq..|].
  rewrite !length_app in *. cbn in Hle. lia.
Qed.
End insert_erase.

(** ** Frames: the rest of the heap and of the store *)

Section frames.
Context {T : Type} {ET : Element T}.
Implicit Types (st : state T) (xs : list T).

Lemma same_rest_refl st this p : same_rest st st this p p.
Proof. done. Qed.

Lemma same_rest_trans st1 st2 st3 this p1 p2 p3 :
  same_rest st1 st2 this p1 p2 → same_rest st2 st3 this p2 p3 →
  same_rest st1 st3 this p1 p3.
Proof. intros [? ?] [? ?]. split; congruence. Qed.

Lemma release_fresh st p b' l :
  b' = fresh (dom (heap st)) →
  release (Ptr b' 0) (<[b' := l]> (release p (heap st))) = release p (heap st).
Proof.
  intros ->. cbn [release]. rewrite delete_insert_eq. apply delete_id.
  destruct p; cbn [release]; [apply fresh_block|].
  apply lookup_delete_None. right. apply fresh_block.
Qed.

Lemma EmplaceBack_rest st this p xs cap v :
  owns st this p xs cap →
  (length xs = cap → Vector.use_move = false →
     Forall (λ x, copy_throws x = false) xs) →
  ∃ st' p',
    Vector.EmplaceBack this (Some v) st = Ok (p' +ₚ length xs) st' ∧
    owns st' this p' (xs ++ [v])
         (if decide (length xs < cap) then cap else grown (length xs)) ∧
    same_rest st st' this p p'.
Proof.
  intros Hown Hok. case_decide as Hlt.
  - destruct (owns_block _ _ _ _ _ Hown) as (b & -> & Hb); [lia|].
    destruct Hown as (Ho & _ & _).
    eexists _, (Ptr b 0). split; [by apply EmplaceBack_spare|].
    split.
    + apply owns_intro; vec_simpl.
      * rewrite lookup_insert_eq, length_app. cbn. by rewrite Nat.add_1_r.
      * by rewrite lookup_insert_eq.
      * rewrite length_app. cbn. lia.
    + split; vec_simpl; cbn [release]; by rewrite delete_insert_eq.
  - assert (cap = length xs) as -> by (destruct Hown as (_ & ? & _); lia).
    eexists _, (Ptr _ 0). split; [by apply EmplaceBack_full; auto|].
    split.
    + apply owns_intro; vec_simpl.
      * rewrite lookup_insert_eq, length_app. cbn. by rewrite Nat.add_1_r.
      * by rewrite lookup_insert_eq.
      * rewrite length_app, grown_max. cbn. lia.
    + split; vec_simpl; [by apply release_fresh|by rewrite delete_insert_eq].
Qed.

Lemma PushBack_rest st this p xs cap v :
  owns st this p xs cap →
  copy_throws v = false →
  (length xs = cap → Vector.use_move = false →
     Forall (λ x, copy_throws x = false) xs) →
  ∃ st' p' cap',
    Vector.PushBack this v st = Ok () st' ∧
    owns st' this p' (xs ++ [v]) cap' ∧
    same_rest st st' this p p'.
Proof.
  intros Hown Hv Hok.
  destruct (EmplaceBack_rest _ _ _ _ _ v Hown Hok)
    as (st' & p' & Hrun & Hown' & Hrest).
  exists st', p'. eexists. split; [|done].
  unfold Vector.PushBack, Vector.copy_of. rewrite Hv.
  unfold mbind, M_bind. by rewrite Hrun.
Qed.

Lemma PopBack_rest st this p xs cap :
  owns st this p xs cap →
  ∃ st', Vector.PopBack this st = Ok () st' ∧
         owns st' this p (removelast xs) cap ∧
         same_rest st st' this p p.
Proof.
  intros Hown. destruct xs as [|x0 xs0] using rev_ind.
  - exists st. split; [|done]. destruct Hown as (Ho & _).
    by eapply PopBack_empty.
  - rewrite removelast_last.
    destruct (owns_block _ _ _ _ _ Hown) as (b & -> & Hb).
    { destruct Hown as (_ & Hle & _). rewrite length_app in Hle. cbn in Hle. lia. }
    destruct Hown as (Ho & Hle & _).
    rewrite length_app, Nat.add_1_r in Ho, Hle.
    eexists. split; [by eapply PopBack_last|]. split.
    + apply owns_intro; vec_simpl; [by rewrite lookup_insert_eq..|lia].
    + split; vec_simpl; cbn [release]; by rewrite delete_insert_eq.
Qed.

Lemma run_cmds_rest st this p xs cap cs :
  owns st this p xs cap →
  Forall (λ x, copy_throws x = false) xs →
  Forall push_ok cs →
  ∃ st' p' cap',
    run_cmds this cs st = Ok () st' ∧
    owns st' this p' (replay_from xs cs) cap' ∧
    same_rest st st' this p p'.
Proof.
  intros Hown Hxs Hcs. revert st p xs cap Hown Hxs.
  induction Hcs as [|c cs Hc Hcs IH]; intros st p xs cap Hown Hxs.
  - by exists st, p, cap.
  - destruct c as [v|]; cbn [run_cmds run_cmd replay_from fold_left replay_cmd].
    + destruct (PushBack_rest _ _ _ _ _ v Hown Hc)
        as (st1 & p1 & cap1 & Hrun & Hown1 & Hrest1); [done|].
      destruct (IH _ _ _ _ Hown1) as (st' & p' & cap' & Hrun' & Hown' & Hrest').
      { apply Forall_app. split; [done|]. by apply Forall_singleton. }
      exists st', p', cap'. split; [|split; [done|]].
      * unfold mbind, M_bind. by rewrite Hrun.
      * by eapply same_rest_trans.
    + destruct (PopBack_rest _ _ _ _ _ Hown) as (st1 & Hrun & Hown1 & Hrest1).
      destruct (IH _ _ _ _ Hown1) as (st' & p' & cap' & Hrun' & Hown' & Hrest').
      { by apply Forall_removelast. }
      exists st', p', cap'. split; [|split; [done|]].
      * unfold mbind, M_bind. by rewrite Hrun.
      * by eapply same_rest_trans.
Qed.


(** A copy that throws in the copy constructor of [Vector]: the block
    allocated for the copy is released and no vector is made. *)
Lemma ctor_copy_throw st other p xs cap :
  owns st other p xs cap →
  Exists (λ x, copy_throws x = true) xs →
  ∃ tr, Vector.ctor_copy other st = Throw (St (heap st) (objs st) tr).
Proof.
  intros Hown Hex.
  destruct (owns_block _ _ _ _ _ Hown) as (a & -> & Ha).
  { destruct xs; [by apply Exists_nil in Hex|].
    destruct Hown as (_ & ? & _). cbn in *. lia. }
  destruct Hown as (Ho & Hle & _).
  assert (0 < length xs) as Hpos.
  { destruct xs; [by apply Exists_nil in Hex|cbn; lia]. }
  set (b' := fresh (dom (heap st))).
  assert (heap st !! b' = None) as Hb' by apply fresh_block.
  assert (a ≠ b') by congruence.
  edestruct (transfer_throw
               (St (<[b' := replicate (length xs) None]> (heap st)) (objs st)
                   (trace st ++ [EvNew b' (length xs)]))
               a 0 [] xs (replicate (cap - length xs) None)
               b' 0 [] [] (length xs))
    as [tr Htr]; vec_simpl; try done.
  { by rewrite lookup_insert_ne. }
  { rewrite lookup_insert_eq. cbn. by rewrite app_nil_r. }
  exists (tr ++ [EvDelete b']).
  apply wp_Throw_eq. unfold Vector.ctor_copy.
  wp_read. apply wp_bind, wp_RawMemory_ctor; [lia|]. fold b'. cbn zeta.
  apply wp_bind, wp_unwinding. vec_simpl.
  eapply wp_run; [exact Htr|]. vec_simpl.
  apply (wp_RawMemory_dtor _ _ _ (replicate (length xs) None));
    [split; [done|]; vec_simpl; by rewrite lookup_insert_eq|].
  cbn [release release_events]. vec_simpl.
  by rewrite delete_insert_id.
Qed.

(** What a copy loop that throws has done: copy constructions, and the
    destruction of the copies it had made. *)
Lemma uninitialized_copy_from_rollback st a i b j done n k pa sa pb ds sb vs :
  a ≠ b →
  heap st !! a = Some (pa ++ (Some <$> vs) ++ sa) →
  heap st !! b = Some (pb ++ (Some <$> ds) ++ replicate n None ++ sb) →
  i + done = length pa → j = length pb → done = length ds → n = length vs →
  j + done + n ≤ k →
  Exists (λ v, copy_throws v = true) vs →
  ∃ evs, uninitialized_copy_from (Ptr a i) (Ptr b j) done n st
         = Throw (St (<[b := pb ++ replicate (done + n) None ++ sb]> (heap st))
                     (objs st) (trace st ++ evs)) ∧
         Forall (rollback_event b k) evs.
Proof.
  intros Hab Ha Hb Hi Hj Hd Hn Hk Hex.
  cut (wp False (uninitialized_copy_from (Ptr a i) (Ptr b j) done n)
         (λ _ _, False)
         (λ s, ∃ evs,
            s = St (<[b := pb ++ replicate (done + n) None ++ sb]> (heap st))
                   (objs st) (trace st ++ evs) ∧
            Forall (rollback_event b k) evs) st).
  { unfold wp. destruct (uninitialized_copy_from _ _ _ _ _); [done| |done].
    intros (evs & -> & ?). by exists evs. }
  revert st done pa ds n Ha Hb Hi Hj Hd Hn Hk Hex.
  induction vs as [|v vs IH]; intros st done pa ds n Ha Hb Hi -> -> -> Hk Hex;
    [by apply Exists_nil in Hex|].
  cbn [length uninitialized_copy_from].
  rewrite fmap_cons, <- app_comm_cons in Ha.
  cbn [length replicate] in Hb. rewrite <- app_comm_cons, app_assoc in Hb.
  apply wp_bind, wp_catch. st_simpl.
  eapply wp_copy_construct_at; [done|by apply lookup_mid|done| |].
  { apply lookup_mid. rewrite length_app, length_fmap. done. }
  destruct (copy_throws v) eqn:Hv.
  - apply wp_bind. rewrite <- app_assoc in Hb.
    eapply wp_run; [by eapply (destroy_n_block _ _ _ _ pb ds)|].
    apply wp_throw. eexists. split.
    + f_equal. rewrite replicate_add, <- !app_assoc. done.
    + apply Forall_fmap, Forall_forall. intros x Hx%elem_of_seq.
      cbn in *. split; [done|lia].
  - apply Exists_cons in Hex as [Hex|Hex]; [congruence|].
    rewrite insert_mid by (rewrite length_app, length_fmap; done).
    st_simpl.
    eapply wp_mono;
      [eapply (IH _ (S (length ds)) (pa ++ [_]) (ds ++ [v]))|..]; st_simpl.
    + rewrite lookup_insert_ne by done. by rewrite <- snoc_mid.
    + rewrite lookup_insert_eq, fmap_app, <- !app_assoc. done.
    + rewrite length_app. cbn. lia.
    + done.
    + rewrite length_app. cbn. lia.
    + done.
    + cbn in Hk. lia.
    + done.
    + done.
    + intros s (evs & -> & Hevs). eexists (_ :: evs). split.
      * rewrite insert_insert_eq, Nat.add_succ_comm, <- app_assoc. done.
      * by apply Forall_cons.
Qed.

(** [EmplaceBack] on a full block when copying an element to the new
    block throws. *)
Lemma EmplaceBack_full_copy_throws st this p xs v :
  owns st this p xs (length xs) →
  Vector.use_move = false →
  Exists (λ x, copy_throws x = true) xs →
  let n := length xs in
  let b' := fresh (dom (heap st)) in
  ∃ evs,
    Vector.EmplaceBack this (Some v) st
    = Throw (St (heap st) (objs st)
                (trace st ++ [EvNew b' (grown n); EvConstruct (Ptr b' n)]
                   ++ evs ++ [EvDelete b'])) ∧
    Forall (rollback_event b' n) evs.
Proof.
  intros Hown Hm Hex n b'.
  destruct (owns_block _ _ _ _ _ Hown) as (a & -> & Ha).
  { destruct xs; [by apply Exists_nil in Hex|cbn; lia]. }
  destruct Hown as (Ho & _).
  assert (heap st !! b' = None) as Hb' by apply fresh_block.
  assert (a ≠ b') by congruence.
  assert (Hg : n < grown n) by (rewrite grown_max; lia).
  rewrite slots_of_full in Ha.
  edestruct (uninitialized_copy_from_rollback
               (St (<[b' := replicate n None ++ Some v
                              :: replicate (grown n - S n) None]> (heap st))
                   (objs st)
                   (trace st ++ [EvNew b' (grown n)]
                      ++ [EvConstruct (Ptr b' n)]))
               a 0 b' 0 0 n n [] [] [] []
               (Some v :: replicate (grown n - S n) None) xs)
    as (evs & Hrun & Hevs); vec_simpl; try done.
  { rewrite lookup_insert_ne by done. by rewrite app_nil_r. }
  { by rewrite lookup_insert_eq. }
  exists evs. split; [|done].
  apply wp_Throw_eq. unfold Vector.EmplaceBack.
  do 2 wp_read. apply wp_bind. rewrite decide_False by lia.
  fold n. fold (grown n).
  apply wp_bind, wp_RawMemory_ctor; [lia|]. fold b'. cbn zeta.
  apply wp_bind, wp_unwinding, wp_bind. vec_simpl.
  rewrite (replicate_split n) by done.
  eapply wp_construct_at;
    [vec_simpl; by rewrite lookup_insert_eq
    |apply lookup_mid; by rewrite length_replicate|].
  rewrite insert_mid by (by rewrite length_replicate).
  vec_simpl. rewrite insert_insert_eq.
  unfold Vector.FillNewData. do 2 wp_read. rewrite Hm.
  unfold uninitialized_copy_n. rewrite <- app_assoc.
  eapply wp_run; [exact Hrun|]. vec_simpl.
  eapply wp_RawMemory_dtor;
    [split; [done|]; vec_simpl; by rewrite lookup_insert_eq|].
  cbn [release release_events]. vec_simpl. f_equal.
  - rewrite delete_insert_eq. by apply delete_insert_id.
  - by rewrite <- !app_assoc.
Qed.

(** The copy constructor on a source without throwing copies *)
Lemma ctor_copy_owns st other p xs cap :
  owns st other p xs cap →
  Forall (λ x, copy_throws x = false) xs →
  ∃ this st' p',
    Vector.ctor_copy other st = Ok this st' ∧
    objs st !! this = None ∧
    owns st' this p' xs (length xs) ∧
    owns st' other p xs cap ∧
    separate p' p ∧
    release p' (heap st') = heap st ∧
    delete this (objs st') = objs st.
Proof.
  intros Hown Hok.
  set (this := fresh (dom (objs st))).
  assert (objs st !! this = None) as Hthis by apply fresh_object.
  assert (this ≠ other) as Hne.
  { destruct Hown as (Ho & _). congruence. }
  destruct xs as [|x xs].
  - exists this, (St (heap st) (<[this := Vec (RawMem Null 0) 0]> (objs st))
                     (trace st)), Null.
    split; [|split; [done|split; [|split; [|split; [by left|split; [done|]]]]]].
    + destruct Hown as (Ho & _).
      apply wp_Ok_eq. unfold Vector.ctor_copy.
      wp_read. cbn [length].
      apply wp_bind, wp_RawMemory_ctor_0. apply wp_bind, wp_unwinding.
      apply wp_ret. by apply wp_new_vec.
    + split; [|done]. vec_simpl. by rewrite lookup_insert_eq.
    + eapply owns_frame; [| |exact Hown]; vec_simpl; [|done].
      by rewrite lookup_insert_ne.
    + vec_simpl. rewrite delete_insert_eq. by apply delete_id.
  - destruct (owns_block _ _ _ _ _ Hown) as (a & -> & Ha).
    { destruct Hown as (_ & ? & _). cbn in *. lia. }
    pose proof Hown as (Ho & Hle & _).
    set (b := fresh (dom (heap st))).
    assert (heap st !! b = None) as Hb by apply fresh_block.
    assert (a ≠ b) as Hab by congruence.
    eexists this, _, (Ptr b 0).
    split; [apply (ctor_copy_nonempty _ _ a (x :: xs) cap);
            [done|done|cbn; lia|done]|].
    fold b this. cbn zeta.
    split; [done|split; [|split; [|split; [|split]]]].
    + apply owns_intro; vec_simpl; [by rewrite lookup_insert_eq..|done].
    + eapply owns_frame; [| |exact Hown]; vec_simpl.
      * by rewrite lookup_insert_ne.
      * intros ? [= <-]. by rewrite lookup_insert_ne.
    + right. congruence.
    + vec_simpl. cbn [release]. by rewrite delete_insert_id.
    + vec_simpl. by rewrite delete_insert_id.
Qed.

(** A vector other than the one the states differ in, on a block of
    its own, is in the second state what it is in the first. *)
Lemma same_rest_owns st st' this p p' other q xs cap :
  same_rest st st' this p p' →
  (∀ c j, p = Ptr c j → j = 0) →
  other ≠ this → separate q p →
  owns st other q xs cap → owns st' other q xs cap.
Proof.
  intros [Hh Ho] Hp0 Hne Hsep (Hobj & Hle & Hblk).
  split; [|split; [done|]].
  - rewrite <- (lookup_delete_ne (objs st') this other) by done.
    rewrite Ho. by rewrite lookup_delete_ne.
  - destruct q as [|a i]; [done|]. destruct Hblk as [-> Ha].
    split; [done|].
    assert (release p (heap st) !! a = Some (slots_of xs cap)) as Hrel.
    { destruct p as [|c j]; [done|]. cbn [release].
      destruct Hsep as [|Hsep]; [done|].
      destruct (decide (a = c)) as [->|]; [|by rewrite lookup_delete_ne].
      by rewrite (Hp0 _ _ eq_refl) in Hsep. }
    rewrite <- Hh in Hrel.
    destruct p' as [|c j]; [done|]. cbn [release] in Hrel.
    by apply lookup_delete_Some in Hrel as [_ ?].
Qed.

(** A constructor that throws on a full block: in [EmplaceBack] and in
    [Emplace] the new block is released and the state is what it was,
    but for the events of the allocation and of the release. *)
Lemma EmplaceBack_full_ctor_throws st this p xs :
  owns st this p xs (length xs) →
  let b' := fresh (dom (heap st)) in
  Vector.EmplaceBack this None st
  = Throw (St (heap st) (objs st)
              (trace st ++ [EvNew b' (grown (length xs)); EvDelete b'])).
Proof.
  intros Hown b'.
  assert (heap st !! b' = None) as Hb' by apply fresh_block.
  set (n := length xs) in *.
  assert (Hg : n < grown n) by (rewrite grown_max; lia).
  destruct Hown as (Ho & _).
  apply wp_Throw_eq. unfold Vector.EmplaceBack.
  do 2 wp_read. apply wp_bind. rewrite decide_False by lia.
  fold n. fold (grown n).
  apply wp_bind, wp_RawMemory_ctor; [lia|]. fold b'. cbn zeta.
  apply wp_bind, wp_unwinding, wp_bind. vec_simpl.
  eapply wp_construct_at_throw;
    [vec_simpl; by rewrite lookup_insert_eq
    |by apply lookup_replicate_2|].
  eapply wp_RawMemory_dtor;
    [split; [done|]; vec_simpl; by rewrite lookup_insert_eq|].
  cbn [release release_events]. vec_simpl. f_equal.
  - by apply delete_insert_id.
  - by rewrite <- app_assoc.
Qed.

Lemma Emplace_full_ctor_throws st this p xs i :
  owns st this p xs (length xs) → i ≤ length xs → fits_int i →
  let b' := fresh (dom (heap st)) in
  Vector.Emplace this (p +ₚ i) None st
  = Throw (St (heap st) (objs st)
              (trace st ++ [EvNew b' (grown (length xs)); EvDelete b'])).
Proof.
  intros Hown Hi Hfit b'.
  pose proof (ptr_diff_owned _ _ _ _ _ i Hown Hi) as Hdiff.
  assert (heap st !! b' = None) as Hb' by apply fresh_block.
  set (n := length xs) in *.
  assert (Hg : n < grown n) by (rewrite grown_max; lia).
  destruct Hown as (Ho & _).
  apply wp_Throw_eq. unfold Vector.Emplace.
  wp_read. rewrite Hdiff, int_of_Z_fits by done. cbn zeta.
  do 2 wp_read. apply wp_bind.
  rewrite decide_False by lia. fold n. fold (grown n).
  apply wp_bind, wp_RawMemory_ctor; [lia|]. fold b'. cbn zeta.
  apply wp_bind, wp_unwinding. wp_offset. apply wp_bind.
  eapply wp_construct_at_throw;
    [vec_simpl; by rewrite lookup_insert_eq
    |apply lookup_replicate_2; lia|].
  eapply wp_RawMemory_dtor;
    [split; [done|]; vec_simpl; by rewrite lookup_insert_eq|].
  cbn [release release_events]. vec_simpl. f_equal.
  - by apply delete_insert_id.
  - by rewrite <- app_assoc.
Qed.

(** A copy loop whose first throwing copy is that of [x], after the
    copies of [pre]: those copies are made in increasing order of
    address and then destroyed in that order, together with the
    copies the destination held before. *)
Lemma uninitialized_copy_from_throw_exact st a i b j done pa sa pb ds sb
    pre x suf :
  a ≠ b →
  heap st !! a = Some (pa ++ (Some <$> pre ++ x :: suf) ++ sa) →
  heap st !! b
  = Some (pb ++ (Some <$> ds)
             ++ replicate (length (pre ++ x :: suf)) None ++ sb) →
  i + done = length pa → j = length pb → done = length ds →
  Forall (λ v, copy_throws v = false) pre → copy_throws x = true →
  uninitialized_copy_from (Ptr a i) (Ptr b j) done
    (length (pre ++ x :: suf)) st
  = Throw (St (<[b := pb ++ replicate (done + length (pre ++ x :: suf)) None
                        ++ sb]> (heap st))
              (objs st)
              (trace st
                 ++ transfer_events EvCopyCtor (Ptr a (i + done))
                      (Ptr b (j + done)) (length pre)
                 ++ (EvDestroy ∘ Ptr b <$> seq j (done + length pre)))).
Proof.
  intros Hab Ha Hb Hi Hj Hd Hpre Hx. apply wp_Throw_eq.
  revert st done pa ds Ha Hb Hi Hj Hd.
  induction Hpre as [|v pre Hv Hpre IH]; intros st done pa ds Ha Hb Hi -> ->.
  - cbn [app length] in *. cbn [uninitialized_copy_from].
    rewrite fmap_cons, <- app_comm_cons in Ha.
    cbn [replicate] in Hb. rewrite <- app_comm_cons, app_assoc in Hb.
    apply wp_bind, wp_catch. st_simpl.
    eapply wp_copy_construct_at; [done|by apply lookup_mid|done| |].
    { apply lookup_mid. rewrite length_app, length_fmap. done. }
    rewrite Hx. apply wp_bind. rewrite <- app_assoc in Hb.
    eapply wp_run; [by eapply (destroy_n_block _ _ _ _ pb ds)|].
    apply wp_throw. cbn. f_equal.
    + rewrite replicate_add, <- !app_assoc. done.
    + by rewrite Nat.add_0_r.
  - cbn [app length] in *. cbn [uninitialized_copy_from].
    rewrite fmap_cons, <- app_comm_cons in Ha.
    cbn [replicate] in Hb. rewrite <- app_comm_cons, app_assoc in Hb.
    apply wp_bind, wp_catch. st_simpl.
    eapply wp_copy_construct_at; [done|by apply lookup_mid|done| |].
    { apply lookup_mid. rewrite length_app, length_fmap. done. }
    rewrite Hv.
    rewrite insert_mid by (rewrite length_app, length_fmap; done).
    st_simpl.
    eapply wp_mono;
      [eapply (IH _ (S (length ds)) (pa ++ [_]) (ds ++ [v]))|..]; st_simpl.
    + rewrite lookup_insert_ne by done. by rewrite <- snoc_mid.
    + rewrite lookup_insert_eq, fmap_app, <- !app_assoc. done.
    + rewrite length_app. cbn. lia.
    + done.
    + rewrite length_app. cbn. lia.
    + done.
    + intros s ->. f_equal.
      * rewrite insert_insert_eq. by rewrite Nat.add_succ_comm.
      * cbn [transfer_events ptr_add]. rewrite <- !app_assoc. cbn [app].
        replace (i + length ds + 1) with (i + S (length ds)) by lia.
        replace (length pb + length ds + 1)
          with (length pb + S (length ds)) by lia.
        replace (length ds + S (length pre))
          with (S (length ds) + length pre) by lia.
        done.
Qed.


Lemma ctor_copy_throw_exact st other p pre x suf cap :
  owns st other p (pre ++ x :: suf) cap →
  Forall (λ y, copy_throws y = false) pre → copy_throws x = true →
  let b' := fresh (dom (heap st)) in
  Vector.ctor_copy other st
  = Throw (St (heap st) (objs st)
              (trace st ++ [EvNew b' (length (pre ++ x :: suf))]
                 ++ transfer_events EvCopyCtor p (Ptr b' 0) (length pre)
                 ++ destroy_events (Ptr b' 0) (length pre)
                 ++ [EvDelete b'])).
Proof.
  intros Hown Hpre Hx b'.
  destruct (owns_block _ _ _ _ _ Hown) as (a & -> & Ha).
  { destruct Hown as (_ & ? & _). rewrite length_app in *. cbn in *. lia. }
  destruct Hown as (Ho & Hle & _).
  assert (heap st !! b' = None) as Hb' by apply fresh_block.
  assert (a ≠ b') by congruence.
  set (xs := pre ++ x :: suf) in *.
  assert (0 < length xs) as Hpos.
  { unfold xs. rewrite length_app. cbn. lia. }
  pose proof (uninitialized_copy_from_throw_exact
                (St (<[b' := replicate (length xs) None]> (heap st)) (objs st)
                    (trace st ++ [EvNew b' (length xs)]))
                a 0 b' 0 0 [] (replicate (cap - length xs) None)
                [] [] [] pre x suf) as Hrun.
  fold xs in Hrun. cbn [app length fmap list_fmap] in Hrun.
  rewrite Nat.add_0_l in Hrun. cbn [heap objs trace] in Hrun.
  apply wp_Throw_eq. unfold Vector.ctor_copy.
  wp_read. apply wp_bind, wp_RawMemory_ctor; [lia|]. fold b'. cbn zeta.
  apply wp_bind, wp_unwinding. vec_simpl.
  unfold uninitialized_copy_n.
  eapply wp_run.
  { apply Hrun; try done.
    - by rewrite lookup_insert_ne.
    - rewrite lookup_insert_eq. by rewrite app_nil_r. }
  vec_simpl.
  eapply wp_RawMemory_dtor;
    [split; [done|]; vec_simpl; by rewrite lookup_insert_eq|].
  cbn [release release_events]. vec_simpl. f_equal.
  - rewrite delete_insert_eq. by apply delete_insert_id.
  - by rewrite <- !app_assoc.
Qed.
End frames.

(** * The properties the description states *)

Section claims.
Context {T : Type} {ET : Element T}.
Implicit Types (st : state T) (xs : list T).

(** C10. [EmplaceBack(args...)] returns a reference to the element it
    constructed: when the construction succeeds, the address returned
    is the one [operator[]] gives for index [Size() - 1] after the
    call, and the object there has the value constructed. *)
Theorem C10_EmplaceBack_returns_new_last st this p xs cap v :
  owns st this p xs cap →
  (length xs = cap → Vector.use_move = false →
     Forall (λ x, copy_throws x = false) xs) →
  ∃ r st' n,
    Vector.EmplaceBack this (Some v) st = Ok r st' ∧
    Vector.Size this st' = Ok n st' ∧
    n = S (length xs) ∧
    Vector.at_ this (n - 1) st' = Ok r st' ∧
    load r st' = Ok v st'.
Proof.
  intros Hown Hok.
  destruct (EmplaceBack_owns _ _ _ _ _ v Hown Hok) as (st' & p' & Hrun & Hown' & _).
  exists (p' +ₚ length xs), st', (S (length xs)).
  split; [done|]. split.
  { erewrite Size_owned by done. by rewrite length_app, Nat.add_1_r. }
  split; [done|].
  replace (S (length xs) - 1) with (length xs) by lia.
  eapply at_owned; [done|]. by rewrite lookup_app_r, Nat.sub_diag.
Qed.

(** C2. [EmplaceBack(args...)] and [PushBack(value)], for an lvalue
    and for an rvalue.  With spare capacity the element is constructed
    in the first free slot and nothing else happens; a construction
    that throws leaves the state, and so the size, as it was.  With
    [Size() == Capacity()] a new block is allocated and the element is
    constructed in it at index [Size()] before any element is moved or
    copied into the new block.  [PushBack] ends in the state
    [EmplaceBack] ends in. *)
Theorem C2_EmplaceBack_construction_order st this p xs cap :
  owns st this p xs cap →
  (length xs < cap →
     Vector.EmplaceBack this None st = Throw st ∧
     (∀ v, copy_throws v = true → Vector.PushBack this v st = Throw st) ∧
     (∀ v, ∃ st',
        Vector.EmplaceBack this (Some v) st = Ok (p +ₚ length xs) st' ∧
        (copy_throws v = false → Vector.PushBack this v st = Ok () st') ∧
        Vector.PushBack_move this v st = Ok () st' ∧
        owns st' this p (xs ++ [v]) cap ∧
        trace st' = trace st ++ [EvConstruct (p +ₚ length xs)])) ∧
  (length xs = cap →
     (Vector.use_move = false → Forall (λ x, copy_throws x = false) xs) →
     ∀ v, ∃ st' b',
       Vector.EmplaceBack this (Some v) st = Ok (Ptr b' (length xs)) st' ∧
       (copy_throws v = false → Vector.PushBack this v st = Ok () st') ∧
       Vector.PushBack_move this v st = Ok () st' ∧
       heap st !! b' = None ∧
       owns st' this (Ptr b' 0) (xs ++ [v]) (grown (length xs)) ∧
       trace st'
       = trace st
           ++ EvNew b' (grown (length xs))
           :: EvConstruct (Ptr b' (length xs))
           :: transfer_events transfer_ev p (Ptr b' 0) (length xs)
           ++ destroy_events p (length xs) ++ release_events p).
Proof.
  intros Hown. split.
  - intros Hlt.
    destruct (owns_block _ _ _ _ _ Hown) as (b & -> & Hb); [lia|].
    destruct Hown as (Ho & _ & _).
    assert (Vector.EmplaceBack this None st = Throw st) as Hthrow
      by by eapply EmplaceBack_spare_throw.
    split; [done|]. split.
    + intros v Hv. unfold Vector.PushBack, Vector.copy_of. rewrite Hv.
      unfold mbind, M_bind. by rewrite Hthrow.
    + intros v. eexists. cbn [ptr_add Nat.add].
      pose proof (EmplaceBack_spare _ _ _ _ _ v Ho Hb Hlt) as Hrun.
      split; [exact Hrun|]. split; [|split; [|split; [|done]]].
      { intros Hv. unfold Vector.PushBack, Vector.copy_of. rewrite Hv.
        unfold mbind, M_bind. by rewrite Hrun. }
      { unfold Vector.PushBack_move, Vector.move_of, mbind, M_bind.
        by rewrite Hrun. }
      apply owns_intro; vec_simpl.
      * rewrite lookup_insert_eq, length_app. cbn. by rewrite Nat.add_1_r.
      * by rewrite lookup_insert_eq.
      * rewrite length_app. cbn. lia.
  - intros <- Hok v.
    pose proof (EmplaceBack_full _ _ _ _ v Hown Hok) as Hrun. cbn zeta in Hrun.
    eexists _, (fresh (dom (heap st))). split; [exact Hrun|].
    split; [|split].
    { intros Hv. unfold Vector.PushBack, Vector.copy_of. rewrite Hv.
      unfold mbind, M_bind. by rewrite Hrun. }
    { unfold Vector.PushBack_move, Vector.move_of, mbind, M_bind.
      by rewrite Hrun. }
    split; [apply fresh_block|]. split; [|done].
    apply owns_intro; vec_simpl.
    + rewrite lookup_insert_eq, length_app. cbn. by rewrite Nat.add_1_r.
    + by rewrite lookup_insert_eq.
    + rewrite length_app, grown_max. cbn. lia.
Qed.


(** C3. When an insertion finds the block full, the new capacity is
    [max(1, 2 * old capacity)]: in [EmplaceBack]; in [Emplace] at a
    position whose offset an [int] holds, where the vector then holds
    the new element at that position; and in [Emplace] at any position
    and with any arguments, whenever the call returns.  And [k]
    appends to a default-constructed vector leave the capacity at the
    doubling thresholds: 1 after the first, 2 after the second, 4
    after the third. *)
Theorem C3_growth_doubles :
  (∀ st this p xs v,
     owns st this p xs (length xs) →
     (Vector.use_move = false → Forall (λ x, copy_throws x = false) xs) →
     ∃ r st' p',
       Vector.EmplaceBack this (Some v) st = Ok r st' ∧
       owns st' this p' (xs ++ [v]) (Nat.max 1 (2 * length xs)) ∧
       Vector.Capacity this st' = Ok (Nat.max 1 (2 * length xs)) st') ∧
  (∀ st this p xs1 xs2 v,
     owns st this p (xs1 ++ xs2) (length (xs1 ++ xs2)) →
     (Vector.use_move = false →
        Forall (λ x, copy_throws x = false) (xs1 ++ xs2)) →
     fits_int (length xs1) →
     ∃ r st' p',
       Vector.Emplace this (p +ₚ length xs1) (Some v) st = Ok r st' ∧
       owns st' this p' (xs1 ++ v :: xs2) (Nat.max 1 (2 * length (xs1 ++ xs2))) ∧
       Vector.Capacity this st'
       = Ok (Nat.max 1 (2 * length (xs1 ++ xs2))) st') ∧
  (∀ st this p xs pos ctor,
     owns st this p xs (length xs) →
     wp True (Vector.Emplace this pos ctor)
       (λ _ st',
          Vector.Capacity this st' = Ok (Nat.max 1 (2 * length xs)) st')
       (λ _, True) st) ∧
  (∀ st vs,
     Forall (λ x, copy_throws x = false) vs →
     ∃ this st' p',
       (this ← Vector.ctor_default; push_all this vs ;; mret this) st
       = Ok this st' ∧
       owns st' this p' vs (capacity_after (length vs)) ∧
       Vector.Capacity this st' = Ok (capacity_after (length vs)) st') ∧
  capacity_after 1 = 1 ∧ capacity_after 2 = 2 ∧ capacity_after 3 = 4 ∧
  capacity_after 4 = 4 ∧ capacity_after 5 = 8.
Proof.
  split; [|split; [|split; [|split]]].
  - intros st this p xs v Hown Hok.
    pose proof (EmplaceBack_full _ _ _ _ v Hown Hok) as Hrun. cbn zeta in Hrun.
    rewrite grown_max in Hrun.
    eexists _, _, (Ptr _ 0). split; [exact Hrun|].
    match goal with |- ?P ∧ _ => assert P as Hown' end.
    { apply owns_intro; vec_simpl.
      - rewrite lookup_insert_eq, length_app. cbn. by rewrite Nat.add_1_r.
      - by rewrite lookup_insert_eq.
      - rewrite length_app. cbn. lia. }
    split; [done|]. by eapply Capacity_owned.
  - intros st this p xs1 xs2 v Hown Hok Hfit.
    pose proof (Emplace_full _ _ _ _ _ v Hown Hok Hfit) as Hrun.
    cbn zeta in Hrun.
    rewrite grown_max in Hrun.
    eexists _, _, (Ptr _ 0). split; [exact Hrun|].
    match goal with |- ?P ∧ _ => assert P as Hown' end.
    { apply owns_intro; vec_simpl.
      - rewrite lookup_insert_eq, !length_app. cbn. do 3 f_equal. lia.
      - by rewrite lookup_insert_eq.
      - rewrite !length_app. cbn. lia. }
    split; [done|]. by eapply Capacity_owned.
  - intros st this p xs pos ctor (Ho & _).
    eapply wp_mono;
      [by eapply (Emplace_full_capacity _ _ _ _ _ Ho)| |done].
    intros _ st' (V' & HV' & Hcap). cbn [size_] in Hcap.
    rewrite <- grown_max, <- Hcap.
    apply wp_Ok_eq. by eapply wp_Capacity.
  - intros st vs Hvs.
    destruct (ctor_default_owns st) as [Hctor Hown0]. cbn zeta in *.
    destruct (push_all_owns _ _ _ [] vs Hown0) as (st' & p' & Hrun & Hown');
      [done..|].
    exists (fresh (dom (objs st))), st', p'. cbn [app] in Hown'.
    split; [|split; [done|by eapply Capacity_owned]].
    unfold mbind, M_bind. by rewrite Hctor, Hrun.
  - done.
Qed.

(** C4.  A sequence of [PushBack] and [PopBack] on a default-constructed
    vector, no copy throwing: the vector ends holding the pushed values
    that were not popped, in push order; [Size()] is the number of
    pushes minus the number of pops that met a vector holding an
    element, a [PopBack] on an empty vector being a no-op; when no pop
    meets an empty vector that is the pushes minus the pops. *)
Theorem C4_push_pop_sequence st cs :
  Forall push_ok cs →
  ∃ this st' p cap,
    (this ← Vector.ctor_default; run_cmds this cs ;; mret this) st
    = Ok this st' ∧
    owns st' this p (replay cs) cap ∧
    Vector.Size this st' = Ok (pushes cs - effective_pops cs) st' ∧
    (never_empty_pop 0 cs →
       Vector.Size this st' = Ok (pushes cs - pops cs) st') ∧
    (∀ i x, replay cs !! i = Some x →
       (r ← Vector.at_ this i; load r) st' = Ok x st').
Proof.
  intros Hcs.
  destruct (ctor_default_owns st) as [Hctor Hown0]. cbn zeta in *.
  destruct (run_cmds_owns _ _ _ [] _ cs Hown0) as (st' & p' & cap' & Hrun & Hown');
    [done..|].
  exists (fresh (dom (objs st))), st', p', cap'.
  assert (Vector.Size (fresh (dom (objs st))) st'
          = Ok (pushes cs - effective_pops cs) st') as Hsize.
  { erewrite Size_owned by done. do 2 f_equal.
    pose proof (replay_from_length [] cs). unfold replay, effective_pops.
    cbn in *. lia. }
  split; [unfold mbind, M_bind; by rewrite Hctor, Hrun|].
  split; [done|]. split; [done|]. split.
  - intros Hne. rewrite Hsize. unfold effective_pops.
    by rewrite never_empty_pop_effective.
  - intros i x Hx. destruct (at_owned _ _ _ _ _ _ _ Hown' Hx) as [Hat Hload].
    unfold mbind, M_bind. by rewrite Hat.
Qed.

(** C5.  After the copy assignment [a = b] of two vectors, no copy
    throwing, [a.Size() == b.Size()] and [a] holds the elements of [b],
    which is unchanged; the run ends normally, so no slot was
    constructed over or destroyed twice.  The self-assignment [c = c]
    leaves the whole state as it was: no element is constructed,
    assigned or destroyed. *)
Theorem C5_copy_assignment :
  (∀ st a b pa xs ca pb ys cb,
     a ≠ b →
     owns st a pa xs ca → owns st b pb ys cb → separate pa pb →
     Forall (λ y, copy_throws y = false) ys →
     Forall (λ y, assign_throws y = false) ys →
     ∃ st' pa' ca',
       Vector.assign_copy a b st = Ok () st' ∧
       owns st' a pa' ys ca' ∧ owns st' b pb ys cb ∧
       Vector.Size a st' = Ok (length ys) st' ∧
       Vector.Size b st' = Ok (length ys) st') ∧
  (∀ st c, Vector.assign_copy c c st = Ok () st).
Proof.
  split.
  - intros st a b pa xs ca pb ys cb Hne Ha Hb Hsep Hcopy Hassign.
    destruct (assign_copy_owns _ _ _ _ _ _ _ _ _ Hne Ha Hb Hsep Hcopy Hassign)
      as (st' & pa' & ca' & Hrun & Ha' & Hb' & _).
    exists st', pa', ca'. split; [done|]. split; [done|]. split; [done|].
    split; by eapply Size_owned.
  - intros st c. apply assign_copy_self.
Qed.

(** C6.  The source of a move construction is left empty, with
    [Size() == 0] and [Capacity() == 0], and the new vector holds what
    the source held; no element is constructed, copied or destroyed
    and nothing throws.  A move assignment swaps the two vectors: its
    source is left with what the destination held, and is empty only
    when the destination was; on self-assignment it does nothing. *)
Theorem C6_move_leaves_source :
  (∀ st other p xs cap,
     owns st other p xs cap →
     ∃ this st',
       Vector.ctor_move other st = Ok this st' ∧
       this ≠ other ∧
       owns st' this p xs cap ∧ owns st' other Null [] 0 ∧
       Vector.Size other st' = Ok 0 st' ∧
       heap st' = heap st ∧ trace st' = trace st) ∧
  (∀ st this rhs pa xs ca pb ys cb,
     this ≠ rhs →
     owns st this pa xs ca → owns st rhs pb ys cb →
     ∃ st',
       Vector.assign_move this rhs st = Ok () st' ∧
       owns st' this pb ys cb ∧ owns st' rhs pa xs ca ∧
       Vector.Size rhs st' = Ok (length xs) st' ∧
       heap st' = heap st ∧ trace st' = trace st) ∧
  (∀ st this, Vector.assign_move this this st = Ok () st).
Proof.
  split; [|split].
  - intros st other p xs cap Hown.
    set (this := fresh (dom (objs st))).
    assert (objs st !! this = None) as Hfresh by apply fresh_object.
    destruct (owns_inv _ _ _ _ _ Hown) as (Ho & Hle & Hp & _).
    assert (this ≠ other) by congruence.
    pose proof (ctor_move_objs _ _ _ Ho) as Hrun. cbn zeta in Hrun.
    fold this in Hrun. eexists this, _. split; [exact Hrun|].
    split; [done|].
    match goal with |- _ ∧ ?P ∧ _ => assert P as Hsrc end.
    { split; [|done]. vec_simpl. by rewrite lookup_insert_eq. }
    split; [|split; [done|split; [exact (Size_owned _ _ _ _ _ Hsrc)|done]]].
    split; [|done]. vec_simpl.
    rewrite lookup_insert_ne by done. by rewrite lookup_insert_eq.
  - intros st this rhs pa xs ca pb ys cb Hne Ha Hb.
    destruct (owns_inv _ _ _ _ _ Ha) as (Hoa & Hlea & Hpa & _).
    destruct (owns_inv _ _ _ _ _ Hb) as (Hob & Hleb & Hpb & _).
    pose proof (assign_move_objs _ _ _ _ _ Hne Hoa Hob) as Hrun.
    eexists. split; [exact Hrun|].
    match goal with |- _ ∧ ?P ∧ _ => assert P as Hsrc end.
    { split; [|done]. vec_simpl. by rewrite lookup_insert_eq. }
    split; [|split; [done|split; [exact (Size_owned _ _ _ _ _ Hsrc)|done]]].
    split; [|done]. vec_simpl.
    rewrite lookup_insert_ne by done. by rewrite lookup_insert_eq.
  - intros st this. apply assign_move_self.
Qed.

(** C7.  [Capacity() >= Size()] is kept by every operation: from a
    store in which every vector has its size within its capacity, an
    operation called within its contract ends, normally or by an
    exception, in such a store again, and unless the operation is a
    move assignment or [Swap] the capacity of the vector has not
    decreased; a constructor ends in such a store, with the new vector
    in it when it returns. *)
Theorem C7_size_within_capacity :
  (∀ st this V op,
     objs st !! this = Some V → store_inv st → in_contract (size_ V) op →
     let kept st' :=
       store_inv st' ∧
       (is_move_or_swap op = false →
          ∃ V', objs st' !! this = Some V' ∧
                capacity_ (data_ V) ≤ capacity_ (data_ V')) in
     wp True (run_operation this op) (λ _, kept) kept st) ∧
  (∀ st c,
     store_inv st →
     wp True (run_construction c)
       (λ this st', store_inv st' ∧ is_Some (objs st' !! this))
       store_inv st).
Proof.
  split.
  - intros st this V op HV Hinv Hc kept.
    assert (size_le_capacity V) as Hle by by eapply Hinv.
    assert (∀ st', evolved st this V st' → kept st') as Hev.
    { intros st' Hev. split; [by eapply store_inv_evolved|].
      destruct Hev as (V' & Ho & _ & Hcap). intros _. exists V'.
      by rewrite Ho, lookup_insert_eq. }
    assert (∀ st', objs st' = objs st → kept st') as Hrefl.
    { intros st' Ho. apply Hev. by eapply evolved_refl. }
    assert (∀ st', (∃ A B other, objs st !! this = Some A ∧
                      objs st !! other = Some B ∧
                      objs st' = <[other := A]> (<[this := B]> (objs st))) →
                   is_move_or_swap op = true → kept st') as Hswap.
    { intros st' (A & B & other & HA & HB & Ho) Hop. split; [|congruence].
      intros v W. rewrite Ho, !lookup_insert.
      repeat case_decide; try (intros [= <-]); [by eapply Hinv..|apply Hinv]. }
    destruct op; cbn [run_operation is_move_or_swap in_contract] in *.
    + eapply wp_mono; [by apply assign_copy_store|..]; auto.
    + unfold Vector.assign_move. case_decide; [|by apply wp_ret, Hrefl].
      eapply wp_mono; [apply Swap_store|..]; [|done]. cbn beta.
      intros _ st' (A & B & ?). apply Hswap; [|done]. by exists A, B, rhs.
    + eapply wp_mono; [apply Swap_store|..]; [|done]. cbn beta.
      intros _ st' (A & B & ?). apply Hswap; [|done]. by exists A, B, other.
    + keepq st' Ho. by apply Hrefl.
    + keepq st' Ho. by apply Hrefl.
    + keepq st' Ho. by apply Hrefl.
    + keepq st' Ho. by apply Hrefl.
    + unfold Vector.at_. keepq st' Ho. by apply Hrefl.
    + apply wp_bind. eapply wp_mono; [by apply Emplace_store|..]; auto.
    + apply wp_bind. eapply wp_mono; [by apply Erase_store|..]; auto.
    + apply wp_bind. eapply wp_mono; [by apply Emplace_store|..]; auto.
    + apply wp_bind. eapply wp_mono; [by apply Emplace_store|..]; auto.
    + eapply wp_mono; [apply Reserve_store|..]; cbn beta.
      * intros _ st' (V1 & HV1 & [[_ Ho]|[Hlt [buf Ho]]]); simplify_eq.
        -- by apply Hrefl.
        -- apply Hev. eexists. split; [done|].
           unfold size_le_capacity in *. cbn. lia.
      * done.
    + eapply wp_mono; [by apply Resize_store|..]; auto.
    + apply wp_bind. eapply wp_mono; [by apply EmplaceBack_store|..]; auto.
    + apply wp_bind. eapply wp_mono; [by apply EmplaceBack_store|..]; auto.
    + eapply wp_mono; [by apply PopBack_store|..]; auto.
    + apply wp_bind. eapply wp_mono; [by apply EmplaceBack_store|..]; auto.
  - intros st c Hinv. destruct c; cbn [run_construction].
    + apply wp_new_vec. cbn zeta. split.
      * intros v W. cbn [objs]. rewrite lookup_insert.
        case_decide; [intros [= <-]; by unfold size_le_capacity|]. apply Hinv.
      * cbn [objs]. by rewrite lookup_insert_eq.
    + by apply ctor_size_store.
    + by apply ctor_copy_store.
    + by apply ctor_move_store.
Qed.
End claims.

(** * Concrete runs *)

Ltac owns_concrete :=
  split; [vm_compute; reflexivity|];
  split; [vm_compute; lia|];
  vm_compute; repeat split.

Lemma store_inv_concrete {T} (st : state T) :
  map_Forall (λ _ V, size_le_capacity V) (objs st) → store_inv st.
Proof. intros H v V HV. by eapply H. Qed.

Section int_runs.
Local Existing Instance int_element.

(** C8.  A vector of 2^31 elements with one free slot, and
    [Insert(end(), 7)]: the value is appended in place, and the
    position to return is [begin() + offset] with [offset] the [int]
    that 2^31 converts to, which is -2^31: a position before the
    buffer, not the position of the new element.  Neither [Insert]
    nor [Erase] at what it returns has a defined result, and the
    vector is not restored. *)
Theorem C8_Insert_wraps_at_two_pow_31 :
  owns huge_vector 0 (Ptr 0 0) (replicate two_pow_31 0) (S two_pow_31) ∧
  int_of_Z (Z.of_nat two_pow_31) = (- 2 ^ 31)%Z ∧
  Vector.Insert 0 (Ptr 0 two_pow_31) 7 huge_vector = Fault ∧
  (r ← Vector.Insert 0 (Ptr 0 two_pow_31) 7; Vector.Erase 0 r) huge_vector
  = Fault.
Proof.
  assert (length (replicate two_pow_31 0) = two_pow_31) as Hlen
    by apply length_replicate.
  assert (int_of_Z (Z.of_nat two_pow_31) = (- 2 ^ 31)%Z) as Hint.
  { unfold two_pow_31. rewrite Z2Nat.id by lia. reflexivity. }
  assert (Vector.Insert 0 (Ptr 0 two_pow_31) 7 huge_vector = Fault) as Hrun.
  { unfold Vector.Insert, Vector.copy_of. cbn [copy_throws int_element].
    rewrite <- Hlen at 1.
    apply (Emplace_spare_end_wraps huge_vector 0 0 _ (S two_pow_31)).
    - rewrite Hlen. apply lookup_singleton_eq.
    - apply lookup_singleton_eq.
    - rewrite Hlen. lia.
    - rewrite Hlen, Hint. lia. }
  split; [|split; [exact Hint|split; [exact Hrun|]]].
  - split; [|split].
    + rewrite Hlen. apply lookup_singleton_eq.
    + rewrite Hlen. lia.
    + split; [reflexivity|]. apply lookup_singleton_eq.
  - unfold mbind, M_bind. rewrite Hrun. reflexivity.
Qed.

(** A [PopBack] on the empty vector counts as a pop and removes
    nothing: after one pop and one push the size is 1, not 1 - 1. *)
Lemma C4_counterexample :
  ∃ st',
    (this ← Vector.ctor_default;
     run_cmds this [Pop; Push 7] ;;
     Vector.Size this) empty_state = Ok 1 st' ∧
    1 ≠ pushes [Pop; Push 7] - pops [@Pop nat; Push 7].
Proof. eexists. split; [vm_compute; reflexivity|cbn; lia]. Qed.

(** After [a = std::move(b)] with [a] holding [{1}] and [b] holding
    [{2}], the source [b] holds [{1}]: its size is 1, not 0. *)
Lemma C6_counterexample :
  ∃ st',
    (a ← Vector.ctor_default;
     Vector.PushBack a 1 ;;
     b ← Vector.ctor_default;
     Vector.PushBack b 2 ;;
     Vector.assign_move a b ;;
     Vector.Size b) empty_state = Ok 1 st' ∧
    1 ≠ 0.
Proof. eexists. split; [vm_compute; reflexivity|lia]. Qed.

Lemma C2_witness :
  owns one_of_two 0 (Ptr 0 0) [10] 2 ∧
  Vector.EmplaceBack 0 None one_of_two = Throw one_of_two.
Proof.
  assert (owns one_of_two 0 (Ptr 0 0) [10] 2) as Hown by owns_concrete.
  split; [exact Hown|].
  apply (C2_EmplaceBack_construction_order _ _ _ _ _ Hown).
  cbn. lia.
Defined.

Lemma C3_witness :
  ∃ this st' p',
    (this ← Vector.ctor_default;
     push_all this [1; 2; 3] ;; mret this) empty_state
    = Ok this st' ∧
    owns st' this p' [1; 2; 3] 4.
Proof.
  destruct (proj1 (proj2 (proj2 (proj2 (C3_growth_doubles))))
              empty_state [1; 2; 3])
    as (this & st' & p' & Hrun & Hown & _).
  { repeat constructor. }
  exists this, st', p'. split; [exact Hrun|exact Hown].
Defined.

Lemma C4_witness :
  Forall (push_ok) [Push 1; Pop; Push 2; Push 3] ∧
  ∃ this st' p cap,
    (this ← Vector.ctor_default;
     run_cmds this [Push 1; Pop; Push 2; Push 3] ;;
     mret this) empty_state = Ok this st' ∧
    owns st' this p [2; 3] cap.
Proof.
  assert (Forall (push_ok) [Push 1; Pop; Push 2; Push 3])
    as Hok by (repeat constructor).
  split; [exact Hok|].
  destruct (C4_push_pop_sequence empty_state _ Hok)
    as (this & st' & p & cap & Hrun & Hown & _).
  exists this, st', p, cap. split; [exact Hrun|exact Hown].
Defined.

Lemma C6_witness :
  ∃ this st',
    Vector.ctor_move (T:=nat) 1 two_vectors = Ok this st' ∧
    owns st' this (Ptr 1 0) [2] 1 ∧ owns st' 1 Null [] 0.
Proof.
  destruct (proj1 (C6_move_leaves_source)
              two_vectors 1 (Ptr 1 0) [2] 1)
    as (this & st' & Hrun & _ & Hthis & Hother & _).
  - owns_concrete.
  - exists this, st'. split; [exact Hrun|]. split; [exact Hthis|exact Hother].
Defined.
End int_runs.

Section unlucky_runs.
Local Existing Instance unlucky_element.

(** C1.  A vector holding [{10}] with capacity 2, and
    [Insert(begin(), 13)] for an element type whose copy constructor
    throws on 13: building the temporary throws, and the handler of
    [Emplace] hands [end()], the address of the second slot of the
    block, to [operator delete].  That address was never returned by
    [operator new], so the call has no defined behaviour, and the
    vector is not left as it was. *)
Theorem C1_Emplace_throwing_constructor :
  (this ← Vector.ctor_default;
   Vector.Reserve this 2 ;;
   Vector.PushBack this 10 ;;
   pos ← Vector.begin this;
   Vector.Insert this pos 13) empty_state = Fault.
Proof. vm_compute. reflexivity. Qed.

Lemma C5_witness :
  ∃ st' pa' ca',
    Vector.assign_copy 0 1 two_vectors = Ok () st' ∧
    owns st' 0 pa' [2] ca' ∧ owns st' 1 (Ptr 1 0) [2] 1.
Proof.
  destruct (proj1 (C5_copy_assignment)
              two_vectors 0 1 (Ptr 0 0) [1] 1 (Ptr 1 0) [2] 1)
    as (st' & pa' & ca' & Hrun & Ha & Hb & _).
  - done.
  - owns_concrete.
  - owns_concrete.
  - by right.
  - repeat constructor.
  - repeat constructor.
  - exists st', pa', ca'. split; [exact Hrun|]. split; [exact Ha|exact Hb].
Defined.

Lemma C7_witness :
  store_inv two_of_two ∧
  wp True (run_operation 0 (OpPushBack 30))
    (λ _ st', store_inv st' ∧
       ∃ V', objs st' !! 0 = Some V' ∧ 2 ≤ capacity_ (data_ V'))
    (λ st', store_inv st' ∧
       ∃ V', objs st' !! 0 = Some V' ∧ 2 ≤ capacity_ (data_ V'))
    two_of_two.
Proof.
  assert (store_inv two_of_two) as Hinv.
  { apply store_inv_concrete. apply map_Forall_singleton.
    unfold size_le_capacity. cbn. lia. }
  split; [exact Hinv|].
  pose proof (proj1 (C7_size_within_capacity)
                two_of_two 0 _ (OpPushBack 30) eq_refl Hinv I) as H.
  cbn zeta in H. eapply wp_mono; [exact H|..]; cbn beta.
  - intros _ st' [? Hcap]. split; [done|]. by apply Hcap.
  - intros st' [? Hcap]. split; [done|]. by apply Hcap.
Defined.


Lemma C10_witness :
  owns two_of_two 0 (Ptr 0 0) [10; 20] 2 ∧
  Forall (λ x, copy_throws x = false) [10; 20] ∧
  ∃ r st' n,
    Vector.EmplaceBack 0 (Some 30) two_of_two = Ok r st' ∧
    Vector.Size 0 st' = Ok n st' ∧ n = 3 ∧
    Vector.at_ 0 (n - 1) st' = Ok r st' ∧
    load r st' = Ok 30 st'.
Proof.
  assert (owns two_of_two 0 (Ptr 0 0) [10; 20] 2) as Hown by owns_concrete.
  assert (Forall (λ x, copy_throws x = false) [10; 20])
    as Hok by (repeat constructor).
  split; [exact Hown|]. split; [exact Hok|].
  apply (C10_EmplaceBack_returns_new_last _ _ _ _ _ 30 Hown).
  intros _ _. exact Hok.
Defined.
End unlucky_runs.

(** * Further properties of the operations *)

Section extras.
Context {T : Type} {ET : Element T}.
Implicit Types (st : state T) (xs : list T).

(** X1. [Erase(pos)] at the position of an element, at an offset
    from [begin()] that an [int] holds, removes that element and no
    other: the elements before it stay, those after it
    are moved one slot down by move assignment in increasing order of
    address, the last slot is destroyed, buffer and capacity are what
    they were, and the iterator returned is [pos]. *)
Theorem X1_Erase_removes_one st this p xs1 x xs2 cap :
  owns st this p (xs1 ++ x :: xs2) cap →
  fits_int (length xs1) →
  ∃ st',
    Vector.Erase this (p +ₚ length xs1) st = Ok (p +ₚ length xs1) st' ∧
    owns st' this p (xs1 ++ xs2) cap ∧
    trace st'
    = trace st
        ++ transfer_events EvMoveAssign
             (p +ₚ S (length xs1)) (p +ₚ length xs1) (length xs2)
        ++ [EvDestroy (p +ₚ length (xs1 ++ xs2))].
Proof.
  intros Hown Hfit.
  destruct (owns_block _ _ _ _ _ Hown) as (b & -> & Hb).
  { destruct Hown as (_ & Hle & _). rewrite length_app in Hle. cbn in Hle. lia. }
  destruct Hown as (Ho & Hle & _). cbn [ptr_add Nat.add].
  eexists. split; [by apply (Erase_at _ _ _ _ x)|]. split; [|done].
  apply owns_intro; vec_simpl; [by rewrite lookup_insert_eq..|].
  rewrite !length_app in *. cbn in Hle. lia.
Qed.

(** X2. [Erase(end())] on a vector of fewer than 2^31 elements has no
    defined behaviour, on an empty vector as on any other: the range handed to [std::move] starts one past
    its end, and there is no last element to destroy. *)
Theorem X2_Erase_at_end_undefined st this p xs cap :
  owns st this p xs cap →
  fits_int (length xs) →
  Vector.Erase this (p +ₚ length xs) st = Fault.
Proof.
  intros Hown Hfit.
  cut (wp True (Vector.Erase this (p +ₚ length xs))
         (λ _ _, False) (λ _, False) st).
  { unfold wp. by destruct (Vector.Erase _ _ _). }
  destruct p as [|b i].
  - destruct (owns_null _ _ _ _ Hown) as [-> ->].
    destruct Hown as (Ho & _). unfold Vector.Erase.
    wp_read. cbn [ptr_diff]. rewrite int_of_Z_fits by done. cbn zeta.
    wp_offset. do 2 wp_read. wp_offset. apply wp_bind, wp_ret.
    wp_read. done.
  - destruct (owns_inv _ _ _ _ _ Hown) as (Ho & Hle & _ & Hi).
    rewrite (Hi _ _ eq_refl) in *. cbn [ptr_add Nat.add]. unfold Vector.Erase.
    wp_read. rewrite ptr_diff_0, int_of_Z_fits by done. cbn zeta.
    wp_offset. do 2 wp_read. wp_offset.
    unfold move, ptr_diff. rewrite decide_False by lia. done.
Qed.

(** X3. [PushBack(v)] followed by [PopBack()] gives back the elements
    the vector had; the capacity has not decreased, and with spare
    capacity neither it nor the buffer has changed. *)
Theorem X3_PushBack_then_PopBack st this p xs cap v :
  owns st this p xs cap →
  copy_throws v = false →
  (length xs = cap → Vector.use_move = false →
     Forall (λ x, copy_throws x = false) xs) →
  ∃ st' p' cap',
    (Vector.PushBack this v ;; Vector.PopBack this) st = Ok () st' ∧
    owns st' this p' xs cap' ∧ cap ≤ cap' ∧
    (length xs < cap → p' = p ∧ cap' = cap).
Proof.
  intros Hown Hv Hok.
  destruct (EmplaceBack_owns _ _ _ _ _ v Hown Hok)
    as (st1 & p1 & Hrun & Hown1 & Hp1).
  destruct (PopBack_owns _ _ _ _ _ Hown1) as (st' & Hpop & Hown').
  rewrite removelast_last in Hown'.
  eexists st', p1, _. split; [|split; [exact Hown'|]].
  - unfold Vector.PushBack, Vector.copy_of. rewrite Hv.
    unfold mbind, M_bind. rewrite Hrun. exact Hpop.
  - destruct Hown as (_ & Hle & _). unfold grown.
    split; [repeat case_decide; lia|].
    intros Hlt. split; [by apply Hp1|]. by rewrite decide_True.
Qed.

(** X4. Appends that fit in the capacity never reallocate: after
    [Reserve], [PushBack] of as many values as there are free slots
    leaves the buffer, and so every iterator and reference, as it was;
    each value is constructed in its slot and nothing else happens. *)
Theorem X4_appends_within_capacity st this p xs cap vs :
  owns st this p xs cap →
  length xs + length vs ≤ cap →
  Forall (λ v, copy_throws v = false) vs →
  ∃ st',
    push_all this vs st = Ok () st' ∧
    owns st' this p (xs ++ vs) cap ∧
    trace st'
    = trace st ++ ((λ i, EvConstruct (p +ₚ i)) <$> seq (length xs) (length vs)).
Proof.
  intros Hown Hle Hvs. revert st xs Hown Hle.
  induction Hvs as [|v vs Hv Hvs IH]; intros st xs Hown Hle.
  - exists st. cbn. by rewrite !app_nil_r.
  - cbn [length] in Hle.
    destruct (owns_block _ _ _ _ _ Hown) as (b & -> & Hb); [lia|].
    pose proof Hown as (Ho & _ & _).
    pose proof (EmplaceBack_spare _ _ _ _ _ v Ho Hb ltac:(lia)) as Hrun.
    set (st1 := St _ _ _) in Hrun.
    assert (owns st1 this (Ptr b 0) (xs ++ [v]) cap) as Hown1.
    { apply owns_intro; subst st1; vec_simpl.
      - rewrite lookup_insert_eq, length_app. cbn. by rewrite Nat.add_1_r.
      - by rewrite lookup_insert_eq.
      - rewrite length_app. cbn. lia. }
    destruct (IH st1 (xs ++ [v]) Hown1) as (st' & Hrun' & Hown' & Htr).
    { rewrite length_app. cbn. lia. }
    exists st'. split; [|split].
    + cbn [push_all]. unfold Vector.PushBack, Vector.copy_of. rewrite Hv.
      unfold mbind, M_bind. rewrite Hrun. exact Hrun'.
    + by rewrite <- app_assoc in Hown'.
    + rewrite Htr. subst st1. vec_simpl.
      rewrite length_app, Nat.add_1_r. cbn [length seq fmap list_fmap].
      by rewrite <- app_assoc.
Qed.


(** X6. [Swap] exchanges the buffers, capacities and sizes of two
    vectors and touches no element; swapping twice, and swapping a
    vector with itself, leave the state as it was. *)
Theorem X6_Swap st this other pa xs ca pb ys cb :
  owns st this pa xs ca → owns st other pb ys cb →
  (this ≠ other →
     ∃ st',
       Vector.Swap this other st = Ok () st' ∧
       owns st' this pb ys cb ∧ owns st' other pa xs ca ∧
       heap st' = heap st ∧ trace st' = trace st) ∧
  (Vector.Swap this other ;; Vector.Swap this other) st = Ok () st ∧
  Vector.Swap this this st = Ok () st.
Proof.
  intros Ha Hb.
  pose proof Ha as (Hoa & Hlea & Hpa). pose proof Hb as (Hob & Hleb & Hpb).
  pose proof (Swap_objs _ _ _ _ _ Hoa Hob) as Hrun.
  split; [|split].
  - intros Hne. eexists. split; [exact Hrun|].
    split; [|split; [|done]].
    + split; [|done]. vec_simpl.
      by rewrite lookup_insert_ne, lookup_insert_eq.
    + split; [|done]. vec_simpl. by rewrite lookup_insert_eq.
  - unfold mbind, M_bind at 1. rewrite Hrun.
    destruct (decide (this = other)) as [->|Hne].
    + rewrite (Swap_objs _ other other (Vec (RawMem pa ca) (length xs))
                 (Vec (RawMem pa ca) (length xs)));
        vec_simpl; [|by rewrite lookup_insert_eq..].
      destruct st as [h o tr]. cbn in *. do 2 f_equal.
      rewrite !insert_insert_eq. by rewrite insert_id.
    + rewrite (Swap_objs _ this other (Vec (RawMem pb cb) (length ys))
                 (Vec (RawMem pa ca) (length xs)));
        vec_simpl;
        [|by rewrite lookup_insert_ne, lookup_insert_eq
         |by rewrite lookup_insert_eq].
      destruct st as [h o tr]. cbn in *. do 2 f_equal.
      apply map_eq. intros k.
      destruct (decide (k = other)) as [->|]; [by rewrite lookup_insert_eq|].
      rewrite lookup_insert_ne by done.
      destruct (decide (k = this)) as [->|]; [by rewrite lookup_insert_eq|].
      by rewrite !lookup_insert_ne by done.
  - rewrite (Swap_objs _ _ _ _ _ Hoa Hoa).
    destruct st as [h o tr]. cbn in *. do 2 f_equal.
    by rewrite insert_insert_eq, insert_id.
Qed.

(** X8. [begin()], [end()] and [operator[]]: [end() - begin()] is
    [Size()], [operator[]] with an index below [Size()] denotes the
    slot [begin() + index], which holds the element of that index, and
    with any other index its assertion fails. *)
Theorem X8_iterators_and_index st this p xs cap :
  owns st this p xs cap →
  Vector.begin this st = Ok p st ∧
  Vector.end_ this st = Ok (p +ₚ length xs) st ∧
  ptr_diff (p +ₚ length xs) p = Some (length xs) ∧
  (∀ i x, xs !! i = Some x →
     Vector.at_ this i st = Ok (p +ₚ i) st ∧ load (p +ₚ i) st = Ok x st) ∧
  (∀ i, length xs ≤ i → Vector.at_ this i st = Fault).
Proof.
  intros Hown.
  split; [by eapply begin_owned|]. split; [by eapply end_owned|].
  split; [by eapply ptr_diff_owned|]. split.
  - intros i x Hx. by eapply at_owned.
  - intros i Hi. destruct Hown as (Ho & _).
    unfold Vector.at_, get_size, get_vec, mbind, M_bind. rewrite Ho.
    cbn. by rewrite bool_decide_false by lia.
Qed.

(** X7. A vector that is default-constructed, taken through any
    sequence of [PushBack] and [PopBack] and then destroyed leaves
    nothing behind: every block it allocated along the way has been
    released, and the heap and the other vectors are what they were
    before it was constructed. *)
Theorem X7_lifetime_leaves_nothing st cs :
  Forall push_ok cs →
  ∃ st',
    (this ← Vector.ctor_default;
     run_cmds this cs ;;
     Vector.dtor this) st = Ok () st' ∧
    heap st' = heap st ∧ objs st' = objs st.
Proof.
  intros Hcs.
  destruct (ctor_default_owns st) as [Hctor Hown0].
  set (this := fresh (dom (objs st))) in *.
  set (st0 := St _ _ _) in *.
  destruct (run_cmds_rest _ _ _ _ _ cs Hown0) as
    (st1 & p1 & cap1 & Hrun & Hown1 & Hheap & Hobjs); [done..|].
  eexists. split; [|split].
  - unfold mbind, M_bind. rewrite Hctor, Hrun.
    by rewrite (dtor_owned _ _ _ _ _ Hown1).
  - vec_simpl. by rewrite Hheap.
  - vec_simpl. rewrite Hobjs. subst st0. vec_simpl.
    rewrite delete_insert_eq. apply delete_id, fresh_object.
Qed.

(** X9. [Resize(n)] with [n <= Size()] keeps the first [n] elements
    and destroys the others in increasing order of address; buffer and
    capacity stay, and with [n == Size()] nothing happens at all. *)
Theorem X9_Resize_shrinks st this p xs cap n :
  owns st this p xs cap → n ≤ length xs →
  ∃ st',
    Vector.Resize this n st = Ok () st' ∧
    owns st' this p (take n xs) cap ∧
    trace st' = trace st ++ destroy_events (p +ₚ n) (length xs - n) ∧
    same_rest st st' this p p ∧
    (n = length xs → st' = st).
Proof.
  intros Hown Hn.
  destruct (decide (n = length xs)) as [->|Hne].
  - exists st. rewrite firstn_all, Nat.sub_diag.
    split; [|split; [done|split; [|done]]].
    + destruct Hown as (Ho & _). apply wp_Ok_eq. unfold Vector.Resize.
      wp_read. rewrite decide_True by done. by apply wp_ret.
    + destruct p; cbn; by rewrite app_nil_r.
  - destruct (owns_block _ _ _ _ _ Hown) as (b & -> & Hb).
    { destruct Hown as (_ & ? & _). lia. }
    destruct Hown as (Ho & Hle & _).
    assert (slots_of xs cap
            = (Some <$> take n xs) ++ (Some <$> drop n xs)
                ++ replicate (cap - length xs) None) as Hsl.
    { unfold slots_of. rewrite <- (take_drop n xs) at 1.
      by rewrite fmap_app, <- app_assoc. }
    rewrite Hsl in Hb.
    assert (length (take n xs) = n) as Hlt by (rewrite length_take; lia).
    eexists. split; [|split; [|split; [|split; [|lia]]]].
    + apply wp_Ok_eq. unfold Vector.Resize.
      wp_read. rewrite decide_False by lia. apply wp_bind.
      rewrite decide_True by lia. wp_read.
      eapply wp_run.
      { eapply (destroy_n_block _ b n (length xs - n) _ (drop n xs));
          [exact Hb|by rewrite length_fmap|by rewrite length_drop]. }
      eapply wp_set_size; [vec_simpl; exact Ho|]. vec_simpl.
      split; reflexivity.
    + apply owns_intro; vec_simpl.
      * by rewrite lookup_insert_eq, Hlt.
      * rewrite lookup_insert_eq. f_equal. unfold slots_of.
        rewrite Hlt, <- replicate_add. do 2 f_equal. lia.
      * lia.
    + done.
    + split; vec_simpl; cbn [release]; by rewrite delete_insert_eq.
Qed.




(** X13. [Vector(n)] for an element type whose value initialisation
    throws, [n > 0]: the exception propagates, the block allocated is
    released, and no vector comes to exist: heap and store are what
    they were. *)
Theorem X13_ctor_size_throws st n :
  value_init = None → 0 < n →
  ∃ st',
    Vector.ctor_size n st = Throw st' ∧
    heap st' = heap st ∧ objs st' = objs st.
Proof.
  intros Hd Hn. destruct n as [|n]; [lia|].
  set (b := fresh (dom (heap st))).
  assert (heap st !! b = None) as Hb by apply fresh_block.
  exists (St (heap st) (objs st) (trace st ++ [EvNew b (S n)] ++ [EvDelete b])).
  split; [|done].
  apply wp_Throw_eq. unfold Vector.ctor_size.
  apply wp_bind, wp_RawMemory_ctor; [lia|]. fold b. cbn zeta.
  apply wp_bind, wp_unwinding. vec_simpl.
  eapply wp_run.
  { eapply (uninitialized_value_construct_n_throw _ b 0 n);
      [exact Hd|vec_simpl; by rewrite lookup_insert_eq|done]. }
  apply (wp_RawMemory_dtor _ _ _ (replicate (S n) None));
    [split; [done|]; vec_simpl; by rewrite lookup_insert_eq|].
  cbn [release release_events]. vec_simpl.
  by rewrite delete_insert_id, <- app_assoc.
Qed.

(** X14. The copy constructor makes a vector with the elements of the
    source on a block of its own, of capacity the size of the source
    (not its capacity), copy-constructing the elements in increasing
    order of address; the source and everything else stay. *)
Theorem X14_ctor_copy st other p xs cap :
  owns st other p xs cap →
  Forall (λ x, copy_throws x = false) xs →
  ∃ this st' p',
    Vector.ctor_copy other st = Ok this st' ∧
    objs st !! this = None ∧
    owns st' this p' xs (length xs) ∧
    owns st' other p xs cap ∧
    separate p' p ∧
    release p' (heap st') = heap st ∧
    delete this (objs st') = objs st ∧
    trace st'
    = trace st ++ alloc_events p' (length xs)
        ++ transfer_events EvCopyCtor p p' (length xs).
Proof.
  intros Hown Hok.
  destruct (ctor_copy_owns _ _ _ _ _ Hown Hok)
    as (this & st' & p' & Hrun & Hnew & Hthis & Hother & Hsep & Hh & Ho).
  exists this, st', p'.
  do 7 (split; [done|]).
  destruct xs as [|x xs].
  - destruct Hown as (Hobj & _).
    assert (Vector.ctor_copy other st
            = Ok (fresh (dom (objs st)))
                 (St (heap st)
                     (<[fresh (dom (objs st)) := Vec (RawMem Null 0) 0]> (objs st))
                     (trace st))) as Hrun'.
    { apply wp_Ok_eq. unfold Vector.ctor_copy.
      wp_read. cbn [length].
      apply wp_bind, wp_RawMemory_ctor_0. apply wp_bind, wp_unwinding.
      apply wp_ret. by apply wp_new_vec. }
    rewrite Hrun' in Hrun. injection Hrun as <- <-.
    destruct Hthis as (Hobj' & _). cbn [objs] in Hobj'.
    rewrite lookup_insert_eq in Hobj'. injection Hobj' as <-.
    cbn. by rewrite app_nil_r.
  - destruct (owns_block _ _ _ _ _ Hown) as (a & -> & Ha).
    { destruct Hown as (_ & ? & _). cbn in *. lia. }
    destruct Hown as (Hobj & _).
    pose proof (ctor_copy_nonempty _ _ a (x :: xs) cap Hobj Ha
                  ltac:(cbn; lia) Hok) as Hrun'.
    cbn zeta in Hrun'. rewrite Hrun' in Hrun. injection Hrun as <- <-.
    destruct Hthis as (Hobj' & _). cbn [objs] in Hobj'.
    rewrite lookup_insert_eq in Hobj'. injection Hobj' as <-.
    done.
Qed.

(** X15. When the copy of an element throws in the copy constructor,
    the copies made before it, which were made in increasing order of
    address, are destroyed in that order, the block is released and no
    vector comes to exist: heap and store are what they were. *)
Theorem X15_ctor_copy_throws st other p xs1 x xs2 cap :
  owns st other p (xs1 ++ x :: xs2) cap →
  Forall (λ y, copy_throws y = false) xs1 → copy_throws x = true →
  let b' := fresh (dom (heap st)) in
  ∃ st',
    Vector.ctor_copy other st = Throw st' ∧
    heap st' = heap st ∧ objs st' = objs st ∧
    trace st'
    = trace st ++ [EvNew b' (length (xs1 ++ x :: xs2))]
        ++ transfer_events EvCopyCtor p (Ptr b' 0) (length xs1)
        ++ destroy_events (Ptr b' 0) (length xs1)
        ++ [EvDelete b'].
Proof.
  intros Hown Hpre Hx b'.
  pose proof (ctor_copy_throw_exact _ _ _ _ _ _ _ Hown Hpre Hx) as Hrun.
  cbn zeta in Hrun. fold b' in Hrun.
  eexists. split; [exact Hrun|]. by do 2 (split; [done|]).
Qed.

(** X16. Copy assignment from a source larger than the capacity gives
    the strong exception guarantee: when copying an element of the
    source throws, both vectors and the heap are what they were. *)
Theorem X16_assign_copy_strong_guarantee st this rhs pa xs ca pb ys cb :
  this ≠ rhs →
  owns st this pa xs ca → owns st rhs pb ys cb →
  ca < length ys →
  Exists (λ y, copy_throws y = true) ys →
  ∃ st',
    Vector.assign_copy this rhs st = Throw st' ∧
    heap st' = heap st ∧ objs st' = objs st ∧
    owns st' this pa xs ca ∧ owns st' rhs pb ys cb.
Proof.
  intros Hne Hthis Hrhs Hlt Hex.
  destruct (ctor_copy_throw _ _ _ _ _ Hrhs Hex) as [tr Hrun].
  exists (St (heap st) (objs st) tr).
  split; [|split; [|split; [|split]]]; cycle 1.
  - reflexivity.
  - reflexivity.
  - by eapply owns_frame.
  - by eapply owns_frame.
  - pose proof Hthis as (Ho & _). pose proof Hrhs as (Hor & _).
    apply wp_Throw_eq. unfold Vector.assign_copy.
    rewrite decide_True by done. do 2 wp_read.
    rewrite decide_True by done. apply wp_bind.
    eapply wp_run; [exact Hrun|]. done.
Qed.

(** X17. [EmplaceBack] on a full block gives the strong exception
    guarantee: when the constructor of the new element throws, or
    when copying an element to the new block throws, the exception
    propagates, the new block is released, and the heap and the vector
    are what they were. *)
Theorem X17_EmplaceBack_full_strong_guarantee st this p xs :
  owns st this p xs (length xs) →
  (∃ st',
     Vector.EmplaceBack this None st = Throw st' ∧
     heap st' = heap st ∧ objs st' = objs st ∧
     trace st'
     = trace st ++ [EvNew (fresh (dom (heap st))) (grown (length xs));
                    EvDelete (fresh (dom (heap st)))]) ∧
  (Vector.use_move = false →
   Exists (λ x, copy_throws x = true) xs →
   ∀ v, ∃ st',
     Vector.EmplaceBack this (Some v) st = Throw st' ∧
     heap st' = heap st ∧ objs st' = objs st ∧
     owns st' this p xs (length xs)).
Proof.
  intros Hown. split.
  - set (b' := fresh (dom (heap st))).
    assert (heap st !! b' = None) as Hb' by apply fresh_block.
    set (n := length xs).
    assert (Hg : n < grown n) by (rewrite grown_max; lia).
    destruct Hown as (Ho & _).
    exists (St (heap st) (objs st)
              (trace st ++ [EvNew b' (grown n); EvDelete b'])).
    split; [|done].
    apply wp_Throw_eq. unfold Vector.EmplaceBack.
    do 2 wp_read. apply wp_bind. rewrite decide_False by lia.
    fold n. fold (grown n).
    apply wp_bind, wp_RawMemory_ctor; [lia|]. fold b'. cbn zeta.
    apply wp_bind, wp_unwinding, wp_bind. vec_simpl.
    eapply wp_construct_at_throw;
      [vec_simpl; by rewrite lookup_insert_eq
      |by apply lookup_replicate_2|].
    eapply wp_RawMemory_dtor;
      [split; [done|]; vec_simpl; by rewrite lookup_insert_eq|].
    cbn [release release_events]. vec_simpl. f_equal.
    + by apply delete_insert_id.
    + by rewrite <- app_assoc.
  - intros Hm Hex v.
    destruct (EmplaceBack_full_copy_throws _ _ _ _ v Hown Hm Hex)
      as (evs & Hrun & _).
    eexists. split; [exact Hrun|]. do 2 (split; [done|]).
    by eapply owns_frame.
Qed.

(** X18. When [EmplaceBack] on a full block fails because copying an
    element to the new block throws, the new element, which was
    constructed in the new block first, is not destroyed: the block
    is released with that object in it. *)
Theorem X18_EmplaceBack_new_element_not_destroyed st this p xs v :
  owns st this p xs (length xs) →
  Vector.use_move = false →
  Exists (λ x, copy_throws x = true) xs →
  let slot := Ptr (fresh (dom (heap st))) (length xs) in
  ∃ st' evs,
    Vector.EmplaceBack this (Some v) st = Throw st' ∧
    trace st' = trace st ++ evs ∧
    (EvConstruct slot ∈ evs) ∧
    (EvDestroy slot ∉ evs) ∧
    (EvDelete (fresh (dom (heap st))) ∈ evs).
Proof.
  intros Hown Hm Hex slot.
  destruct (EmplaceBack_full_copy_throws _ _ _ _ v Hown Hm Hex)
    as (evs & Hrun & Hevs).
  eexists _, _. split; [exact Hrun|]. split; [done|]. split; [|split].
  - set_solver.
  - rewrite !elem_of_app, !elem_of_cons, elem_of_nil.
    intros [[|[|[]]]|[Hin|[|[]]]]; try done.
    rewrite Forall_forall in Hevs. apply Hevs in Hin. cbn in Hin. lia.
  - set_solver.
Qed.

(** X19. [Emplace(pos, args...)] with spare capacity and [pos] before
    [end()], at an offset from [begin()] that an [int] holds, inserts the new value at [pos] in these steps: the value
    is constructed in a temporary, the last element is move-constructed
    into the free slot after it, the elements from [pos] to the one
    before the last are move-assigned one slot up, from the back, the
    temporary is move-assigned to the slot at [pos], and the temporary
    is destroyed.  Buffer and capacity stay. *)
Theorem X19_Emplace_in_place st this p xs1 xs2 z cap v :
  owns st this p (xs1 ++ xs2 ++ [z]) cap →
  length (xs1 ++ xs2 ++ [z]) < cap →
  fits_int (length xs1) →
  let i := length xs1 in
  let last := length xs1 + length xs2 in
  ∃ st',
    Vector.Emplace this (p +ₚ i) (Some v) st = Ok (p +ₚ i) st' ∧
    owns st' this p (xs1 ++ v :: xs2 ++ [z]) cap ∧
    trace st'
    = trace st
        ++ [EvConstructTmp; EvMoveCtor (p +ₚ last) (p +ₚ S last)]
        ++ backward_events (p +ₚ last) (p +ₚ S last) (length xs2)
        ++ [EvMoveAssignTmp (p +ₚ i); EvDestroyTmp].
Proof.
  intros Hown Hlt Hfit i last.
  destruct (owns_block _ _ _ _ _ Hown) as (b & -> & Hb); [lia|].
  destruct Hown as (Ho & Hle & _). cbn [ptr_add Nat.add].
  rewrite !length_app in Ho, Hlt. cbn [length] in Ho, Hlt.
  rewrite Nat.add_1_r, Nat.add_succ_r in Ho, Hlt.
  eexists. split; [by apply Emplace_spare_mid|]. split; [|done].
  apply owns_intro; vec_simpl.
  - rewrite lookup_insert_eq, !length_app. cbn.
    rewrite !length_app. cbn. do 3 f_equal. lia.
  - by rewrite lookup_insert_eq.
  - rewrite !length_app. cbn. rewrite !length_app. cbn. lia.
Qed.

(** X20. [Emplace(pos, args...)] on a full block, [pos] at an offset
    from [begin()] that an [int] holds, allocates a block of
    the grown capacity, constructs the new value in it at the index of
    [pos] first, then carries over the elements before [pos] to the
    same indices and the elements from [pos] on to the indices one
    higher, destroys the old elements and releases the old block. *)
Theorem X20_Emplace_reallocating st this p xs1 xs2 v :
  owns st this p (xs1 ++ xs2) (length (xs1 ++ xs2)) →
  (Vector.use_move = false →
     Forall (λ x, copy_throws x = false) (xs1 ++ xs2)) →
  fits_int (length xs1) →
  let n := length (xs1 ++ xs2) in
  let i := length xs1 in
  let b' := fresh (dom (heap st)) in
  ∃ st',
    Vector.Emplace this (p +ₚ i) (Some v) st = Ok (Ptr b' i) st' ∧
    heap st !! b' = None ∧
    owns st' this (Ptr b' 0) (xs1 ++ v :: xs2) (grown n) ∧
    same_rest st st' this p (Ptr b' 0) ∧
    trace st'
    = trace st
        ++ [EvNew b' (grown n); EvConstruct (Ptr b' i)]
        ++ transfer_events transfer_ev p (Ptr b' 0) i
        ++ transfer_events transfer_ev (p +ₚ i) (Ptr b' (S i)) (length xs2)
        ++ destroy_events p n ++ release_events p.
Proof.
  intros Hown Hok Hfit n i b'.
  pose proof (Emplace_full _ _ _ _ _ v Hown Hok Hfit) as Hrun.
  cbn zeta in Hrun.
  eexists. split; [exact Hrun|].
  split; [apply fresh_block|]. split; [|split; [|done]].
  - apply owns_intro; vec_simpl.
    + rewrite lookup_insert_eq. do 2 f_equal.
      rewrite !length_app. cbn. lia.
    + by rewrite lookup_insert_eq.
    + unfold n. rewrite !length_app, grown_max. cbn. lia.
  - split; vec_simpl; [by apply release_fresh|by rewrite delete_insert_eq].
Qed.

(** X21. [Insert(end(), value)] against [PushBack(value)], on a vector
    of fewer than 2^31 elements.  When the copy of the value does not
    throw, [Insert(end(), value)] does what [PushBack(value)] does, with
    spare capacity and on a full block, and returns the address of the
    reference [EmplaceBack] returns.  When the copy throws on a full
    block, both rethrow from the same state.  When it throws with
    spare capacity they differ: [PushBack] rethrows and leaves the
    state as it was, [Insert] runs the handler of [Emplace], which on
    a vector that holds an element is undefined. *)
Theorem X21_Insert_at_end_and_PushBack st this p xs cap v :
  owns st this p xs cap →
  fits_int (length xs) →
  (copy_throws v = false →
   (length xs = cap → Vector.use_move = false →
      Forall (λ x, copy_throws x = false) xs) →
   Vector.Insert this (p +ₚ length xs) v st
   = Vector.EmplaceBack this (Vector.copy_of v) st ∧
   (Vector.Insert this (p +ₚ length xs) v ;; mret ()) st
   = Vector.PushBack this v st) ∧
  (copy_throws v = true → length xs = cap →
   (Vector.Insert this (p +ₚ length xs) v ;; mret ()) st
   = Vector.PushBack this v st) ∧
  (copy_throws v = true → length xs < cap → xs ≠ [] →
   Vector.Insert this (p +ₚ length xs) v st = Fault ∧
   Vector.PushBack this v st = Throw st).
Proof.
  intros Hown Hfit. split; [|split].
  - intros Hv Hok.
    assert (Vector.Insert this (p +ₚ length xs) v st
            = Vector.EmplaceBack this (Vector.copy_of v) st) as Heq.
    { unfold Vector.Insert, Vector.copy_of. rewrite Hv.
      destruct (decide (length xs < cap)) as [Hlt|Hfull].
      - destruct (owns_block _ _ _ _ _ Hown) as (b & -> & Hb); [lia|].
        destruct Hown as (Ho & _). cbn [ptr_add Nat.add].
        rewrite (Emplace_spare_end _ _ _ _ _ v Ho Hb Hlt Hfit).
        by rewrite (EmplaceBack_spare _ _ _ _ _ v Ho Hb Hlt).
      - assert (cap = length xs) as ->
          by (destruct Hown as (_ & ? & _); lia).
        rewrite (EmplaceBack_full _ _ _ _ v Hown (Hok eq_refl)).
        pose proof (Emplace_full st this p xs [] v) as Hrun.
        rewrite app_nil_r in Hrun.
        rewrite (Hrun Hown (Hok eq_refl) Hfit).
        cbn [length transfer_events app]. done. }
    split; [exact Heq|].
    unfold Vector.PushBack, mbind, M_bind. by rewrite Heq.
  - intros Hv <-.
    unfold Vector.Insert, Vector.PushBack, Vector.copy_of. rewrite Hv.
    unfold mbind, M_bind.
    rewrite (Emplace_full_ctor_throws _ _ _ _ _ Hown (le_n _) Hfit).
    by rewrite (EmplaceBack_full_ctor_throws _ _ _ _ Hown).
  - intros Hv Hlt Hne.
    destruct (owns_block _ _ _ _ _ Hown) as (b & -> & Hb); [lia|].
    destruct Hown as (Ho & _). cbn [ptr_add Nat.add].
    unfold Vector.Insert, Vector.PushBack, Vector.copy_of. rewrite Hv.
    split.
    + destruct xs as [|x xs]; [done|].
      by eapply Emplace_spare_throw_fault.
    + unfold mbind, M_bind.
      by rewrite (EmplaceBack_spare_throw _ _ _ _ _ Ho Hb Hlt).
Qed.

(** X22. When the construction of the new value throws in [Emplace]
    with spare capacity, the handler passes [end()] to
    [operator delete].  On a vector that holds an element that is not
    an address [operator new] returned and the behaviour is undefined,
    whatever the position; on an empty vector it is the block itself,
    which is released although the vector keeps it as its buffer, so
    that the next [EmplaceBack] writes to released memory. *)
Theorem X22_Emplace_handler st this b xs cap :
  owns st this (Ptr b 0) xs cap → length xs < cap →
  (xs ≠ [] → ∀ k, Vector.Emplace this (Ptr b k) None st = Fault) ∧
  (xs = [] →
     ∃ st',
       Vector.Emplace this (Ptr b 0) None st = Throw st' ∧
       heap st' !! b = None ∧ objs st' = objs st ∧
       ∀ v, Vector.EmplaceBack this (Some v) st' = Fault).
Proof.
  intros (Ho & Hle & _ & Hb) Hlt. split.
  - intros Hne k. destruct xs as [|x xs]; [done|].
    by eapply Emplace_spare_throw_fault.
  - intros ->. rewrite slots_of_nil in Hb. cbn [length] in *.
    eexists. split; [by apply (Emplace_empty_throw _ _ _ cap)|]. vec_simpl.
    split; [by rewrite lookup_delete_eq|]. split; [done|].
    intros v.
    match goal with |- ?m ?s = Fault =>
      cut (wp True m (λ _ _, False) (λ _, False) s);
        [unfold wp; by destruct (m s)|]
    end.
    unfold Vector.EmplaceBack. do 2 wp_read. apply wp_bind.
    rewrite decide_True by done. unfold construct_at. apply wp_bind.
    unfold wp, expect_raw, slot. vec_simpl. by rewrite lookup_delete_eq.
Qed.

(** X23. A copy is independent of its source: after the copy
    constructor, any sequence of [PushBack] and [PopBack] on the copy
    leaves the source with its buffer, capacity and elements. *)
Theorem X23_copy_is_independent st other p xs cap cs :
  owns st other p xs cap →
  Forall (λ x, copy_throws x = false) xs →
  Forall push_ok cs →
  ∃ this st' p' cap',
    (this ← Vector.ctor_copy other;
     run_cmds this cs ;;
     mret this) st = Ok this st' ∧
    this ≠ other ∧
    owns st' this p' (replay_from xs cs) cap' ∧
    owns st' other p xs cap.
Proof.
  intros Hown Hxs Hcs.
  destruct (ctor_copy_owns _ _ _ _ _ Hown Hxs)
    as (this & st1 & p1 & Hctor & Hnew & Hthis & Hother & Hsep & _).
  assert (this ≠ other) as Hne.
  { destruct Hown as (Ho & _). congruence. }
  destruct (run_cmds_rest _ _ _ _ _ cs Hthis Hxs Hcs)
    as (st' & p' & cap' & Hrun & Hthis' & Hrest).
  exists this, st', p', cap'. split; [|split; [done|split; [done|]]].
  - unfold mbind, M_bind. by rewrite Hctor, Hrun.
  - eapply same_rest_owns; [exact Hrest| |done| |exact Hother].
    + by destruct (owns_inv _ _ _ _ _ Hthis) as (_ & _ & _ & ?).
    + destruct Hsep as [->|Hsep].
      * destruct p; [by left|by right].
      * destruct p; [by left|right; congruence].
Qed.


(** X25. The helper [DestroyN(buf, n)] of the class does what
    [std::destroy_n(buf, n)], which the class calls in its place,
    does, on every state. *)
Theorem X25_DestroyN_is_destroy_n (buf : ptr) (n : nat) st :
  Vector.DestroyN buf n st = destroy_n buf n st.
Proof.
  unfold Vector.DestroyN. rewrite <- (ptr_add_0 buf) at 2.
  generalize 0 as i. revert st.
  induction n as [|n IH]; intros st i; [done|].
  cbn [Vector.DestroyN_loop destroy_n]. unfold Vector.Destroy, mbind, M_bind.
  destruct (destroy_at (buf +ₚ i) st) as [[] st1| |]; [|done..].
  rewrite IH. f_equal. destruct buf; cbn; [done|]. f_equal. lia.
Qed.

(** X26. [PopBack()] on a vector that holds an element destroys the
    last element and nothing else: the other elements, the buffer and
    the capacity stay.  On an empty vector it does nothing at all. *)
Theorem X26_PopBack st this p xs cap :
  owns st this p xs cap →
  (xs = [] → Vector.PopBack this st = Ok () st) ∧
  (∀ ys y, xs = ys ++ [y] →
     ∃ st',
       Vector.PopBack this st = Ok () st' ∧
       owns st' this p ys cap ∧
       same_rest st st' this p p ∧
       trace st' = trace st ++ [EvDestroy (p +ₚ length ys)]).
Proof.
  intros Hown. split.
  - intros ->. destruct Hown as (Ho & _). by eapply PopBack_empty.
  - intros ys y ->.
    destruct (owns_block _ _ _ _ _ Hown) as (b & -> & Hb).
    { destruct Hown as (_ & Hle & _). rewrite length_app in Hle. cbn in Hle. lia. }
    destruct Hown as (Ho & Hle & _).
    rewrite length_app, Nat.add_1_r in Ho, Hle.
    eexists. split; [by eapply PopBack_last|]. split; [|split; [|done]].
    + apply owns_intro; vec_simpl; [by rewrite lookup_insert_eq..|lia].
    + split; vec_simpl; cbn [release]; by rewrite delete_insert_eq.
Qed.

(** X27. Copy assignment from a source that fits in the capacity
    reuses the block: the buffer and the capacity stay, the elements
    both vectors have are overwritten by copy assignment, and then the
    surplus of the destination is destroyed, or the surplus of the
    source is copy-constructed into the free slots. *)
Theorem X27_assign_copy_in_place st this rhs pa xs ca pb ys cb :
  this ≠ rhs →
  owns st this pa xs ca → owns st rhs pb ys cb → separate pa pb →
  length ys ≤ ca →
  Forall (λ y, assign_throws y = false) ys →
  Forall (λ y, copy_throws y = false) ys →
  ∃ st',
    Vector.assign_copy this rhs st = Ok () st' ∧
    owns st' this pa ys ca ∧ owns st' rhs pb ys cb ∧
    same_rest st st' this pa pa ∧
    trace st'
    = trace st
        ++ transfer_events EvCopyAssign pb pa (Nat.min (length xs) (length ys))
        ++ (if decide (length ys < length xs)
            then destroy_events (pa +ₚ length ys) (length xs - length ys)
            else transfer_events EvCopyCtor (pb +ₚ length xs)
                   (pa +ₚ length xs) (length ys - length xs)).
Proof.
  intros Hne Ha Hb Hsep Hfit Hassign Hcopy.
  destruct (decide (length ys < length xs)) as [Hshort|Hlong].
  - destruct (owns_block _ _ _ _ _ Ha) as (a0 & -> & Ha0).
    { destruct Ha as (_ & ? & _). lia. }
    destruct Hsep as [?|Hsep]; [done|].
    rewrite <- (take_drop (length ys) xs) in Ha.
    pose proof (assign_copy_shrink _ _ _ _ _ _ _ _ _ _ Hne Ha Hb) as Hrun.
    rewrite length_take, length_drop in Hrun.
    rewrite Nat.min_r by lia.
    eexists. split; [apply Hrun; [congruence|lia|lia|done]|].
    destruct Hb as (Hob & Hleb & Hpb).
    split; [|split; [|split; [|done]]].
    + apply owns_intro; vec_simpl; [by rewrite lookup_insert_eq..|lia].
    + split; [|split; [done|]]; vec_simpl.
      * by rewrite lookup_insert_ne.
      * apply block_at_insert_ne; [congruence|done].
    + split; vec_simpl; cbn [release]; by rewrite delete_insert_eq.
  - assert (length xs ≤ length ys) as Hle by lia.
    rewrite <- (take_drop (length xs) ys) in Hb.
    pose proof (assign_copy_grow _ _ _ _ _ _ _ _ _ _ Hne Ha Hb) as Hrun.
    rewrite length_take, length_drop in Hrun. rewrite take_drop in Hrun, Hb.
    apply Forall_take with (n := length xs) in Hassign as Hassign'.
    apply Forall_drop with (n := length xs) in Hcopy as Hcopy'.
    assert (∀ a0, pa = Ptr a0 0 → pb ≠ Ptr a0 0) as Hdis.
    { intros a0 ->. destruct Hsep as [?|Hsep]; [done|congruence]. }
    rewrite Nat.min_l by lia.
    replace (length xs `min` length ys) with (length xs) in Hrun by lia.
    eexists. split; [apply Hrun; [done|lia|lia|done|done]|].
    destruct (owns_inv _ _ _ _ _ Ha) as (Hoa & Hlea & Hpa & Hpa0).
    destruct Hb as (Hob & Hleb & Hpb).
    split; [|split; [|split; [|done]]].
    + split; [|split; [lia|]]; vec_simpl.
      * by rewrite lookup_insert_eq.
      * eapply block_at_update; [done|].
        rewrite !slots_of_length; [done|lia..].
    + split; [|split; [done|]]; vec_simpl.
      * by rewrite lookup_insert_ne.
      * destruct pa as [|a0 i0]; [done|]. cbn [update_block].
        rewrite (Hpa0 a0 i0) in * by done.
        apply block_at_insert_ne; [|done]. by apply Hdis.
    + split; vec_simpl; [|by rewrite delete_insert_eq].
      destruct pa; cbn [release update_block]; [done|].
      by rewrite delete_insert_eq.
Qed.

(** X28. Copy assignment in place gives the basic guarantee only:
    when the copy assignment of an element throws, the exception
    propagates with the size, the buffer and the capacity of the
    destination as they were and the source untouched, but elements
    of the destination may already have been overwritten. *)
Theorem X28_assign_copy_in_place_throws st this rhs pa xs ca pb ys cb :
  this ≠ rhs →
  owns st this pa xs ca → owns st rhs pb ys cb → separate pa pb →
  length ys ≤ ca →
  Exists (λ y, assign_throws y = true) (take (length xs) ys) →
  ∃ st' xs',
    Vector.assign_copy this rhs st = Throw st' ∧
    length xs' = length xs ∧
    owns st' this pa xs' ca ∧ owns st' rhs pb ys cb.
Proof.
  intros Hne Ha Hb Hsep Hfit Hex.
  assert (0 < length xs ∧ 0 < length ys) as [Hxs Hys].
  { destruct xs; [by apply Exists_nil in Hex|].
    destruct ys; [by apply Exists_nil in Hex|]. cbn. lia. }
  destruct (owns_block _ _ _ _ _ Ha) as (a & -> & Hha).
  { destruct Ha as (_ & ? & _). lia. }
  destruct (owns_block _ _ _ _ _ Hb) as (b & -> & Hhb).
  { destruct Hb as (_ & ? & _). lia. }
  destruct Hsep as [?|Hsep]; [done|]. assert (b ≠ a) as Hba by congruence.
  pose proof Ha as (Hoa & Hlea & _). pose proof Hb as (Hob & Hleb & _).
  set (k := Nat.min (length xs) (length ys)).
  assert (take k ys = take (length xs) ys) as Htk.
  { unfold k. destruct (decide (length xs ≤ length ys)).
    - by rewrite Nat.min_l by lia.
    - rewrite Nat.min_r by lia. by rewrite !take_ge by lia. }
  rewrite <- Htk in Hex.
  assert (length (take k ys) = k) as Hlk1 by (rewrite length_take; lia).
  assert (length (take k xs) = k) as Hlk2 by (rewrite length_take; lia).
  assert (∀ (zs : list T) c,
            slots_of zs c
            = (Some <$> take k zs) ++ (Some <$> drop k zs)
                ++ replicate (c - length zs) None) as Hsl.
  { intros zs c. unfold slots_of. rewrite <- (take_drop k zs) at 1.
    by rewrite fmap_app, <- app_assoc. }
  rewrite Hsl in Hha, Hhb.
  destruct (copy_n_throw st b 0 a 0 k [] _ [] _ (take k ys) (take k xs)
              Hba Hhb Hha eq_refl eq_refl)
    as (ws' & tr & Hlen & Hrun); [lia|lia|done|].
  cbn [app] in Hrun.
  exists (St (<[a := (Some <$> ws') ++ (Some <$> drop k xs)
                       ++ replicate (ca - length xs) None]>
                (heap st)) (objs st) tr),
         (ws' ++ drop k xs).
  assert (length (ws' ++ drop k xs) = length xs) as Hlen'.
  { rewrite length_app, Hlen, Hlk2, length_drop. lia. }
  split; [|split; [done|split]].
  - apply wp_Throw_eq. unfold Vector.assign_copy.
    rewrite decide_True by done. do 2 wp_read.
    rewrite decide_False by lia. do 2 wp_read.
    case_decide.
    + apply wp_bind, wp_bind. unfold copy. cbn [ptr_add Nat.add].
      rewrite ptr_diff_0.
      replace (length ys) with k by lia.
      eapply wp_run; [exact Hrun|]. done.
    + apply wp_bind, wp_bind. unfold copy. cbn [ptr_add Nat.add].
      rewrite ptr_diff_0.
      replace (length xs) with k at 1 by lia.
      eapply wp_run; [exact Hrun|]. done.
  - split; [|split]; vec_simpl.
    + by rewrite Hlen'.
    + lia.
    + split; [done|]. rewrite lookup_insert_eq. f_equal.
      unfold slots_of. by rewrite fmap_app, <- app_assoc, Hlen'.
  - eapply owns_frame; [| |exact Hb]; vec_simpl; [done|].
    intros ? [= <-]. by rewrite lookup_insert_ne.
Qed.

(** X29. [Emplace] on a full block, at an offset from [begin()] that
    an [int] holds, when the construction of the new value throws: that happens outside the [try] block of the
    in-place path; the new block is released by its owner and the
    heap and the vector are what they were. *)
Theorem X29_Emplace_full_constructor_throws st this p xs i :
  owns st this p xs (length xs) → i ≤ length xs → fits_int i →
  ∃ st',
    Vector.Emplace this (p +ₚ i) None st = Throw st' ∧
    heap st' = heap st ∧ objs st' = objs st ∧
    trace st'
    = trace st ++ [EvNew (fresh (dom (heap st))) (grown (length xs));
                   EvDelete (fresh (dom (heap st)))].
Proof.
  intros Hown Hi Hfit.
  pose proof (ptr_diff_owned _ _ _ _ _ i Hown Hi) as Hdiff.
  set (b' := fresh (dom (heap st))).
  assert (heap st !! b' = None) as Hb' by apply fresh_block.
  set (n := length xs) in *.
  assert (Hg : n < grown n) by (rewrite grown_max; lia).
  destruct Hown as (Ho & _).
  exists (St (heap st) (objs st)
            (trace st ++ [EvNew b' (grown n); EvDelete b'])).
  split; [|done].
  apply wp_Throw_eq. unfold Vector.Emplace.
  wp_read. rewrite Hdiff, int_of_Z_fits by done. cbn zeta.
  do 2 wp_read. apply wp_bind.
  rewrite decide_False by lia. fold n. fold (grown n).
  apply wp_bind, wp_RawMemory_ctor; [lia|]. fold b'. cbn zeta.
  apply wp_bind, wp_unwinding. wp_offset. apply wp_bind.
  eapply wp_construct_at_throw;
    [vec_simpl; by rewrite lookup_insert_eq
    |apply lookup_replicate_2; lia|].
  eapply wp_RawMemory_dtor;
    [split; [done|]; vec_simpl; by rewrite lookup_insert_eq|].
  cbn [release release_events]. vec_simpl. f_equal.
  - by apply delete_insert_id.
  - by rewrite <- app_assoc.
Qed.
(** X30. [Insert(p, v)] at a position whose offset from [begin()] an
    [int] holds, followed by [Erase] at the position returned, gives
    back the size and the elements the vector had, for the copying and
    for the moving overload of [Insert]; the capacity may have
    grown. *)
Theorem X30_Insert_then_Erase st this p xs1 xs2 cap v :
  owns st this p (xs1 ++ xs2) cap →
  copy_throws v = false →
  (length (xs1 ++ xs2) = cap → Vector.use_move = false →
     Forall (λ x, copy_throws x = false) (xs1 ++ xs2)) →
  fits_int (length xs1) →
  (∃ st' p' cap',
     (r ← Vector.Insert this (p +ₚ length xs1) v; Vector.Erase this r) st
     = Ok (p' +ₚ length xs1) st' ∧
     owns st' this p' (xs1 ++ xs2) cap' ∧
     Vector.Size this st' = Ok (length (xs1 ++ xs2)) st') ∧
  (∃ st' p' cap',
     (r ← Vector.Insert_move this (p +ₚ length xs1) v; Vector.Erase this r) st
     = Ok (p' +ₚ length xs1) st' ∧
     owns st' this p' (xs1 ++ xs2) cap' ∧
     Vector.Size this st' = Ok (length (xs1 ++ xs2)) st').
Proof.
  intros Hown Hv Hok Hfit.
  destruct (Emplace_owns _ _ _ _ _ _ v Hown Hok Hfit)
    as (st1 & p1 & Hins & Hown1).
  destruct (Erase_owns _ _ _ _ _ _ _ Hown1 Hfit) as (st' & Hers & Hown').
  assert (∃ st' p' cap',
     (r ← Vector.Emplace this (p +ₚ length xs1) (Some v); Vector.Erase this r) st
     = Ok (p' +ₚ length xs1) st' ∧
     owns st' this p' (xs1 ++ xs2) cap' ∧
     Vector.Size this st' = Ok (length (xs1 ++ xs2)) st') as Hboth.
  { eexists st', p1, _. split; [|split; [done|by eapply Size_owned]].
    unfold mbind, M_bind. by rewrite Hins. }
  split.
  - unfold Vector.Insert, Vector.copy_of. by rewrite Hv.
  - done.
Qed.
End extras.

(** * Concrete runs of the further properties *)

Ltac fits_concrete := unfold fits_int, INT_MAX; cbn; lia.

Section more_int_runs.
Local Existing Instance int_element.

Lemma X1_witness :
  owns two_of_two 0 (Ptr 0 0) ([] ++ 10 :: [20]) 2 ∧
  ∃ st',
    Vector.Erase 0 (Ptr 0 0) two_of_two = Ok (Ptr 0 0) st' ∧
    owns st' 0 (Ptr 0 0) [20] 2.
Proof.
  assert (owns two_of_two 0 (Ptr 0 0) ([] ++ 10 :: [20]) 2) as Hown
    by owns_concrete.
  split; [exact Hown|].
  destruct (X1_Erase_removes_one _ _ _ _ _ _ _ Hown)
    as (st' & Hrun & Hown' & _); [fits_concrete|].
  exists st'. split; [exact Hrun|exact Hown'].
Defined.

Lemma X2_witness :
  owns two_of_two 0 (Ptr 0 0) [10; 20] 2 ∧
  Vector.Erase 0 (Ptr 0 2) two_of_two = Fault.
Proof.
  assert (owns two_of_two 0 (Ptr 0 0) [10; 20] 2) as Hown by owns_concrete.
  split; [exact Hown|].
  apply (X2_Erase_at_end_undefined _ _ _ _ _ Hown). fits_concrete.
Defined.

Lemma X3_witness :
  owns one_of_two 0 (Ptr 0 0) [10] 2 ∧
  ∃ st' p' cap',
    (Vector.PushBack 0 7 ;; Vector.PopBack 0) one_of_two = Ok () st' ∧
    owns st' 0 p' [10] cap'.
Proof.
  assert (owns one_of_two 0 (Ptr 0 0) [10] 2) as Hown by owns_concrete.
  split; [exact Hown|].
  destruct (X3_PushBack_then_PopBack (ET:=int_element) _ _ _ _ _ 7 Hown eq_refl)
    as (st' & p' & cap' & Hrun & Hown' & _).
  - cbn. lia.
  - exists st', p', cap'. split; [exact Hrun|exact Hown'].
Defined.

Lemma X4_witness :
  owns one_of_two 0 (Ptr 0 0) [10] 2 ∧
  ∃ st',
    push_all 0 [7] one_of_two = Ok () st' ∧
    owns st' 0 (Ptr 0 0) [10; 7] 2.
Proof.
  assert (owns one_of_two 0 (Ptr 0 0) [10] 2) as Hown by owns_concrete.
  split; [exact Hown|].
  destruct (X4_appends_within_capacity _ _ _ _ _ [7] Hown)
    as (st' & Hrun & Hown' & _).
  - cbn. lia.
  - repeat constructor.
  - exists st'. split; [exact Hrun|exact Hown'].
Defined.

Lemma X6_witness :
  owns two_vectors 0 (Ptr 0 0) [1] 1 ∧
  owns two_vectors 1 (Ptr 1 0) [2] 1 ∧
  (Vector.Swap 0 1 ;; Vector.Swap 0 1) two_vectors = Ok () two_vectors.
Proof.
  assert (owns two_vectors 0 (Ptr 0 0) [1] 1) as Ha by owns_concrete.
  assert (owns two_vectors 1 (Ptr 1 0) [2] 1) as Hb by owns_concrete.
  split; [exact Ha|]. split; [exact Hb|].
  exact (proj1 (proj2 (X6_Swap _ _ _ _ _ _ _ _ _ Ha Hb))).
Defined.

Lemma X7_witness :
  Forall push_ok [Push 1; Pop; Pop; Push 2; Push 3] ∧
  ∃ st',
    (this ← Vector.ctor_default;
     run_cmds this [Push 1; Pop; Pop; Push 2; Push 3] ;;
     Vector.dtor this) empty_state = Ok () st' ∧
    heap st' = heap (@empty_state nat).
Proof.
  assert (Forall push_ok [Push 1; Pop; Pop; Push 2; Push 3]) as Hok
    by (repeat constructor).
  split; [exact Hok|].
  destruct (X7_lifetime_leaves_nothing empty_state _ Hok)
    as (st' & Hrun & Hheap & _).
  exists st'. split; [exact Hrun|exact Hheap].
Defined.

Lemma X8_witness :
  owns two_of_two 0 (Ptr 0 0) [10; 20] 2 ∧
  Vector.end_ 0 two_of_two = Ok (Ptr 0 2) two_of_two.
Proof.
  assert (owns two_of_two 0 (Ptr 0 0) [10; 20] 2) as Hown by owns_concrete.
  split; [exact Hown|].
  exact (proj1 (proj2 (X8_iterators_and_index _ _ _ _ _ Hown))).
Defined.

Lemma X9_witness :
  owns two_of_two 0 (Ptr 0 0) [10; 20] 2 ∧
  ∃ st',
    Vector.Resize 0 1 two_of_two = Ok () st' ∧
    owns st' 0 (Ptr 0 0) [10] 2.
Proof.
  assert (owns two_of_two 0 (Ptr 0 0) [10; 20] 2) as Hown by owns_concrete.
  split; [exact Hown|].
  destruct (X9_Resize_shrinks _ _ _ _ _ 1 Hown) as (st' & Hrun & Hown' & _).
  - cbn. lia.
  - exists st'. split; [exact Hrun|exact Hown'].
Defined.



Lemma X14_witness :
  owns two_of_two 0 (Ptr 0 0) [10; 20] 2 ∧
  ∃ this st' p',
    Vector.ctor_copy 0 two_of_two = Ok this st' ∧
    owns st' this p' [10; 20] 2 ∧
    owns st' 0 (Ptr 0 0) [10; 20] 2.
Proof.
  assert (owns two_of_two 0 (Ptr 0 0) [10; 20] 2) as Hown by owns_concrete.
  split; [exact Hown|].
  destruct (X14_ctor_copy _ _ _ _ _ Hown)
    as (this & st' & p' & Hrun & _ & Hthis & Hother & _).
  - repeat constructor.
  - exists this, st', p'. split; [exact Hrun|]. split; [exact Hthis|exact Hother].
Defined.

Lemma X19_witness :
  owns one_of_two 0 (Ptr 0 0) ([] ++ [] ++ [10]) 2 ∧
  ∃ st',
    Vector.Emplace 0 (Ptr 0 0) (Some 5) one_of_two = Ok (Ptr 0 0) st' ∧
    owns st' 0 (Ptr 0 0) [5; 10] 2.
Proof.
  assert (owns one_of_two 0 (Ptr 0 0) ([] ++ [] ++ [10]) 2) as Hown
    by owns_concrete.
  split; [exact Hown|].
  destruct (X19_Emplace_in_place _ _ _ _ _ _ _ 5 Hown)
    as (st' & Hrun & Hown' & _).
  - cbn. lia.
  - fits_concrete.
  - exists st'. split; [exact Hrun|exact Hown'].
Defined.

Lemma X20_witness :
  owns two_of_two 0 (Ptr 0 0) ([10] ++ [20]) (length ([10] ++ [20])) ∧
  ∃ st' b',
    Vector.Emplace 0 (Ptr 0 1) (Some 15) two_of_two = Ok (Ptr b' 1) st' ∧
    owns st' 0 (Ptr b' 0) [10; 15; 20] 4.
Proof.
  assert (owns two_of_two 0 (Ptr 0 0) ([10] ++ [20]) (length ([10] ++ [20])))
    as Hown by owns_concrete.
  split; [exact Hown|].
  destruct (X20_Emplace_reallocating _ _ _ _ _ 15 Hown)
    as (st' & Hrun & _ & Hown' & _).
  - intros Hm. vm_compute in Hm. discriminate Hm.
  - fits_concrete.
  - exists st', (fresh (dom (heap two_of_two))).
    split; [exact Hrun|exact Hown'].
Defined.

Lemma X22_witness :
  owns one_of_two 0 (Ptr 0 0) [10] 2 ∧
  Vector.Emplace 0 (Ptr 0 0) None one_of_two = Fault.
Proof.
  assert (owns one_of_two 0 (Ptr 0 0) [10] 2) as Hown by owns_concrete.
  split; [exact Hown|].
  apply (X22_Emplace_handler _ _ _ _ _ Hown).
  - cbn. lia.
  - discriminate.
Defined.

Lemma X23_witness :
  owns two_of_two 0 (Ptr 0 0) [10; 20] 2 ∧
  ∃ this st' p' cap',
    (this ← Vector.ctor_copy 0;
     run_cmds this [Push 30; Pop; Pop] ;;
     mret this) two_of_two = Ok this st' ∧
    owns st' this p' [10] cap' ∧
    owns st' 0 (Ptr 0 0) [10; 20] 2.
Proof.
  assert (owns two_of_two 0 (Ptr 0 0) [10; 20] 2) as Hown by owns_concrete.
  split; [exact Hown|].
  destruct (X23_copy_is_independent _ _ _ _ _ [Push 30; Pop; Pop] Hown)
    as (this & st' & p' & cap' & Hrun & _ & Hthis & Hother).
  - repeat constructor.
  - repeat constructor.
  - exists this, st', p', cap'.
    split; [exact Hrun|]. split; [exact Hthis|exact Hother].
Defined.

Lemma X26_witness :
  owns two_of_two 0 (Ptr 0 0) [10; 20] 2 ∧
  ∃ st',
    Vector.PopBack 0 two_of_two = Ok () st' ∧
    owns st' 0 (Ptr 0 0) [10] 2.
Proof.
  assert (owns two_of_two 0 (Ptr 0 0) [10; 20] 2) as Hown by owns_concrete.
  split; [exact Hown|].
  destruct (proj2 (X26_PopBack _ _ _ _ _ Hown) [10] 20 eq_refl)
    as (st' & Hrun & Hown' & _).
  exists st'. split; [exact Hrun|exact Hown'].
Defined.

Lemma X27_witness :
  owns two_vectors 0 (Ptr 0 0) [1] 1 ∧
  owns two_vectors 1 (Ptr 1 0) [2] 1 ∧
  ∃ st',
    Vector.assign_copy 0 1 two_vectors = Ok () st' ∧
    owns st' 0 (Ptr 0 0) [2] 1.
Proof.
  assert (owns two_vectors 0 (Ptr 0 0) [1] 1) as Ha by owns_concrete.
  assert (owns two_vectors 1 (Ptr 1 0) [2] 1) as Hb by owns_concrete.
  split; [exact Ha|]. split; [exact Hb|].
  destruct (X27_assign_copy_in_place _ 0 1 _ _ _ _ _ _ ltac:(lia) Ha Hb)
    as (st' & Hrun & Hown' & _).
  - right. discriminate.
  - cbn. lia.
  - repeat constructor.
  - repeat constructor.
  - exists st'. split; [exact Hrun|exact Hown'].
Defined.

Lemma X29_witness :
  owns two_of_two 0 (Ptr 0 0) [10; 20] (length [10; 20]) ∧
  ∃ st',
    Vector.Emplace 0 (Ptr 0 1) None two_of_two = Throw st' ∧
    heap st' = heap two_of_two.
Proof.
  assert (owns two_of_two 0 (Ptr 0 0) [10; 20] (length [10; 20])) as Hown
    by owns_concrete.
  split; [exact Hown|].
  destruct (X29_Emplace_full_constructor_throws _ _ _ _ 1 Hown)
    as (st' & Hrun & Hheap & _).
  - cbn. lia.
  - fits_concrete.
  - exists st'. split; [exact Hrun|exact Hheap].
Defined.
Lemma X30_witness :
  owns one_of_two 0 (Ptr 0 0) ([] ++ [10]) 2 ∧
  ∃ st' p' cap',
    (r ← Vector.Insert 0 (Ptr 0 0) 5;
     Vector.Erase 0 r) one_of_two = Ok (p' +ₚ 0) st' ∧
    owns st' 0 p' [10] cap'.
Proof.
  assert (owns one_of_two 0 (Ptr 0 0) ([] ++ [10]) 2) as Hown by owns_concrete.
  split; [exact Hown|].
  destruct (X30_Insert_then_Erase _ _ _ [] [10] _ 5 Hown)
    as [(st' & p' & cap' & Hrun & Hown' & _) _].
  - done.
  - cbn. lia.
  - fits_concrete.
  - exists st', p', cap'. split; [exact Hrun|exact Hown'].
Defined.
End more_int_runs.

Section more_unlucky_runs.
Local Existing Instance unlucky_element.

Lemma X21_witness :
  owns one_of_two 0 (Ptr 0 0) [10] 2 ∧
  Vector.Insert 0 (Ptr 0 1) 7 one_of_two
  = Vector.EmplaceBack 0 (Vector.copy_of 7) one_of_two ∧
  Vector.Insert 0 (Ptr 0 1) 13 one_of_two = Fault ∧
  Vector.PushBack 0 13 one_of_two = Throw one_of_two.
Proof.
  assert (owns one_of_two 0 (Ptr 0 0) [10] 2) as Hown by owns_concrete.
  assert (fits_int (length [10])) as Hfit
    by (unfold fits_int, INT_MAX; cbn; lia).
  split; [exact Hown|]. split.
  - apply (X21_Insert_at_end_and_PushBack (ET:=unlucky_element)
             _ _ _ _ _ 7 Hown Hfit); [reflexivity|].
    cbn. lia.
  - apply (X21_Insert_at_end_and_PushBack (ET:=unlucky_element)
             _ _ _ _ _ 13 Hown Hfit); [reflexivity|cbn; lia|discriminate].
Defined.


Lemma X15_witness :
  owns three_vectors 2 (Ptr 2 0) ([10] ++ 13 :: [20]) 3 ∧
  ∃ st',
    Vector.ctor_copy 2 three_vectors = Throw st' ∧
    heap st' = heap three_vectors ∧ objs st' = objs three_vectors ∧
    trace st'
    = [EvNew 3 3; EvCopyCtor (Ptr 2 0) (Ptr 3 0); EvDestroy (Ptr 3 0);
       EvDelete 3].
Proof.
  assert (owns three_vectors 2 (Ptr 2 0) ([10] ++ 13 :: [20]) 3) as Hown
    by owns_concrete.
  split; [exact Hown|].
  destruct (X15_ctor_copy_throws (ET:=unlucky_element) _ _ _ _ _ _ _ Hown)
    as (st' & Hrun & Hheap & Hobjs & Htr).
  - repeat constructor.
  - reflexivity.
  - exists st'. split; [exact Hrun|]. split; [exact Hheap|].
    split; [exact Hobjs|]. rewrite Htr. vm_compute. reflexivity.
Defined.

Lemma X16_witness :
  owns three_vectors 0 (Ptr 0 0) [1; 2] 2 ∧
  owns three_vectors 2 (Ptr 2 0) [10; 13; 20] 3 ∧
  ∃ st',
    Vector.assign_copy 0 2 three_vectors = Throw st' ∧
    heap st' = heap three_vectors ∧ objs st' = objs three_vectors.
Proof.
  assert (owns three_vectors 0 (Ptr 0 0) [1; 2] 2) as Ha by owns_concrete.
  assert (owns three_vectors 2 (Ptr 2 0) [10; 13; 20] 3) as Hb
    by owns_concrete.
  split; [exact Ha|]. split; [exact Hb|].
  destruct (X16_assign_copy_strong_guarantee _ 0 2 _ _ _ _ _ _
              ltac:(lia) Ha Hb)
    as (st' & Hrun & Hheap & Hobjs & _).
  - cbn. lia.
  - apply Exists_cons_tl, Exists_cons_hd. reflexivity.
  - exists st'. split; [exact Hrun|]. split; [exact Hheap|exact Hobjs].
Defined.

Lemma X17_witness :
  owns three_vectors 1 (Ptr 1 0) [13] (length [13]) ∧
  ∃ st',
    Vector.EmplaceBack 1 None three_vectors = Throw st' ∧
    heap st' = heap three_vectors ∧ objs st' = objs three_vectors.
Proof.
  assert (owns three_vectors 1 (Ptr 1 0) [13] (length [13])) as Hown
    by owns_concrete.
  split; [exact Hown|].
  destruct (proj1 (X17_EmplaceBack_full_strong_guarantee _ _ _ _ Hown))
    as (st' & Hrun & Hheap & Hobjs & _).
  exists st'. split; [exact Hrun|]. split; [exact Hheap|exact Hobjs].
Defined.

Lemma X18_witness :
  owns three_vectors 1 (Ptr 1 0) [13] (length [13]) ∧
  ∃ st' evs,
    Vector.EmplaceBack 1 (Some 5) three_vectors = Throw st' ∧
    trace st' = trace three_vectors ++ evs ∧
    (EvDestroy (Ptr (fresh (dom (heap three_vectors))) 1) ∉ evs).
Proof.
  assert (owns three_vectors 1 (Ptr 1 0) [13] (length [13])) as Hown
    by owns_concrete.
  split; [exact Hown|].
  destruct (X18_EmplaceBack_new_element_not_destroyed _ _ _ _ 5 Hown)
    as (st' & evs & Hrun & Htr & _ & Hno & _).
  - reflexivity.
  - apply Exists_cons_hd. reflexivity.
  - exists st', evs. split; [exact Hrun|]. split; [exact Htr|exact Hno].
Defined.

Lemma X28_witness :
  owns three_vectors 0 (Ptr 0 0) [1; 2] 2 ∧
  owns three_vectors 1 (Ptr 1 0) [13] 1 ∧
  ∃ st' xs',
    Vector.assign_copy 0 1 three_vectors = Throw st' ∧
    owns st' 0 (Ptr 0 0) xs' 2 ∧
    owns st' 1 (Ptr 1 0) [13] 1.
Proof.
  assert (owns three_vectors 0 (Ptr 0 0) [1; 2] 2) as Ha by owns_concrete.
  assert (owns three_vectors 1 (Ptr 1 0) [13] 1) as Hb by owns_concrete.
  split; [exact Ha|]. split; [exact Hb|].
  destruct (X28_assign_copy_in_place_throws _ 0 1 _ _ _ _ _ _
              ltac:(lia) Ha Hb)
    as (st' & xs' & Hrun & _ & Hthis & Hrhs).
  - right. discriminate.
  - cbn. lia.
  - apply Exists_cons_hd. reflexivity.
  - exists st', xs'. split; [exact Hrun|]. split; [exact Hthis|exact Hrhs].
Defined.
End more_unlucky_runs.

Section more_no_default_runs.
Local Existing Instance no_default_element.


Lemma X13_witness :
  ∃ st',
    Vector.ctor_size 2 (@empty_state nat) = Throw st' ∧
    heap st' = heap (@empty_state nat) ∧ objs st' = objs (@empty_state nat).
Proof.
  apply (X13_ctor_size_throws (ET:=no_default_element) empty_state 2 eq_refl). lia.
Defined.
End more_no_default_runs.
